(** * Satsify: CNF transforms and three backtracking SAT searches

    A shallow embedding of [cnf_transformer.py], [example_sat_solver.py] and
    the [tests/sat_solver] package.  Literals are Python integers ([Z]),
    an assignment is a Python [dict] from variable to [bool]
    ([gmap Z bool]), Python [set]s are [gset]s, and the statistics
    dictionaries are records that the search threads through its calls. *)

From Stdlib Require Import ZArith List Bool Lia.
From stdpp Require Import base strings gmap list fin_maps fin_sets.

Local Open Scope Z_scope.

(** ** Outcomes of a Python call

    A call either hands a value back, raises, or (in the model only) runs
    out of the fuel that bounds loop iterations and recursion depth. *)

Inductive exn := IndexError | KeyError.

Inductive res (A : Type) : Type :=
| Done (x : A)
| Raise (e : exn)
| OutOfFuel.
Arguments Done {A} x.
Arguments Raise {A} e.
Arguments OutOfFuel {A}.

#[global] Instance res_ret : MRet res := fun A x => Done x.
#[global] Instance res_bind : MBind res := fun A B k m =>
  match m with
  | Done x => k x
  | Raise e => Raise e
  | OutOfFuel => OutOfFuel
  end.

#[global] Instance res_fmap : FMap res := fun A B f m =>
  match m with
  | Done x => Done (f x)
  | Raise e => Raise e
  | OutOfFuel => OutOfFuel
  end.

Definition returns {A} (m : res A) : Prop := exists x, m = Done x.

(** ** Data model *)

Definition clause := list Z.

(** Python's [l[i]] for an index taken from [range(len(l))]. *)
Definition list_getitem {A} (l : list A) (i : nat) : res A :=
  match l !! i with
  | Some x => Done x
  | None => Raise IndexError
  end.

(** Python's [l[i] = x]: a negative index counts from the end, and an index
    outside the list raises. *)
Definition list_setitem {A} (l : list A) (i : Z) (x : A) : res (list A) :=
  let n := Z.of_nat (length l) in
  let j := if i <? 0 then i + n else i in
  if (0 <=? j) && (j <? n) then Done (<[Z.to_nat j := x]> l)
  else Raise IndexError.

(** The truth test that every satisfaction check spells out:
    [(literal > 0 and value) or (literal < 0 and not value)]. *)
Definition literal_holds (lit : Z) (value : bool) : bool :=
  ((0 <? lit) && value) || ((lit <? 0) && negb value).

(** *** [cnf_transformer.py] *)

Record CNFInstance := {
  filename : string;
  num_variables : Z;
  num_clauses : Z;
  clauses : list clause;
  comments : list string
}.

(** The set built by [get_variable_count]: every [abs(literal)]. *)
Definition clause_variables (c : clause) : gset Z :=
  list_to_set (Z.abs <$> c).

Definition variables_of (cls : list clause) : gset Z :=
  ⋃ (clause_variables <$> cls).

Definition get_variable_count (cnf : CNFInstance) : nat :=
  size (variables_of (clauses cnf)).

(** [distribution[length] = distribution.get(length, 0) + 1] per clause. *)
Definition get_clause_length_distribution (cnf : CNFInstance) : gmap nat nat :=
  fold_left
    (fun distribution c =>
       let len := length c in
       <[len := (default 0 (distribution !! len) + 1)%nat]> distribution)
    (clauses cnf) ∅.

Module CNFTransformer.

(** The inner loops of [to_adjacency_list] for one [var] of a clause:
    create the entry when it is missing, then add every other variable of
    the clause.  [adjacency[var].add(..)] reads the entry just created. *)
Definition add_neighbours (variables : list Z) (adjacency : gmap Z (gset Z))
    (var : Z) : gmap Z (gset Z) :=
  let adjacency :=
    match adjacency !! var with
    | None => <[var := ∅]> adjacency
    | Some _ => adjacency
    end in
  fold_left
    (fun adj other_var =>
       if decide (other_var ≠ var)
       then alter (fun s => {[other_var]} ∪ s) var adj
       else adj)
    variables adjacency.

Definition add_clause (adjacency : gmap Z (gset Z)) (c : clause)
    : gmap Z (gset Z) :=
  let variables := Z.abs <$> c in
  fold_left (add_neighbours variables) variables adjacency.

Definition to_adjacency_list (cnf : CNFInstance) : gmap Z (gset Z) :=
  fold_left add_clause (clauses cnf) ∅.

(** One row of [to_matrix_representation]. *)
Fixpoint fill_row (max_var : Z) (c : clause) (row : list Z) : res (list Z) :=
  match c with
  | [] => Done row
  | lit :: rest =>
      row ← (if 0 <? lit then list_setitem row (lit - 1) 1
             else list_setitem row (max_var + Z.abs lit - 1) 1);
      fill_row max_var rest row
  end.

Fixpoint build_rows (max_var : Z) (cls : list clause) (matrix : list (list Z))
    : res (list (list Z)) :=
  match cls with
  | [] => Done matrix
  | c :: rest =>
      row ← fill_row max_var c (replicate (Z.to_nat (2 * max_var)) 0);
      build_rows max_var rest (matrix ++ [row])
  end.

Definition to_matrix_representation (cnf : CNFInstance)
    : res (list (list Z) * nat * Z) :=
  let max_var := Z.of_nat (get_variable_count cnf) in
  matrix ← build_rows max_var (clauses cnf) [];
  Done (matrix, length (clauses cnf), 2 * max_var).

(** [if key not in implications: implications[key] = []] *)
Definition ensure_key (key : Z) (implications : gmap Z (list Z))
    : gmap Z (list Z) :=
  match implications !! key with
  | None => <[key := []]> implications
  | Some _ => implications
  end.

(** The body of the loop of [to_implication_graph]: a clause of exactly
    two literals adds [-lit1 -> lit2] and [-lit2 -> lit1]. *)
Definition add_implications (implications : gmap Z (list Z)) (c : clause)
    : gmap Z (list Z) :=
  match c with
  | [lit1; lit2] =>
      let implications := ensure_key (- lit1) implications in
      let implications := ensure_key (- lit2) implications in
      let implications :=
        alter (fun implied => implied ++ [lit2]) (- lit1) implications in
      alter (fun implied => implied ++ [lit1]) (- lit2) implications
  | _ => implications
  end.

Definition to_implication_graph (cnf : CNFInstance) : gmap Z (list Z) :=
  fold_left add_implications (clauses cnf) ∅.

Definition extract_backbone (cnf : CNFInstance) : gset Z :=
  fold_left
    (fun backbone c =>
       match c with
       | [lit] => {[lit]} ∪ backbone
       | _ => backbone
       end)
    (clauses cnf) ∅.

(** The two sets of [get_pure_literals]: the positive literals, and the
    variables of the others. *)
Definition sign_step (acc : gset Z * gset Z) (lit : Z) : gset Z * gset Z :=
  if 0 <? lit then ({[lit]} ∪ acc.1, acc.2)
  else (acc.1, {[Z.abs lit]} ∪ acc.2).

Definition signed_variables (cls : list clause) : gset Z * gset Z :=
  fold_left (fun acc c => fold_left sign_step c acc) cls (∅, ∅).

Definition get_pure_literals (cnf : CNFInstance) : gset Z :=
  let '(positive_vars, negative_vars) := signed_variables (clauses cnf) in
  let pure_positive := positive_vars ∖ negative_vars in
  let pure_negative := negative_vars ∖ positive_vars in
  pure_positive ∪ set_map Z.opp pure_negative.

End CNFTransformer.

(** *** [tests/sat_solver/utils.py] *)

Fixpoint is_clause_satisfied (c : clause) (assignments : gmap Z bool) : bool :=
  match c with
  | [] => false
  | lit :: rest =>
      match assignments !! Z.abs lit with
      | Some v =>
          if ((0 <? lit) && v) || ((lit <? 0) && negb v) then true
          else is_clause_satisfied rest assignments
      | None => is_clause_satisfied rest assignments
      end
  end.

(** *** [example_sat_solver.py] *)

Module SimpleDPLLSolver.

Record statistics := {
  decisions : nat;
  unit_propagations : nat;
  conflicts : nat;
  backtracks : nat
}.

Definition fresh_statistics : statistics :=
  {| decisions := 0; unit_propagations := 0; conflicts := 0; backtracks := 0 |}.

Definition count_decision (st : statistics) : statistics :=
  {| decisions := S (decisions st); unit_propagations := unit_propagations st;
     conflicts := conflicts st; backtracks := backtracks st |}.
Definition count_unit_propagation (st : statistics) : statistics :=
  {| decisions := decisions st; unit_propagations := S (unit_propagations st);
     conflicts := conflicts st; backtracks := backtracks st |}.
Definition count_conflict (st : statistics) : statistics :=
  {| decisions := decisions st; unit_propagations := unit_propagations st;
     conflicts := S (conflicts st); backtracks := backtracks st |}.
Definition count_backtrack (st : statistics) : statistics :=
  {| decisions := decisions st; unit_propagations := unit_propagations st;
     conflicts := conflicts st; backtracks := S (backtracks st) |}.

(** [_is_satisfied]: the value is first bound to a local, then tested. *)
Fixpoint _is_satisfied (c : clause) (a : gmap Z bool) : bool :=
  match c with
  | [] => false
  | lit :: rest =>
      let var := Z.abs lit in
      if bool_decide (var ∈ dom a) then
        let value := default false (a !! var) in
        if literal_holds lit value then true else _is_satisfied rest a
      else _is_satisfied rest a
  end.

Definition unassigned_literals (c : clause) (a : gmap Z bool) : list Z :=
  filter (fun lit => a !! Z.abs lit = None) c.

Fixpoint _find_unit_clause (cls : list clause) (a : gmap Z bool)
    : option (list Z) :=
  match cls with
  | [] => None
  | c :: rest =>
      if _is_satisfied c a then _find_unit_clause rest a
      else
        let unassigned := unassigned_literals c a in
        if (length unassigned =? 1)%nat then Some unassigned
        else _find_unit_clause rest a
  end.

(** The scan of one clause in [_has_conflict]: the pair
    [(all_false, has_unassigned)] when the inner loop ends or breaks. *)
Fixpoint scan_clause (c : clause) (a : gmap Z bool) : bool * bool :=
  match c with
  | [] => (true, false)
  | lit :: rest =>
      match a !! Z.abs lit with
      | None => (false, true)
      | Some value =>
          if literal_holds lit value then (false, false)
          else scan_clause rest a
      end
  end.

Fixpoint _has_conflict (cls : list clause) (a : gmap Z bool) : bool :=
  match cls with
  | [] => false
  | c :: rest =>
      let '(all_false, has_unassigned) := scan_clause c a in
      if all_false && negb has_unassigned then true
      else _has_conflict rest a
  end.

Fixpoint _all_satisfied (cls : list clause) (a : gmap Z bool) : bool :=
  match cls with
  | [] => true
  | c :: rest =>
      if negb (_is_satisfied c a) then false else _all_satisfied rest a
  end.

(** The two sets [_find_pure_literal] collects: unassigned variables of
    the clauses not yet satisfied, by the sign of their occurrences. *)
Definition polarity_step (a : gmap Z bool) (acc : gset Z * gset Z) (lit : Z)
    : gset Z * gset Z :=
  let var := Z.abs lit in
  match a !! var with
  | Some _ => acc
  | None =>
      if 0 <? lit then ({[var]} ∪ acc.1, acc.2)
      else (acc.1, {[var]} ∪ acc.2)
  end.

Definition polarities (cls : list clause) (a : gmap Z bool)
    : gset Z * gset Z :=
  fold_left
    (fun acc c => if _is_satisfied c a then acc
                  else fold_left (polarity_step a) c acc)
    cls (∅, ∅).

(** The counting dictionary of [_choose_variable], in insertion order:
    raising the count of a key leaves it where it is, a new key goes last. *)
Fixpoint count_up (var : Z) (var_count : list (Z * nat)) : list (Z * nat) :=
  match var_count with
  | [] => [(var, 1%nat)]
  | (k, n) :: rest =>
      if decide (k = var) then (k, S n) :: rest
      else (k, n) :: count_up var rest
  end.

Definition count_step (a : gmap Z bool) (var_count : list (Z * nat)) (lit : Z)
    : list (Z * nat) :=
  let var := Z.abs lit in
  match a !! var with
  | Some _ => var_count
  | None => count_up var var_count
  end.

Definition variable_counts (cls : list clause) (a : gmap Z bool)
    : list (Z * nat) :=
  fold_left
    (fun acc c => if _is_satisfied c a then acc
                  else fold_left (count_step a) c acc)
    cls [].

(** [max(items, key=...)]: the first item among those of largest key. *)
Fixpoint max_by_count (best : Z * nat) (items : list (Z * nat)) : Z * nat :=
  match items with
  | [] => best
  | x :: rest =>
      if (best.2 <? x.2)%nat then max_by_count x rest
      else max_by_count best rest
  end.

Definition _choose_variable (cls : list clause) (a : gmap Z bool) : option Z :=
  match variable_counts cls a with
  | [] => None
  | x :: rest => Some (max_by_count x rest).1
  end.

(** How the [while True] loop of [_dpll] is left. *)
Inductive loop_exit := Break | ReturnFalse.

Fixpoint unit_propagation (iters : nat) (cls : list clause) (a : gmap Z bool)
    (st : statistics) : res (loop_exit * gmap Z bool * statistics) :=
  match iters with
  | O => OutOfFuel
  | S iters' =>
      match _find_unit_clause cls a with
      | None => Done (Break, a, st)
      | Some [] => Raise IndexError
      | Some (lit :: _) =>
          let var := Z.abs lit in
          let value := 0 <? lit in
          match a !! var with
          | Some v =>
              if negb (eqb v value)
              then Done (ReturnFalse, a, count_conflict st)
              else unit_propagation iters' cls (<[var := value]> a)
                     (count_unit_propagation st)
          | None =>
              unit_propagation iters' cls (<[var := value]> a)
                (count_unit_propagation st)
          end
      end
  end.

Section search.

(** [next(iter(s))] on a non-empty set.  Which element a Python set
    yields first is left to the interpreter, so it is a parameter here. *)
Variable set_next : gset Z -> Z.

Definition _find_pure_literal (cls : list clause) (a : gmap Z bool)
    : option Z :=
  let '(positive_vars, negative_vars) := polarities cls a in
  let pure_positive := positive_vars ∖ negative_vars in
  let pure_negative := negative_vars ∖ positive_vars in
  if decide (pure_positive = ∅) then
    if decide (pure_negative = ∅) then None
    else Some (- set_next pure_negative)
  else Some (set_next pure_positive).

(** [_dpll] works on the dictionary it is given: the third component is
    that dictionary when the call returns.  A branch recurses on
    [assignment.copy()], so what the callee does to its copy is not seen
    by the caller. *)
Fixpoint _dpll (depth iters : nat) (cls : list clause) (a : gmap Z bool)
    (st : statistics) : res (bool * gmap Z bool * statistics) :=
  match depth with
  | O => OutOfFuel
  | S depth' =>
      '(how, a, st) ← unit_propagation iters cls a st;
      match how with
      | ReturnFalse => Done (false, a, st)
      | Break =>
          if _has_conflict cls a then Done (false, a, count_conflict st)
          else if _all_satisfied cls a then Done (true, a, st)
          else
            match _find_pure_literal cls a with
            | Some pure_literal =>
                let var := Z.abs pure_literal in
                let value := 0 <? pure_literal in
                _dpll depth' iters cls (<[var := value]> a) st
            | None =>
                match _choose_variable cls a with
                | None => Done (true, a, st)
                | Some var =>
                    let st := count_decision st in
                    let a := <[var := true]> a in
                    '(found, _, st) ← _dpll depth' iters cls a st;
                    if found : bool then Done (true, a, st)
                    else
                      let st := count_backtrack st in
                      let a := <[var := false]> a in
                      '(found, _, st) ← _dpll depth' iters cls a st;
                      if found : bool then Done (true, a, st)
                      else
                        match a !! var with
                        | Some _ => Done (false, delete var a, st)
                        | None => Raise KeyError
                        end
                end
            end
      end
  end.

Definition solve (depth iters : nat) (cnf : CNFInstance)
    : res (bool * option (gmap Z bool) * statistics) :=
  '(result, a, st) ← _dpll depth iters (clauses cnf) ∅ fresh_statistics;
  Done (result, if result : bool then Some a else None, st).

End search.

End SimpleDPLLSolver.

(** *** [tests/sat_solver]: what both clause-targeted searches share *)

Inductive verdict := SATISFIABLE | UNSATISFIABLE.

(** The indices of [current_unsatisfied] whose clause the assignment still
    leaves unsatisfied (the list comprehension of
    [_get_unsatisfied_clause_indices], and the loop of the backward search). *)
Fixpoint _get_unsatisfied_clause_indices (cls : list clause)
    (assignments : gmap Z bool) (current_unsatisfied : list nat)
    : res (list nat) :=
  match current_unsatisfied with
  | [] => Done []
  | i :: rest =>
      c ← list_getitem cls i;
      kept ← _get_unsatisfied_clause_indices cls assignments rest;
      Done (if negb (is_clause_satisfied c assignments) then i :: kept
            else kept)
  end.

(** *** [tests/sat_solver/backward_3sat_solver.py] *)

Module Backward.

(** [execution_stats] without the pass-through name and the wall-clock
    time. *)
Record stats := {
  stat_num_variables : Z;
  stat_num_clauses : nat;
  recursive_calls : nat;
  backtracks : nat;
  branch_choices_count : nat;
  defaulted_variables : list Z;
  status : option verdict;
  solution : option (gmap Z bool)
}.

Definition fresh_stats (n : Z) (cls : list clause) : stats :=
  {| stat_num_variables := n; stat_num_clauses := length cls;
     recursive_calls := 0; backtracks := 0; branch_choices_count := 0;
     defaulted_variables := []; status := None; solution := None |}.

Definition count_call (st : stats) : stats :=
  {| stat_num_variables := stat_num_variables st;
     stat_num_clauses := stat_num_clauses st;
     recursive_calls := S (recursive_calls st); backtracks := backtracks st;
     branch_choices_count := branch_choices_count st;
     defaulted_variables := defaulted_variables st;
     status := status st; solution := solution st |}.
Definition count_backtrack (st : stats) : stats :=
  {| stat_num_variables := stat_num_variables st;
     stat_num_clauses := stat_num_clauses st;
     recursive_calls := recursive_calls st; backtracks := S (backtracks st);
     branch_choices_count := branch_choices_count st;
     defaulted_variables := defaulted_variables st;
     status := status st; solution := solution st |}.
Definition count_branch_choice (st : stats) : stats :=
  {| stat_num_variables := stat_num_variables st;
     stat_num_clauses := stat_num_clauses st;
     recursive_calls := recursive_calls st; backtracks := backtracks st;
     branch_choices_count := S (branch_choices_count st);
     defaulted_variables := defaulted_variables st;
     status := status st; solution := solution st |}.
Definition conclude (st : stats) (defaulted : list Z) (v : verdict)
    (sol : option (gmap Z bool)) : stats :=
  {| stat_num_variables := stat_num_variables st;
     stat_num_clauses := stat_num_clauses st;
     recursive_calls := recursive_calls st; backtracks := backtracks st;
     branch_choices_count := branch_choices_count st;
     defaulted_variables := defaulted;
     status := Some v; solution := sol |}.

(** The two [continue] branches of the consistency check. *)
Inductive skip := SkipConflicting | SkipConsistent.

Definition consistency_check (current_assignments : gmap Z bool)
    (variable_to_assign : Z) (value_to_assign : bool) : option skip :=
  match current_assignments !! variable_to_assign with
  | None => None
  | Some v =>
      if negb (eqb v value_to_assign) then Some SkipConflicting
      else Some SkipConsistent
  end.

Section literal_loop.

(** The recursive call, one level down. *)
Variable recur :
  gmap Z bool -> list clause -> list nat -> stats ->
  res (option (gmap Z bool) * stats).

(** The [for literal in target_clause] loop. *)
Fixpoint try_literals (lits : list Z) (current_assignments : gmap Z bool)
    (original_clauses : list clause) (unsatisfied_clause_indices : list nat)
    (st : stats) : res (option (gmap Z bool) * stats) :=
  match lits with
  | [] => Done (None, count_backtrack st)
  | lit :: rest =>
      let variable_to_assign := Z.abs lit in
      let value_to_assign := 0 <? lit in
      match consistency_check current_assignments variable_to_assign
              value_to_assign with
      | Some _ =>
          try_literals rest current_assignments original_clauses
            unsatisfied_clause_indices st
      | None =>
          let new_assignments :=
            <[variable_to_assign := value_to_assign]> current_assignments in
          new_unsatisfied_indices ←
            _get_unsatisfied_clause_indices original_clauses new_assignments
              unsatisfied_clause_indices;
          '(result, st) ←
            recur new_assignments original_clauses new_unsatisfied_indices st;
          match result with
          | Some r => Done (Some r, count_branch_choice st)
          | None =>
              try_literals rest current_assignments original_clauses
                unsatisfied_clause_indices st
          end
      end
  end.

End literal_loop.

Fixpoint _find_solution_recursive (depth : nat)
    (current_assignments : gmap Z bool) (original_clauses : list clause)
    (unsatisfied_clause_indices : list nat) (st : stats)
    : res (option (gmap Z bool) * stats) :=
  match depth with
  | O => OutOfFuel
  | S depth' =>
      let st := count_call st in
      match unsatisfied_clause_indices with
      | [] => Done (Some current_assignments, st)
      | target_clause_index :: _ =>
          target_clause ← list_getitem original_clauses target_clause_index;
          try_literals (_find_solution_recursive depth') target_clause
            current_assignments original_clauses unsatisfied_clause_indices st
      end
  end.

(** The completion loop over [range(1, num_variables + 1)]: the completed
    dictionary and the variables that took the default. *)
Fixpoint complete (vars : list Z) (sol : gmap Z bool)
    (complete_solution : gmap Z bool) (defaulted : list Z)
    : gmap Z bool * list Z :=
  match vars with
  | [] => (complete_solution, defaulted)
  | var :: rest =>
      match sol !! var with
      | Some v => complete rest sol (<[var := v]> complete_solution) defaulted
      | None =>
          complete rest sol (<[var := false]> complete_solution)
            (defaulted ++ [var])
      end
  end.

Definition solve_3sat_backward (depth : nat) (n : Z) (cls : list clause)
    : res (option (gmap Z bool) * stats) :=
  let execution_stats := fresh_stats n cls in
  let unsatisfied_clause_indices := seq 0 (length cls) in
  '(sol, execution_stats) ←
    _find_solution_recursive depth ∅ cls unsatisfied_clause_indices
      execution_stats;
  match sol with
  | Some sol =>
      let '(complete_solution, defaulted) :=
        complete (seqZ 1 n) sol ∅ (defaulted_variables execution_stats) in
      Done (Some complete_solution,
            conclude execution_stats defaulted SATISFIABLE
              (Some complete_solution))
  | None =>
      Done (None,
            conclude execution_stats (defaulted_variables execution_stats)
              UNSATISFIABLE None)
  end.

End Backward.

(** *** [tests/sat_solver/goal_oriented_sat_solver.py] *)

Module GoalOriented.

Record stats := {
  recursive_calls : nat;
  backtracks_on_branch : nat;
  heuristic_choices_count : nat;
  branch_choices_count : nat;
  defaulted_variables : list Z
}.

Definition fresh_stats : stats :=
  {| recursive_calls := 0; backtracks_on_branch := 0;
     heuristic_choices_count := 0; branch_choices_count := 0;
     defaulted_variables := [] |}.

Definition count_call (st : stats) : stats :=
  {| recursive_calls := S (recursive_calls st);
     backtracks_on_branch := backtracks_on_branch st;
     heuristic_choices_count := heuristic_choices_count st;
     branch_choices_count := branch_choices_count st;
     defaulted_variables := defaulted_variables st |}.
Definition count_backtrack (st : stats) : stats :=
  {| recursive_calls := recursive_calls st;
     backtracks_on_branch := S (backtracks_on_branch st);
     heuristic_choices_count := heuristic_choices_count st;
     branch_choices_count := branch_choices_count st;
     defaulted_variables := defaulted_variables st |}.
Definition count_heuristic_choice (st : stats) : stats :=
  {| recursive_calls := recursive_calls st;
     backtracks_on_branch := backtracks_on_branch st;
     heuristic_choices_count := S (heuristic_choices_count st);
     branch_choices_count := branch_choices_count st;
     defaulted_variables := defaulted_variables st |}.
Definition count_branch_choice (st : stats) : stats :=
  {| recursive_calls := recursive_calls st;
     backtracks_on_branch := backtracks_on_branch st;
     heuristic_choices_count := heuristic_choices_count st;
     branch_choices_count := S (branch_choices_count st);
     defaulted_variables := defaulted_variables st |}.
Definition record_defaulted (st : stats) (var : Z) : stats :=
  {| recursive_calls := recursive_calls st;
     backtracks_on_branch := backtracks_on_branch st;
     heuristic_choices_count := heuristic_choices_count st;
     branch_choices_count := branch_choices_count st;
     defaulted_variables := defaulted_variables st ++ [var] |}.

(** The labels kept in [assignment_types]. *)
Inductive assignment_type := HeuristicSet | BranchSet | Defaulted.

Fixpoint _is_clause_contradiction (c : clause) (assignments : gmap Z bool)
    : bool :=
  match c with
  | [] => true
  | lit :: rest =>
      match assignments !! Z.abs lit with
      | None => false
      | Some v =>
          if ((0 <? lit) && v) || ((lit <? 0) && negb v) then false
          else _is_clause_contradiction rest assignments
      end
  end.

Fixpoint _check_for_contradiction (cls : list clause)
    (assignments : gmap Z bool) : bool :=
  match cls with
  | [] => false
  | c :: rest =>
      if _is_clause_contradiction c assignments then true
      else _check_for_contradiction rest assignments
  end.

Definition _evaluate_variable_assignment (variable : Z) (value : bool)
    (current_assignments : gmap Z bool) (original_clauses : list clause)
    (unsatisfied_clause_indices : list nat) : res (bool * Z * list nat) :=
  let potential_assignment := <[variable := value]> current_assignments in
  remaining_unsatisfied ←
    _get_unsatisfied_clause_indices original_clauses potential_assignment
      unsatisfied_clause_indices;
  let newly_satisfied_count :=
    Z.of_nat (length unsatisfied_clause_indices)
    - Z.of_nat (length remaining_unsatisfied) in
  let causes_contradiction :=
    _check_for_contradiction original_clauses potential_assignment in
  Done (causes_contradiction, newly_satisfied_count, remaining_unsatisfied).

(** [(None, None)] is [None] here, a forced [(variable, value)] is [Some]. *)
Definition _make_heuristic_decision (variable : Z)
    (true_contradiction false_contradiction : bool)
    (true_satisfied_count false_satisfied_count heuristic_factor : Z)
    : option (Z * bool) :=
  if negb true_contradiction && false_contradiction then Some (variable, true)
  else if negb false_contradiction && true_contradiction
  then Some (variable, false)
  else if negb true_contradiction && negb false_contradiction then
    if false_satisfied_count + heuristic_factor <? true_satisfied_count
    then Some (variable, true)
    else if true_satisfied_count + heuristic_factor <? false_satisfied_count
    then Some (variable, false)
    else None
  else None.

(** What a search call returns: [(None, None)], or the solution with its
    assignment types. *)
Abbreviation found := (option (gmap Z bool * gmap Z assignment_type)).

Section one_level.

(** The recursive call, one level down. *)
Variable recur :
  gmap Z bool -> gmap Z assignment_type -> list clause -> list nat ->
  stats -> Z -> res (found * stats).

Definition _apply_heuristic_for_variable (variable : Z)
    (current_assignments : gmap Z bool)
    (assignment_types : gmap Z assignment_type)
    (original_clauses : list clause) (unsatisfied_clause_indices : list nat)
    (st : stats) (n : Z) (heuristic_factor : Z) : res (found * stats) :=
  match current_assignments !! variable with
  | Some _ => Done (None, st)
  | None =>
      '(true_contradiction, true_satisfied_count, remaining_unsatisfied_true) ←
        _evaluate_variable_assignment variable true current_assignments
          original_clauses unsatisfied_clause_indices;
      '(false_contradiction, false_satisfied_count,
        remaining_unsatisfied_false) ←
        _evaluate_variable_assignment variable false current_assignments
          original_clauses unsatisfied_clause_indices;
      match _make_heuristic_decision variable true_contradiction
              false_contradiction true_satisfied_count false_satisfied_count
              heuristic_factor with
      | Some (variable_to_force, value_to_force) =>
          let st := count_heuristic_choice st in
          let new_assignments :=
            <[variable_to_force := value_to_force]> current_assignments in
          let new_assignment_types :=
            <[variable_to_force := HeuristicSet]> assignment_types in
          let new_unsatisfied_indices :=
            if value_to_force : bool then remaining_unsatisfied_true
            else remaining_unsatisfied_false in
          recur new_assignments new_assignment_types original_clauses
            new_unsatisfied_indices st n
      | None => Done (None, st)
      end
  end.

(** The [for literal in target_clause] loop of
    [_try_branch_on_target_clause]. *)
Fixpoint branch_literals (lits : list Z) (original_clauses : list clause)
    (current_assignments : gmap Z bool)
    (assignment_types : gmap Z assignment_type)
    (unsatisfied_clause_indices : list nat) (st : stats) (n : Z)
    : res (found * stats) :=
  match lits with
  | [] => Done (None, count_backtrack st)
  | lit :: rest =>
      let variable := Z.abs lit in
      match current_assignments !! variable with
      | Some _ =>
          branch_literals rest original_clauses current_assignments
            assignment_types unsatisfied_clause_indices st n
      | None =>
          let new_assignments := <[variable := 0 <? lit]> current_assignments in
          let new_assignment_types := <[variable := BranchSet]> assignment_types in
          new_unsatisfied_indices ←
            _get_unsatisfied_clause_indices original_clauses new_assignments
              unsatisfied_clause_indices;
          if _check_for_contradiction original_clauses new_assignments then
            branch_literals rest original_clauses current_assignments
              assignment_types unsatisfied_clause_indices
              (count_backtrack st) n
          else
            '(result, st) ←
              recur new_assignments new_assignment_types original_clauses
                new_unsatisfied_indices st n;
            match result with
            | Some r => Done (Some r, st)
            | None =>
                branch_literals rest original_clauses current_assignments
                  assignment_types unsatisfied_clause_indices st n
            end
      end
  end.

Definition _try_branch_on_target_clause (target_clause_idx : nat)
    (original_clauses : list clause) (current_assignments : gmap Z bool)
    (assignment_types : gmap Z assignment_type)
    (unsatisfied_clause_indices : list nat) (st : stats) (n : Z)
    : res (found * stats) :=
  target_clause ← list_getitem original_clauses target_clause_idx;
  branch_literals target_clause original_clauses current_assignments
    assignment_types unsatisfied_clause_indices st n.

(** The [for variable in range(1, num_variables + 1)] loop, followed by
    the branching step that is reached when the loop runs to its end. *)
Fixpoint heuristic_scan (vars : list Z) (current_assignments : gmap Z bool)
    (assignment_types : gmap Z assignment_type)
    (original_clauses : list clause) (unsatisfied_clause_indices : list nat)
    (st : stats) (n : Z) (heuristic_factor : Z) : res (found * stats) :=
  match vars with
  | [] =>
      let st := count_branch_choice st in
      match unsatisfied_clause_indices with
      | [] => Done (Some (current_assignments, assignment_types), st)
      | target_clause_idx :: _ =>
          _try_branch_on_target_clause target_clause_idx original_clauses
            current_assignments assignment_types unsatisfied_clause_indices
            st n
      end
  | variable :: rest =>
      '(result, st) ←
        _apply_heuristic_for_variable variable current_assignments
          assignment_types original_clauses unsatisfied_clause_indices st n
          heuristic_factor;
      match result with
      | Some r => Done (Some r, st)
      | None =>
          heuristic_scan rest current_assignments assignment_types
            original_clauses unsatisfied_clause_indices st n heuristic_factor
      end
  end.

End one_level.

Fixpoint _recursive_solve_with_heuristic (depth : nat)
    (current_assignments : gmap Z bool)
    (assignment_types : gmap Z assignment_type)
    (original_clauses : list clause) (unsatisfied_clause_indices : list nat)
    (st : stats) (n : Z) : res (found * stats) :=
  match depth with
  | O => OutOfFuel
  | S depth' =>
      let st := count_call st in
      match unsatisfied_clause_indices with
      | [] => Done (Some (current_assignments, assignment_types), st)
      | _ :: _ =>
          let heuristic_factor := 1 in
          heuristic_scan (_recursive_solve_with_heuristic depth')
            (seqZ 1 n) current_assignments assignment_types original_clauses
            unsatisfied_clause_indices st n heuristic_factor
      end
  end.

(** The completion loop of [solve_3sat_goal_oriented], which writes the
    defaults into the dictionary the search returned. *)
Fixpoint fill_defaults (vars : list Z) (sol : gmap Z bool)
    (assignment_types : gmap Z assignment_type) (st : stats)
    : gmap Z bool * gmap Z assignment_type * stats :=
  match vars with
  | [] => (sol, assignment_types, st)
  | var :: rest =>
      match sol !! var with
      | Some _ => fill_defaults rest sol assignment_types st
      | None =>
          fill_defaults rest (<[var := false]> sol)
            (<[var := Defaulted]> assignment_types) (record_defaulted st var)
      end
  end.

(** What [solve_3sat_goal_oriented] passes to [write_results_to_md]. *)
Record report := {
  report_status : verdict;
  report_stats : stats;
  report_solution : gmap Z bool;
  report_assignment_types : gmap Z assignment_type
}.

(** The function has no [return]: its value is [None] and its only
    effect is the report it writes. *)
Definition solve_3sat_goal_oriented (depth : nat) (n : Z) (cls : list clause)
    : res (unit * report) :=
  let unsatisfied_clause_indices := seq 0 (length cls) in
  '(result, st) ←
    _recursive_solve_with_heuristic depth ∅ ∅ cls unsatisfied_clause_indices
      fresh_stats n;
  match result with
  | Some (sol, assignment_types) =>
      let '(sol, assignment_types, st) :=
        fill_defaults (seqZ 1 n) sol assignment_types st in
      Done (tt, {| report_status := SATISFIABLE; report_stats := st;
                   report_solution := sol;
                   report_assignment_types := assignment_types |})
  | None =>
      Done (tt, {| report_status := UNSATISFIABLE; report_stats := st;
                   report_solution := ∅; report_assignment_types := ∅ |})
  end.

End GoalOriented.

(** *** [tests/sat_solver/fixed_goal_oriented_solver.py] *)

Module Fixed.

(** [for var in range(1, num_variables + 1): solution[var] = True] *)
Definition all_true (n : Z) : gmap Z bool :=
  fold_left (fun solution var => <[var := true]> solution) (seqZ 1 n) ∅.

(** The loop that stops at the first clause the assignment leaves
    unsatisfied. *)
Fixpoint check_all (cls : list clause) (solution : gmap Z bool) : bool :=
  match cls with
  | [] => true
  | c :: rest =>
      if negb (is_clause_satisfied c solution) then false
      else check_all rest solution
  end.

(** The value returned, with the status written to the report. *)
Definition solve_3sat_fixed (n : Z) (cls : list clause)
    : option (gmap Z bool) * verdict :=
  let solution := all_true n in
  let all_satisfied := check_all cls solution in
  let status := if all_satisfied then SATISFIABLE else UNSATISFIABLE in
  (if all_satisfied then Some solution else None, status).

End Fixed.

(** ** The clause-satisfaction oracle *)

(** A literal is made true by an assignment: its variable is assigned, and
    to [true] for a positive literal or to [false] for a negative one. *)
Definition makes_true (a : gmap Z bool) (lit : Z) : Prop :=
  (0 < lit ∧ a !! Z.abs lit = Some true) ∨
  (lit < 0 ∧ a !! Z.abs lit = Some false).

(** ** Example formulas *)

(** The instance built under [if __name__ == "__main__"] of
    [example_sat_solver.py]. *)
Definition example_cnf : CNFInstance :=
  {| filename := "test.cnf"; num_variables := 3; num_clauses := 3;
     clauses := [[1; 2]; [-1; 3]; [-2; -3]];
     comments := ["Simple test case"%string] |}.

(** A single clause naming variable 5 and no other. *)
Definition sparse_cnf : CNFInstance :=
  {| filename := "sparse.cnf"; num_variables := 5; num_clauses := 1;
     clauses := [[5]]; comments := [] |}.

(** ** Vocabulary for the adjacency transform *)

(** [v] shares some clause with a variable other than itself. *)
Definition co_occurs (cls : list clause) (v : Z) : Prop :=
  ∃ c w, c ∈ cls ∧ v ∈ clause_variables c ∧ w ∈ clause_variables c ∧ w ≠ v.

(** [v] is named by some literal of some clause. *)
Definition occurs (cls : list clause) (v : Z) : Prop :=
  ∃ c, c ∈ cls ∧ v ∈ clause_variables c.

(** The neighbours the clauses give to [u]. *)
Definition neighbours (cls : list clause) (u : Z) : gset Z :=
  ⋃ ((fun c => if decide (u ∈ clause_variables c)
               then clause_variables c ∖ {[u]} else ∅) <$> cls).

(** One clause, one literal. *)
Definition unit_cnf : CNFInstance :=
  {| filename := "unit.cnf"; num_variables := 1; num_clauses := 1;
     clauses := [[1]]; comments := [] |}.

(** ** Vocabulary shared by the statements about the searches *)

(** The variables a search can ever assign: those the clauses name and,
    for the heuristic scan, those of [range(1, num_variables + 1)]. *)
Definition variable_domain (n : Z) (cls : list clause) : gset Z :=
  list_to_set (seqZ 1 n) ∪ variables_of cls.

(** The variables of the domain [V] that the assignment leaves open. *)
Definition open_variables (V : gset Z) (a : gmap Z bool) : nat :=
  size (V ∖ dom a).

(** Every index points into the clause list. *)
Definition valid_indices (cls : list clause) (idxs : list nat) : Prop :=
  Forall (fun i => (i < length cls)%nat) idxs.

(** Every index points to a clause the assignment does not satisfy. *)
Definition all_unsatisfied (cls : list clause) (a : gmap Z bool)
    (idxs : list nat) : Prop :=
  ∀ i, i ∈ idxs → ∃ c, cls !! i = Some c ∧ is_clause_satisfied c a = false.

(** The test that keeps an index in the unsatisfied list. *)
Definition still_unsatisfied (cls : list clause) (a : gmap Z bool) (i : nat)
    : bool :=
  match cls !! i with
  | Some c => negb (is_clause_satisfied c a)
  | None => false
  end.

(** Every variable the clauses name lies in [1 .. n]. *)
Definition in_range (n : Z) (cls : list clause) : Prop :=
  ∀ v, v ∈ variables_of cls → 1 ≤ v ≤ n.



(** ** The goal-oriented search: forced choices *)

(** The part of [_apply_heuristic_for_variable] that comes before the
    recursive call: the value forced for [variable], if any, with the
    unsatisfied indices that remain under it. *)
Definition forced_choice (variable : Z) (a : gmap Z bool) (cls : list clause)
    (unsat : list nat) (heuristic_factor : Z) : res (option (bool * list nat)) :=
  match a !! variable with
  | Some _ => Done None
  | None =>
      '(true_contradiction, true_count, remaining_true) ←
        GoalOriented._evaluate_variable_assignment variable true a cls unsat;
      '(false_contradiction, false_count, remaining_false) ←
        GoalOriented._evaluate_variable_assignment variable false a cls unsat;
      match GoalOriented._make_heuristic_decision variable true_contradiction
              false_contradiction true_count false_count heuristic_factor with
      | Some (_, value) =>
          Done (Some (value, if value : bool then remaining_true
                             else remaining_false))
      | None => Done None
      end
  end.

(** A call returns, and what it returns satisfies [Q]. *)
Definition ensures {A} (m : res A) (Q : A → Prop) : Prop :=
  ∃ x, m = Done x ∧ Q x.

(** A solution, when one is returned, assigns variables of [V] only. *)
Definition solution_within (V : gset Z)
    (r : GoalOriented.found * GoalOriented.stats) : Prop :=
  match r.1 with
  | Some (sol, _) => dom sol ⊆ V
  | None => True
  end.

(** ** The DPLL search: the choice of a set element *)

(** What the model asks of [next(iter(s))]: on a non-empty set it yields
    one of its elements. *)
Definition yields_element (set_next : gset Z → Z) : Prop :=
  ∀ s, s ≠ ∅ → set_next s ∈ s.

(** One such choice: the first element in the order of [elements]. *)
Definition first_element (s : gset Z) : Z := default 0 (head (elements s)).

(** An open variable of the clauses: named by some literal, unassigned. *)
Definition open_in (cls : list clause) (a : gmap Z bool) (v : Z) : Prop :=
  0 ≤ v ∧ v ∈ variables_of cls ∧ a !! v = None.

(** ** Further formulas *)

(** [TEST_CASE_ORIGINAL_5_VAR] of [tests/sat_solver/test_cases.py]. *)
Definition original_5_var : list clause :=
  [[1; -2; 3]; [-1; 2; -4]; [2; 3; 5]; [-3; 4; -5]].

(** Setting variable 1 to [true] satisfies four clauses and [false] only
    two, yet the first two clauses cannot both hold once 1 is [true]. *)
Definition misleading_margin : list clause :=
  [[-1; 2]; [-1; -2]; [1; 3]; [1; 4]; [1; 5]; [1; 6]].

(** ** What a caller of the three entry points receives *)

Inductive pyobj :=
| PyNone
| PyBool (b : bool)
| PyAssignment (a : gmap Z bool)
| PyDpllStatistics (st : SimpleDPLLSolver.statistics)
| PyBackwardStats (st : Backward.stats)
| PyTuple (items : list pyobj).

Definition py_optional (o : option (gmap Z bool)) : pyobj :=
  from_option PyAssignment PyNone o.

(** [return result, assignment if result else None, self.statistics] *)
Definition dpll_returned
    (r : bool * option (gmap Z bool) * SimpleDPLLSolver.statistics) : pyobj :=
  PyTuple [PyBool r.1.1; py_optional r.1.2; PyDpllStatistics r.2].

(** [return complete_solution, execution_stats] and
    [return None, execution_stats] *)
Definition backward_returned (r : option (gmap Z bool) * Backward.stats)
    : pyobj :=
  PyTuple [py_optional r.1; PyBackwardStats r.2].

(** [solve_3sat_goal_oriented] ends without a [return]. *)
Definition goal_oriented_returned (r : unit * GoalOriented.report) : pyobj :=
  match r.1 with tt => PyNone end.

(** The shape [(assignment_or_none, statistics)]. *)
Definition is_solve_pair (o : pyobj) : bool :=
  match o with
  | PyTuple [PyNone; PyDpllStatistics _]
  | PyTuple [PyNone; PyBackwardStats _]
  | PyTuple [PyAssignment _; PyDpllStatistics _]
  | PyTuple [PyAssignment _; PyBackwardStats _] => true
  | _ => false
  end.

(** ** The first forced choice of a round *)

(** The first variable, in scan order, for which the heuristic forces a
    value. *)
Fixpoint first_forced_choice (vars : list Z) (a : gmap Z bool)
    (cls : list clause) (unsat : list nat) (heuristic_factor : Z)
    : res (option (Z * bool * list nat)) :=
  match vars with
  | [] => Done None
  | v :: rest =>
      choice ← forced_choice v a cls unsat heuristic_factor;
      match choice with
      | Some (value, remaining) => Done (Some (v, value, remaining))
      | None => first_forced_choice rest a cls unsat heuristic_factor
      end
  end.







(** ** Soundness vocabulary *)

(** Every clause whose index is not listed is satisfied. *)
Definition satisfied_outside (cls : list clause) (a : gmap Z bool)
    (unsat : list nat) : Prop :=
  ∀ i c, cls !! i = Some c → i ∉ unsat → is_clause_satisfied c a = true.

Definition satisfies_all (cls : list clause) (a : gmap Z bool) : Prop :=
  Forall (fun c => is_clause_satisfied c a = true) cls.

(** ** Satisfiability *)

(** Some assignment satisfies every clause. *)
Definition satisfiable (cls : list clause) : Prop :=
  ∃ σ : gmap Z bool, satisfies_all cls σ.

(** Every literal of the clause is assigned, and to the value that makes
    it false. *)
Definition falsified (c : clause) (a : gmap Z bool) : Prop :=
  ∀ lit, lit ∈ c → ∃ v, a !! Z.abs lit = Some v ∧ literal_holds lit v = false.

(** [TEST_CASE_SMALL_UNSAT] of [tests/sat_solver/test_cases.py]. *)
Definition small_unsat : list clause :=
  [[1; 2; 3]; [1; 2; -3]; [1; -2; 3]; [1; -2; -3];
   [-1; 2; 3]; [-1; 2; -3]; [-1; -2; 3]; [-1; -2; -3]].

Definition small_unsat_cnf : CNFInstance :=
  {| filename := "unsat.cnf"; num_variables := 3; num_clauses := 8;
     clauses := small_unsat; comments := [] |}.





(** ** Bookkeeping of the two clause-targeted searches *)

(** How the counters of the backward search move over one call that
    starts from [a] with the statistics [st] and returns [r] with [st']:
    a failed call adds as many backtracks as calls; a successful one adds
    one call more than backtracks and branch choices together, and as many
    branch choices as it adds variables to [a]. *)
Definition call_accounting (a : gmap Z bool) (st st' : Backward.stats)
    (r : option (gmap Z bool)) : Prop :=
  Backward.defaulted_variables st' = Backward.defaulted_variables st ∧
  match r with
  | None =>
      (Backward.recursive_calls st' + Backward.backtracks st
       = Backward.recursive_calls st + Backward.backtracks st')%nat ∧
      Backward.branch_choices_count st' = Backward.branch_choices_count st
  | Some sol =>
      (Backward.recursive_calls st' + Backward.backtracks st
         + Backward.branch_choices_count st
       = Backward.recursive_calls st + Backward.backtracks st'
         + Backward.branch_choices_count st' + 1)%nat ∧
      (size sol + Backward.branch_choices_count st
       = size a + Backward.branch_choices_count st')%nat ∧
      a ⊆ sol
  end.

(** The same for the literal loop, entered after the call was counted. *)
Definition loop_accounting (a : gmap Z bool) (st st' : Backward.stats)
    (r : option (gmap Z bool)) : Prop :=
  Backward.defaulted_variables st' = Backward.defaulted_variables st ∧
  match r with
  | None =>
      (Backward.recursive_calls st' + Backward.backtracks st + 1
       = Backward.recursive_calls st + Backward.backtracks st')%nat ∧
      Backward.branch_choices_count st' = Backward.branch_choices_count st
  | Some sol =>
      (Backward.recursive_calls st' + Backward.backtracks st
         + Backward.branch_choices_count st
       = Backward.recursive_calls st + Backward.backtracks st'
         + Backward.branch_choices_count st')%nat ∧
      (size sol + Backward.branch_choices_count st
       = size a + Backward.branch_choices_count st')%nat ∧
      a ⊆ sol
  end.

(** Every assigned variable carries a label, and none is labelled as a
    default yet. *)
Definition labelled (a : gmap Z bool)
    (types : gmap Z GoalOriented.assignment_type) : Prop :=
  dom types = dom a ∧ ∀ v, types !! v ≠ Some GoalOriented.Defaulted.

(** What a search call leaves behind: the list of defaulted variables is
    as it was, and a solution comes with a label for each of its keys. *)
Definition search_bookkeeping (st : GoalOriented.stats)
    (r : GoalOriented.found * GoalOriented.stats) : Prop :=
  GoalOriented.defaulted_variables r.2 = GoalOriented.defaulted_variables st ∧
  ∀ sol types, r.1 = Some (sol, types) → labelled sol types.

(** ** Vocabulary for the other transforms *)

(** The literal occurs in some clause. *)
Definition occurs_literal (cls : list clause) (l : Z) : Prop :=
  ∃ c, c ∈ cls ∧ l ∈ c.

(** What one clause adds to the implications of the literal [k]. *)
Definition clause_edges (k : Z) (c : clause) : list Z :=
  match c with
  | [lit1; lit2] =>
      (if decide (- lit1 = k) then [lit2] else [])
      ++ (if decide (- lit2 = k) then [lit1] else [])
  | _ => []
  end.

(** The implications of [k], in the order the clauses give them. *)
Definition edges_of (cls : list clause) (k : Z) : list Z :=
  mjoin (clause_edges k <$> cls).

(** ** Vocabulary for the clause-length histogram and the matrix *)

(** The number of clauses with [k] literals. *)
Definition clauses_of_length (cls : list clause) (k : nat) : nat :=
  length (filter (fun c => length c = k) cls).

(** The column the matrix encoding writes for a literal. *)
Definition column (max_var : Z) (lit : Z) : Z :=
  if 0 <? lit then lit - 1 else max_var + Z.abs lit - 1.

(** The literal's column exists in a row of [2 * max_var] columns. *)
Definition fits (max_var : Z) (lit : Z) : Prop :=
  0 ≤ column max_var lit < 2 * max_var.

#[global] Instance fits_dec max_var lit : Decision (fits max_var lit).
Proof. unfold fits. apply _. Defined.

(** A row of the matrix for the clause [c]: [2 * max_var] cells, a 1 in
    the columns of the literals of [c] and a 0 elsewhere. *)
Definition encoded_row (max_var : Z) (c : clause) (row : list Z) : Prop :=
  length row = Z.to_nat (2 * max_var) ∧
  ∀ j, (j < length row)%nat →
       row !! j
       = Some (if decide (Exists (fun lit => Z.to_nat (column max_var lit) = j)
                            c)
               then 1 else 0).



Lemma literal_holds_spec lit v :
  literal_holds lit v = true ↔ (0 < lit ∧ v = true) ∨ (lit < 0 ∧ v = false).
Proof.
  unfold literal_holds.
  destruct v; rewrite ?andb_true_r, ?andb_false_r, ?orb_false_r; simpl;
    rewrite ?Z.ltb_lt; intuition (try discriminate; try lia).
Qed.

Lemma is_clause_satisfied_iff c (a : gmap Z bool) :
  is_clause_satisfied c a = true ↔ ∃ lit, lit ∈ c ∧ makes_true a lit.
Proof.
  induction c as [|lit rest IH]; simpl.
  - split; [discriminate|]. intros (l & Hl & _). by apply elem_of_nil in Hl.
  - destruct (a !! Z.abs lit) as [v|] eqn:Hv.
    + fold (literal_holds lit v).
      destruct (literal_holds lit v) eqn:Hh.
      * split; [intros _|done]. exists lit. split; [left|].
        apply literal_holds_spec in Hh. unfold makes_true. rewrite Hv.
        destruct Hh as [[? ->]|[? ->]]; auto.
      * rewrite IH. split.
        -- intros (l & Hl & Ht). exists l. split; [by right|done].
        -- intros (l & Hl & Ht). apply elem_of_cons in Hl as [->|Hl]; [|eauto].
           exfalso. assert (literal_holds lit v = true); [|congruence].
           apply literal_holds_spec. unfold makes_true in Ht. rewrite Hv in Ht.
           destruct Ht as [[? [= ->]]|[? [= ->]]]; auto.
    + rewrite IH. split.
      * intros (l & Hl & Ht). exists l. split; [by right|done].
      * intros (l & Hl & Ht). apply elem_of_cons in Hl as [->|Hl]; [|eauto].
        unfold makes_true in Ht. rewrite Hv in Ht.
        destruct Ht as [[_ ?]|[_ ?]]; discriminate.
Qed.

(** C2. [is_clause_satisfied] answers [true] exactly when some literal of
    the clause has its variable assigned to the value that makes the
    literal true (positive with [true], negative with [false]); unassigned
    literals are passed over, so a clause all of whose literals are
    unassigned is reported unsatisfied. *)
Theorem oracle_semantics (c : clause) (a : gmap Z bool) :
  (is_clause_satisfied c a = true ↔ ∃ lit, lit ∈ c ∧ makes_true a lit) ∧
  ((∀ lit, lit ∈ c → a !! Z.abs lit = None) → is_clause_satisfied c a = false).
Proof.
  split; [apply is_clause_satisfied_iff|].
  intros Hnone. apply not_true_is_false. rewrite is_clause_satisfied_iff.
  intros (l & Hl & [[_ Ht]|[_ Ht]]); rewrite (Hnone l Hl) in Ht; discriminate.
Qed.

Lemma oracle_semantics_witness :
  is_clause_satisfied [1; -2] (<[3 := true]> ∅) = false.
Proof.
  apply (oracle_semantics [1; -2] (<[3 := true]> ∅)).
  intros lit Hl.
  apply elem_of_cons in Hl as [->|Hl]; [reflexivity|].
  apply elem_of_cons in Hl as [->|Hl]; [reflexivity|].
  by apply elem_of_nil in Hl.
Defined.

(** C9. The predicate shared by the goal-oriented and backward searches
    and the DPLL search's own check agree on every clause and every
    partial assignment. *)
Theorem oracle_agreement (c : clause) (a : gmap Z bool) :
  is_clause_satisfied c a = SimpleDPLLSolver._is_satisfied c a.
Proof.
  induction c as [|lit rest IH]; [reflexivity|].
  simpl. rewrite IH. unfold literal_holds.
  destruct (a !! Z.abs lit) as [v|] eqn:Hv.
  - rewrite bool_decide_eq_true_2 by (apply elem_of_dom; eauto). reflexivity.
  - rewrite bool_decide_eq_false_2; [reflexivity|].
    by rewrite not_elem_of_dom.
Qed.

(** ** The DPLL search on the example formula *)

(** C1. On the formula [[1,2],[-1,3],[-2,-3]] over three variables,
    [SimpleDPLLSolver.solve] answers satisfiable and hands back the
    dictionary [{1: True}]: the values found for variables 3 and 2 were
    written into the copy the branch recursed on.  Under the returned
    dictionary the first clause is satisfied and the other two are not. *)
Theorem dpll_example_returns_partial (set_next : gset Z -> Z) :
  SimpleDPLLSolver.solve set_next 4 4 example_cnf =
    Done (true, Some {[1 := true]},
          {| SimpleDPLLSolver.decisions := 1;
             SimpleDPLLSolver.unit_propagations := 2;
             SimpleDPLLSolver.conflicts := 0;
             SimpleDPLLSolver.backtracks := 0 |}) ∧
  (fun c => is_clause_satisfied c {[1 := true]}) <$> clauses example_cnf
    = [true; false; false].
Proof. split; vm_compute; reflexivity. Qed.

(** ** The matrix encoding *)

(** C5. On the one-clause formula [[5]] the matrix encoding sizes each
    row by the number of distinct variables (one here, so two columns) and
    then writes column 4: the list assignment raises [IndexError].  The
    same happens when the declared count is smaller than the literal. *)
Theorem matrix_encoding_index_error :
  get_variable_count sparse_cnf = 1%nat ∧
  CNFTransformer.to_matrix_representation sparse_cnf = Raise IndexError ∧
  CNFTransformer.to_matrix_representation
    {| filename := "sparse.cnf"; num_variables := 1; num_clauses := 1;
       clauses := [[5]]; comments := [] |} = Raise IndexError.
Proof. repeat split; vm_compute; reflexivity. Qed.

(** ** The adjacency transform *)

Lemma elem_of_variables_of cls v : v ∈ variables_of cls ↔ occurs cls v.
Proof.
  unfold variables_of, occurs. rewrite elem_of_union_list. split.
  - intros (X & HX & Hv). apply list_elem_of_fmap in HX as (c & -> & Hc). eauto.
  - intros (c & Hc & Hv). exists (clause_variables c). split; [|done].
    apply list_elem_of_fmap. eauto.
Qed.

Lemma add_neighbours_inner var (vars : list Z) (adj : gmap Z (gset Z)) s :
  adj !! var = Some s →
  fold_left
    (fun adj other_var =>
       if decide (other_var ≠ var)
       then alter (fun s => {[other_var]} ∪ s) var adj
       else adj) vars adj
  = <[var := s ∪ (list_to_set vars ∖ {[var]})]> adj.
Proof.
  revert adj s. induction vars as [|o vars IH]; intros adj s Hs; simpl.
  - replace (s ∪ ∅ ∖ {[var]}) with s by set_solver. by rewrite insert_id.
  - destruct (decide (o ≠ var)) as [Hne|Heq].
    + erewrite IH; last by (rewrite lookup_alter_eq, Hs).
      apply map_eq. intros k. destruct (decide (k = var)) as [->|Hk].
      * rewrite !lookup_insert_eq. f_equal. set_solver.
      * rewrite !lookup_insert_ne by done. by rewrite lookup_alter_ne.
    + apply dec_stable in Heq as ->. erewrite IH by done.
      f_equal. set_solver.
Qed.

Lemma add_neighbours_lookup vars (adj : gmap Z (gset Z)) var u :
  CNFTransformer.add_neighbours vars adj var !! u =
  if decide (u = var)
  then Some (default ∅ (adj !! var) ∪ (list_to_set vars ∖ {[var]}))
  else adj !! u.
Proof.
  unfold CNFTransformer.add_neighbours.
  destruct (adj !! var) as [s|] eqn:Hs.
  - erewrite add_neighbours_inner by done. simpl.
    destruct (decide (u = var)) as [->|Hu].
    + by rewrite lookup_insert_eq.
    + by rewrite lookup_insert_ne.
  - erewrite add_neighbours_inner by apply lookup_insert_eq. simpl.
    destruct (decide (u = var)) as [->|Hu].
    + by rewrite lookup_insert_eq.
    + by rewrite !lookup_insert_ne.
Qed.

Lemma add_vars_lookup (variables vs : list Z) (adj : gmap Z (gset Z)) u :
  fold_left (CNFTransformer.add_neighbours variables) vs adj !! u =
  if decide (u ∈ vs)
  then Some (default ∅ (adj !! u) ∪ (list_to_set variables ∖ {[u]}))
  else adj !! u.
Proof.
  revert adj. induction vs as [|v vs IH]; intros adj; simpl.
  - destruct (decide (u ∈ [])) as [Hin|]; [by apply elem_of_nil in Hin|done].
  - rewrite IH, add_neighbours_lookup.
    destruct (decide (u = v)) as [->|Hne].
    + rewrite (decide_True (P := v ∈ v :: vs)) by left. simpl.
      destruct (decide (v ∈ vs)); [f_equal; set_solver|done].
    + destruct (decide (u ∈ vs)) as [Hin|Hnin].
      * rewrite decide_True; [done|by right].
      * rewrite decide_False; [done|]. intros [->|?]%elem_of_cons; done.
Qed.

Lemma add_clause_lookup (adj : gmap Z (gset Z)) c u :
  CNFTransformer.add_clause adj c !! u =
  if decide (u ∈ clause_variables c)
  then Some (default ∅ (adj !! u) ∪ (clause_variables c ∖ {[u]}))
  else adj !! u.
Proof.
  unfold CNFTransformer.add_clause. rewrite add_vars_lookup.
  unfold clause_variables.
  destruct (decide (u ∈ Z.abs <$> c)) as [Hin|Hnin].
  - rewrite decide_True; [done|]. by apply elem_of_list_to_set.
  - rewrite decide_False; [done|]. by rewrite elem_of_list_to_set.
Qed.

Lemma variables_of_cons c cls :
  variables_of (c :: cls) = clause_variables c ∪ variables_of cls.
Proof. reflexivity. Qed.

Lemma neighbours_cons c cls u :
  neighbours (c :: cls) u =
  (if decide (u ∈ clause_variables c) then clause_variables c ∖ {[u]} else ∅)
  ∪ neighbours cls u.
Proof. reflexivity. Qed.

Lemma neighbours_absent cls u : u ∉ variables_of cls → neighbours cls u = ∅.
Proof.
  intros Hv. unfold neighbours. apply leibniz_equiv.
  apply empty_union_list. apply Forall_fmap, Forall_forall. intros c Hc. simpl.
  destruct (decide (u ∈ clause_variables c)) as [Hu|]; [|done].
  exfalso. apply Hv, elem_of_variables_of. exists c. done.
Qed.

Lemma fold_add_clause_lookup cls (adj : gmap Z (gset Z)) u :
  fold_left CNFTransformer.add_clause cls adj !! u =
  if decide (u ∈ variables_of cls)
  then Some (default ∅ (adj !! u) ∪ neighbours cls u)
  else adj !! u.
Proof.
  revert adj. induction cls as [|c cls IH]; intros adj; simpl.
  - destruct (decide (u ∈ variables_of [])) as [Hin|]; [|done].
    unfold variables_of in Hin. simpl in Hin. set_solver.
  - rewrite IH, add_clause_lookup, variables_of_cons, neighbours_cons.
    destruct (decide (u ∈ clause_variables c)) as [Hc|Hc];
      destruct (decide (u ∈ variables_of cls)) as [Hv|Hv]; simpl.
    + rewrite decide_True by set_solver. f_equal. set_solver.
    + rewrite decide_True by set_solver. f_equal.
      rewrite (neighbours_absent cls u Hv). set_solver.
    + rewrite decide_True by set_solver. f_equal. set_solver.
    + rewrite decide_False by set_solver. done.
Qed.

Lemma elem_of_neighbours cls u w :
  w ∈ neighbours cls u ↔
  w ≠ u ∧ ∃ c, c ∈ cls ∧ u ∈ clause_variables c ∧ w ∈ clause_variables c.
Proof.
  unfold neighbours. rewrite elem_of_union_list. split.
  - intros (X & HX & Hw). apply list_elem_of_fmap in HX as (c & -> & Hc).
    destruct (decide (u ∈ clause_variables c)); [|set_solver].
    split; [set_solver|]. exists c. set_solver.
  - intros (Hne & c & Hc & Hu & Hw).
    exists (clause_variables c ∖ {[u]}). split; [|set_solver].
    apply list_elem_of_fmap. exists c. split; [|done].
    by rewrite decide_True.
Qed.

Lemma unit_cnf_no_co_occurrence : ¬ co_occurs (clauses unit_cnf) 1.
Proof.
  intros (c & w & Hc & Hv & Hw & Hne). simpl in Hc.
  apply list_elem_of_singleton in Hc as ->.
  unfold clause_variables in Hw. simpl in Hw. set_solver.
Qed.

(** Counterexample to C6 as stated: on the one-clause formula [[1]],
    variable 1 shares no clause with another variable and is a key all the
    same, with the empty neighbour set. *)
Lemma adjacency_domain_counterexample :
  CNFTransformer.to_adjacency_list unit_cnf !! 1 = Some ∅ ∧
  1 ∈ dom (CNFTransformer.to_adjacency_list unit_cnf) ∧
  ¬ co_occurs (clauses unit_cnf) 1.
Proof.
  split; [by vm_compute|]. split.
  - apply elem_of_dom. exists ∅. by vm_compute.
  - apply unit_cnf_no_co_occurrence.
Qed.

(** C6, amended. A variable is a key of the adjacency mapping exactly when
    it occurs in some clause, of any size; its neighbours are the other
    variables of the clauses it occurs in; so a variable that shares no
    clause with another variable is present with the empty neighbour set. *)
Theorem adjacency_domain (cnf : CNFInstance) (v : Z) :
  (v ∈ dom (CNFTransformer.to_adjacency_list cnf) ↔ occurs (clauses cnf) v) ∧
  (∀ s, CNFTransformer.to_adjacency_list cnf !! v = Some s →
        ∀ w, w ∈ s ↔
             w ≠ v ∧ ∃ c, c ∈ clauses cnf ∧ v ∈ clause_variables c ∧
                          w ∈ clause_variables c) ∧
  (occurs (clauses cnf) v → ¬ co_occurs (clauses cnf) v →
   CNFTransformer.to_adjacency_list cnf !! v = Some ∅).
Proof.
  unfold CNFTransformer.to_adjacency_list.
  pose proof (fold_add_clause_lookup (clauses cnf) ∅ v) as Hl.
  rewrite lookup_empty in Hl. simpl in Hl.
  split; [|split].
  - rewrite elem_of_dom, Hl, <- elem_of_variables_of.
    destruct (decide (v ∈ variables_of (clauses cnf))) as [Hd|Hd];
      [split; eauto | split; [by intros [? ?] | done]].
  - intros s Hs w. rewrite Hl in Hs.
    destruct (decide (v ∈ variables_of (clauses cnf))); [|done].
    injection Hs as <-. rewrite <- elem_of_neighbours. set_solver.
  - intros Hocc Hno. rewrite Hl, decide_True by by apply elem_of_variables_of.
    f_equal. apply leibniz_equiv, set_equiv. intros w. split; [|set_solver].
    rewrite elem_of_union, elem_of_neighbours.
    intros [?|(Hne & c & Hc & Hv & Hw)]; [set_solver|].
    exfalso. apply Hno. exists c, w. done.
Qed.

Lemma adjacency_domain_witness :
  CNFTransformer.to_adjacency_list unit_cnf !! 1 = Some ∅.
Proof.
  apply (adjacency_domain unit_cnf 1).
  - exists [1]. split; [by left|]. unfold clause_variables. simpl. set_solver.
  - apply unit_cnf_no_co_occurrence.
Defined.

(** ** Facts shared by the statements about the searches *)

Lemma returns_done {A} (x : A) : returns (Done x).
Proof. by exists x. Qed.

Lemma returns_bind {A B} (m : res A) (k : A → res B) :
  returns m → (∀ x, m = Done x → returns (k x)) → returns (m ≫= k).
Proof. intros [x ->] Hk. by apply Hk. Qed.

Lemma list_getitem_Done {A} (l : list A) i x :
  list_getitem l i = Done x ↔ l !! i = Some x.
Proof.
  unfold list_getitem. destruct (l !! i); split; intros; simplify_eq; done.
Qed.

Lemma list_getitem_valid {A} (l : list A) i :
  (i < length l)%nat → ∃ x, list_getitem l i = Done x ∧ l !! i = Some x.
Proof.
  intros Hi. destruct (lookup_lt_is_Some_2 l i Hi) as [x Hx].
  exists x. split; [by apply list_getitem_Done|done].
Qed.

Lemma elem_of_clause_variables c lit : lit ∈ c → Z.abs lit ∈ clause_variables c.
Proof.
  intros Hl. unfold clause_variables. apply elem_of_list_to_set.
  apply list_elem_of_fmap. eauto.
Qed.

Lemma elem_of_variables_of_lit cls c lit :
  c ∈ cls → lit ∈ c → Z.abs lit ∈ variables_of cls.
Proof.
  intros Hc Hl. unfold variables_of. apply elem_of_union_list.
  exists (clause_variables c). split.
  - apply list_elem_of_fmap. eauto.
  - by apply elem_of_clause_variables.
Qed.

Lemma variables_of_in_domain n cls : variables_of cls ⊆ variable_domain n cls.
Proof. unfold variable_domain. set_solver. Qed.

Lemma range_in_domain n cls v : v ∈ seqZ 1 n → v ∈ variable_domain n cls.
Proof. unfold variable_domain. set_solver. Qed.

(** Assigning an open variable of the domain leaves strictly fewer open. *)
Lemma open_variables_insert (V : gset Z) (a : gmap Z bool) v b :
  v ∈ V → a !! v = None →
  (open_variables V (<[v := b]> a) < open_variables V a)%nat.
Proof.
  intros HV Ha. unfold open_variables. apply subset_size.
  rewrite dom_insert_L. apply not_elem_of_dom in Ha. set_solver.
Qed.

Lemma open_variables_mono (V : gset Z) (a a' : gmap Z bool) :
  dom a ⊆ dom a' → (open_variables V a' ≤ open_variables V a)%nat.
Proof. intros Hd. unfold open_variables. apply subseteq_size. set_solver. Qed.

Lemma open_variables_subseteq (V V' : gset Z) (a : gmap Z bool) :
  V ⊆ V' → (open_variables V a ≤ open_variables V' a)%nat.
Proof. intros Hd. unfold open_variables. apply subseteq_size. set_solver. Qed.

Lemma open_variables_empty (V : gset Z) : open_variables V ∅ = size V.
Proof. unfold open_variables. rewrite dom_empty_L. f_equal. set_solver. Qed.

Lemma valid_indices_seq (cls : list clause) :
  valid_indices cls (seq 0 (length cls)).
Proof.
  apply Forall_forall. intros i Hi. apply elem_of_seq in Hi. lia.
Qed.

(** What the filter over the unsatisfied indices returns. *)
Lemma get_unsatisfied_spec cls (a : gmap Z bool) idxs kept :
  _get_unsatisfied_clause_indices cls a idxs = Done kept →
  kept = filter (fun i => still_unsatisfied cls a i) idxs
  ∧ valid_indices cls idxs.
Proof.
  revert kept. induction idxs as [|i idxs IH]; intros kept; simpl.
  - intros [= <-]. split; [done|constructor].
  - unfold list_getitem. destruct (cls !! i) as [c|] eqn:Hc; simpl; [|done].
    destruct (_get_unsatisfied_clause_indices cls a idxs) as [k| |]; simpl;
      [|done|done].
    intros [= <-]. destruct (IH k eq_refl) as [-> Hv]. split.
    + destruct (is_clause_satisfied c a) eqn:Hs; simpl.
      * rewrite filter_cons_False; [done|].
        unfold still_unsatisfied. rewrite Hc, Hs. simpl. tauto.
      * rewrite filter_cons_True; [done|].
        unfold still_unsatisfied. rewrite Hc, Hs. simpl. tauto.
    + constructor; [|done]. by apply lookup_lt_Some in Hc.
Qed.

Lemma get_unsatisfied_returns cls (a : gmap Z bool) idxs :
  valid_indices cls idxs →
  returns (_get_unsatisfied_clause_indices cls a idxs).
Proof.
  induction 1 as [|i idxs Hi _ IH]; simpl; [apply returns_done|].
  destruct (list_getitem_valid cls i Hi) as (c & -> & _). simpl.
  destruct IH as [k ->]. simpl. apply returns_done.
Qed.

Lemma get_unsatisfied_elem cls (a : gmap Z bool) idxs kept i :
  _get_unsatisfied_clause_indices cls a idxs = Done kept →
  i ∈ kept ↔
  i ∈ idxs ∧ ∃ c, cls !! i = Some c ∧ is_clause_satisfied c a = false.
Proof.
  intros [-> _]%get_unsatisfied_spec. rewrite list_elem_of_filter.
  unfold still_unsatisfied. destruct (cls !! i) as [c|]; simpl.
  - destruct (is_clause_satisfied c a) eqn:Hs; simpl.
    + split; [tauto|]. intros (_ & c' & [= <-] & ?). congruence.
    + split; [intros [_ ?]; eauto|tauto].
  - split; [tauto|]. intros (_ & c & ? & _). done.
Qed.

Lemma get_unsatisfied_valid cls (a : gmap Z bool) idxs kept :
  _get_unsatisfied_clause_indices cls a idxs = Done kept →
  valid_indices cls kept.
Proof.
  intros Hk. apply Forall_forall. intros i Hi.
  apply (get_unsatisfied_elem _ _ _ _ _ Hk) in Hi as (_ & c & Hc & _).
  by apply lookup_lt_Some in Hc.
Qed.

Lemma get_unsatisfied_all_unsatisfied cls (a : gmap Z bool) idxs kept :
  _get_unsatisfied_clause_indices cls a idxs = Done kept →
  all_unsatisfied cls a kept.
Proof.
  intros Hk i Hi. by apply (get_unsatisfied_elem _ _ _ _ _ Hk) in Hi as (_ & ?).
Qed.

Lemma is_clause_satisfied_empty c : is_clause_satisfied c ∅ = false.
Proof. induction c as [|lit c IH]; simpl; [done|]. by rewrite lookup_empty. Qed.

Lemma all_unsatisfied_entry cls : all_unsatisfied cls ∅ (seq 0 (length cls)).
Proof.
  intros i Hi. apply elem_of_seq in Hi.
  destruct (lookup_lt_is_Some_2 cls i) as [c Hc]; [lia|].
  exists c. split; [done|apply is_clause_satisfied_empty].
Qed.

(** ** The backward search *)

Lemma consistency_check_None (a : gmap Z bool) v b :
  Backward.consistency_check a v b = None ↔ a !! v = None.
Proof.
  unfold Backward.consistency_check. destruct (a !! v) as [x|]; [|done].
  destruct (negb (eqb x b)); done.
Qed.


(** *** Termination *)

Lemma try_literals_returns recur lits (a : gmap Z bool) cls unsat st :
  valid_indices cls unsat →
  (∀ lit new_unsat st',
     lit ∈ lits → a !! Z.abs lit = None → valid_indices cls new_unsat →
     returns (recur (<[Z.abs lit := 0 <? lit]> a) cls new_unsat st')) →
  returns (Backward.try_literals recur lits a cls unsat st).
Proof.
  intros Hv. revert st. induction lits as [|lit lits IH]; intros st Hrec; simpl.
  - apply returns_done.
  - assert (∀ st, returns (Backward.try_literals recur lits a cls unsat st))
      as IH'.
    { intros st0. apply IH. intros l nu st' Hl. apply Hrec. by right. }
    destruct (Backward.consistency_check a (Z.abs lit) (0 <? lit)) eqn:Hcc;
      [apply IH'|].
    apply consistency_check_None in Hcc.
    apply returns_bind; [by apply get_unsatisfied_returns|].
    intros nu Hnu. apply returns_bind.
    + apply Hrec; [by left|done|by eapply get_unsatisfied_valid].
    + intros [[r|] st'] _; [apply returns_done|apply IH'].
Qed.

Lemma find_solution_recursive_returns depth cls (a : gmap Z bool) unsat st :
  valid_indices cls unsat →
  (open_variables (variables_of cls) a < depth)%nat →
  returns (Backward._find_solution_recursive depth a cls unsat st).
Proof.
  revert a unsat st. induction depth as [|depth IH]; intros a unsat st Hv Hd;
    [lia|].
  simpl. destruct unsat as [|t rest]; [apply returns_done|].
  pose proof (Forall_inv Hv) as Ht. simpl in Ht.
  destruct (list_getitem_valid cls t Ht) as (target & -> & Htarget). simpl.
  apply try_literals_returns; [done|].
  intros lit nu st' Hl Ha Hnu. apply IH; [done|].
  assert (Z.abs lit ∈ variables_of cls) as HV.
  { eapply elem_of_variables_of_lit; [|done]. by eapply list_elem_of_lookup_2. }
  pose proof (open_variables_insert _ a _ (0 <? lit) HV Ha). lia.
Qed.

Lemma solve_3sat_backward_returns depth n cls :
  (size (variables_of cls) < depth)%nat →
  returns (Backward.solve_3sat_backward depth n cls).
Proof.
  intros Hd. unfold Backward.solve_3sat_backward.
  apply returns_bind.
  - apply find_solution_recursive_returns; [apply valid_indices_seq|].
    by rewrite open_variables_empty.
  - intros [[sol|] st] _; [|apply returns_done].
    destruct (Backward.complete _ _ _ _). apply returns_done.
Qed.

(** *** The unsatisfied-index invariant *)


(** *** The completed assignment *)

Lemma complete_dom vars (sol acc : gmap Z bool) d cs d' :
  Backward.complete vars sol acc d = (cs, d') →
  dom cs = dom acc ∪ list_to_set vars.
Proof.
  revert acc d. induction vars as [|v vars IH]; intros acc d; simpl.
  - intros [= <- _]. set_solver.
  - destruct (sol !! v) as [b|]; intros Hc; apply IH in Hc; rewrite Hc;
      rewrite dom_insert_L; set_solver.
Qed.

(** ** The goal-oriented search *)

Lemma ensures_done {A} (x : A) (Q : A → Prop) : Q x → ensures (Done x) Q.
Proof. intros Hx. by exists x. Qed.

Lemma ensures_bind {A B} (m : res A) (k : A → res B) (Q : B → Prop) :
  ensures m (fun x => ensures (k x) Q) → ensures (m ≫= k) Q.
Proof. intros (x & -> & Hx). exact Hx. Qed.

Lemma ensures_returns {A} (m : res A) (Q : A → Prop) : ensures m Q → returns m.
Proof. intros (x & -> & _). by exists x. Qed.

Lemma returns_ensures {A} (m : res A) (Q : A → Prop) :
  returns m → (∀ x, m = Done x → Q x) → ensures m Q.
Proof. intros [x ->] HQ. exists x. split; [done|by apply HQ]. Qed.

(** *** Forced choices *)

Lemma make_heuristic_decision_variable v tc fc ts fs f v' b :
  GoalOriented._make_heuristic_decision v tc fc ts fs f = Some (v', b) →
  v' = v.
Proof.
  unfold GoalOriented._make_heuristic_decision.
  repeat case_match; congruence.
Qed.

Lemma apply_heuristic_forced_choice recur v (a : gmap Z bool) types cls
    unsat st n f :
  GoalOriented._apply_heuristic_for_variable recur v a types cls unsat st n f
  = choice ← forced_choice v a cls unsat f;
    match choice with
    | Some (value, remaining) =>
        recur (<[v := value]> a) (<[v := GoalOriented.HeuristicSet]> types)
          cls remaining (GoalOriented.count_heuristic_choice st) n
    | None => Done (None, st)
    end.
Proof.
  unfold GoalOriented._apply_heuristic_for_variable, forced_choice.
  destruct (a !! v); [done|].
  destruct (GoalOriented._evaluate_variable_assignment v true a cls unsat)
    as [[[tc ts] rt]| |]; simpl; [|done|done].
  destruct (GoalOriented._evaluate_variable_assignment v false a cls unsat)
    as [[[fc fs] rf]| |]; simpl; [|done|done].
  destruct (GoalOriented._make_heuristic_decision v tc fc ts fs f)
    as [[v' b]|] eqn:Hd; simpl; [|done].
  by apply make_heuristic_decision_variable in Hd as ->.
Qed.

Lemma evaluate_returns v b (a : gmap Z bool) cls unsat :
  valid_indices cls unsat →
  ∃ c k rem,
    GoalOriented._evaluate_variable_assignment v b a cls unsat
      = Done (c, k, rem) ∧
    _get_unsatisfied_clause_indices cls (<[v := b]> a) unsat = Done rem.
Proof.
  intros Hv. unfold GoalOriented._evaluate_variable_assignment.
  destruct (get_unsatisfied_returns cls (<[v := b]> a) unsat Hv) as [rem ->].
  simpl. eauto.
Qed.

Lemma forced_choice_returns v (a : gmap Z bool) cls unsat f :
  valid_indices cls unsat → returns (forced_choice v a cls unsat f).
Proof.
  intros Hv. unfold forced_choice. destruct (a !! v); [apply returns_done|].
  destruct (evaluate_returns v true a cls unsat Hv) as (? & ? & ? & -> & _).
  destruct (evaluate_returns v false a cls unsat Hv) as (? & ? & ? & -> & _).
  simpl. destruct (GoalOriented._make_heuristic_decision _ _ _ _ _ _)
    as [[? ?]|]; apply returns_done.
Qed.

Lemma forced_choice_Some v (a : gmap Z bool) cls unsat f value remaining :
  forced_choice v a cls unsat f = Done (Some (value, remaining)) →
  a !! v = None ∧
  _get_unsatisfied_clause_indices cls (<[v := value]> a) unsat = Done remaining.
Proof.
  unfold forced_choice, GoalOriented._evaluate_variable_assignment.
  destruct (a !! v); [done|]. intros Hf. split; [done|]. revert Hf.
  destruct (_get_unsatisfied_clause_indices cls (<[v := true]> a) unsat)
    as [rt| |] eqn:Ht; simpl; [|done|done].
  destruct (_get_unsatisfied_clause_indices cls (<[v := false]> a) unsat)
    as [rf| |] eqn:Hfalse; simpl; [|done|done].
  destruct (GoalOriented._make_heuristic_decision _ _ _ _ _ _)
    as [[? []]|]; intros Hf; by simplify_eq.
Qed.



(** *** Termination, and the variables a solution assigns *)

Lemma branch_literals_ensures recur V n cls (a : gmap Z bool) unsat lits
    types st :
  valid_indices cls unsat →
  (∀ lit types' nu st',
     lit ∈ lits → a !! Z.abs lit = None → valid_indices cls nu →
     ensures (recur (<[Z.abs lit := 0 <? lit]> a) types' cls nu st' n)
       (solution_within V)) →
  ensures (GoalOriented.branch_literals recur lits cls a types unsat st n)
    (solution_within V).
Proof.
  intros Hvalid. revert st.
  induction lits as [|lit lits IH]; intros st Hrec; simpl.
  - by apply ensures_done.
  - assert (∀ st, ensures (GoalOriented.branch_literals recur lits cls a types
                             unsat st n) (solution_within V)) as IH'.
    { intros st0. apply IH. intros l ty nu st' Hl. apply Hrec. by right. }
    destruct (a !! Z.abs lit) eqn:Hl; [apply IH'|].
    destruct (get_unsatisfied_returns cls (<[Z.abs lit := 0 <? lit]> a) unsat
                Hvalid) as [nu Hnu].
    rewrite Hnu. simpl.
    destruct (GoalOriented._check_for_contradiction _ _); [apply IH'|].
    apply ensures_bind.
    destruct (Hrec lit (<[Z.abs lit := GoalOriented.BranchSet]> types) nu st)
      as ([[r|] st'] & -> & HQ);
      [by left|done|by eapply get_unsatisfied_valid| |].
    + eexists. split; [done|]. by apply ensures_done.
    + eexists. split; [done|]. apply IH'.
Qed.

Lemma heuristic_scan_ensures recur V n cls (a : gmap Z bool) unsat vars
    types st f :
  valid_indices cls unsat → dom a ⊆ V →
  (∀ v b types' rem st',
     v ∈ vars → a !! v = None → valid_indices cls rem →
     ensures (recur (<[v := b]> a) types' cls rem st' n) (solution_within V)) →
  (∀ t target lit types' nu st',
     head unsat = Some t → cls !! t = Some target → lit ∈ target →
     a !! Z.abs lit = None → valid_indices cls nu →
     ensures (recur (<[Z.abs lit := 0 <? lit]> a) types' cls nu st' n)
       (solution_within V)) →
  ensures (GoalOriented.heuristic_scan recur vars a types cls unsat st n f)
    (solution_within V).
Proof.
  intros Hvalid Ha Hforced Hbranch. revert st Hforced.
  induction vars as [|v vars IH]; intros st Hforced; simpl.
  - destruct unsat as [|t rest] eqn:Hu; [by apply ensures_done|].
    unfold GoalOriented._try_branch_on_target_clause.
    pose proof (Forall_inv Hvalid) as Ht. simpl in Ht.
    destruct (list_getitem_valid cls t Ht) as (target & -> & Htarget). simpl.
    rewrite <- Hu. apply branch_literals_ensures; [by rewrite Hu|].
    intros lit ty nu st' Hl. eapply Hbranch; [done|done|done].
  - rewrite apply_heuristic_forced_choice.
    destruct (forced_choice_returns v a cls unsat f Hvalid) as [choice Hc].
    rewrite Hc. simpl.
    assert (∀ st, ensures (GoalOriented.heuristic_scan recur vars a types cls
                             unsat st n f) (solution_within V)) as IH'.
    { intros st0. apply IH. intros u b ty rem st' Hu. apply Hforced. by right. }
    destruct choice as [[value rem]|]; simpl; [|apply IH'].
    apply forced_choice_Some in Hc as [Hv Hrem].
    destruct (Hforced v value (<[v := GoalOriented.HeuristicSet]> types) rem
                (GoalOriented.count_heuristic_choice st))
      as ([[r|] st'] & -> & HQ);
      [by left|done|by eapply get_unsatisfied_valid| |]; simpl.
    + by apply ensures_done.
    + apply IH'.
Qed.

Lemma recursive_solve_ensures depth n cls V (a : gmap Z bool) types unsat st :
  valid_indices cls unsat →
  variable_domain n cls ⊆ V → dom a ⊆ V →
  (open_variables (variable_domain n cls) a < depth)%nat →
  ensures
    (GoalOriented._recursive_solve_with_heuristic depth a types cls unsat st n)
    (solution_within V).
Proof.
  intros Hvalid HV. revert a types unsat st Hvalid.
  induction depth as [|depth IH]; intros a types unsat st Hvalid Ha Hd; [lia|].
  simpl. destruct unsat as [|t rest] eqn:Hu; [by apply ensures_done|].
  rewrite <- Hu in *. apply heuristic_scan_ensures; [done|done| |].
  - intros v b ty rem st' Hv Hopen Hrem. apply IH; [done| |].
    + rewrite dom_insert_L. pose proof (range_in_domain n cls v Hv). set_solver.
    + pose proof (open_variables_insert (variable_domain n cls) a v b
                    (range_in_domain n cls v Hv) Hopen). lia.
  - intros t' target lit ty nu st' _ Htarget Hl Hopen Hnu.
    assert (Z.abs lit ∈ variable_domain n cls) as Hdom.
    { apply variables_of_in_domain.
      eapply elem_of_variables_of_lit; [|done].
      by eapply list_elem_of_lookup_2. }
    apply IH; [done| |].
    + rewrite dom_insert_L. set_solver.
    + pose proof (open_variables_insert (variable_domain n cls) a _ (0 <? lit)
                    Hdom Hopen). lia.
Qed.

(** *** The completed solution *)

Lemma fill_defaults_dom vars (sol : gmap Z bool) types st sol' types' st' :
  GoalOriented.fill_defaults vars sol types st = (sol', types', st') →
  dom sol' = dom sol ∪ list_to_set vars ∧ sol ⊆ sol'.
Proof.
  revert sol types st. induction vars as [|v vars IH]; intros sol types st;
    simpl.
  - intros [= <- _ _]. split; [set_solver|done].
  - destruct (sol !! v) as [b|] eqn:Hv; intros Hf; apply IH in Hf as [Hd Hs].
    + split; [|done]. rewrite Hd.
      assert (v ∈ dom sol) by (apply elem_of_dom; eauto). set_solver.
    + split.
      * rewrite Hd, dom_insert_L. set_solver.
      * etrans; [|exact Hs]. by apply insert_subseteq.
Qed.

Lemma solve_3sat_goal_oriented_returns depth n cls :
  (size (variable_domain n cls) < depth)%nat →
  returns (GoalOriented.solve_3sat_goal_oriented depth n cls).
Proof.
  intros Hd. unfold GoalOriented.solve_3sat_goal_oriented.
  apply returns_bind.
  - eapply ensures_returns.
    apply (recursive_solve_ensures depth n cls (variable_domain n cls));
      [apply valid_indices_seq|done|set_solver|].
    by rewrite open_variables_empty.
  - intros [[[sol types]|] st] _; [|apply returns_done].
    destruct (GoalOriented.fill_defaults _ _ _ _) as [[sol' types'] st'].
    apply returns_done.
Qed.

(** ** The DPLL search *)

Lemma first_element_yields : yields_element first_element.
Proof.
  intros s Hs. unfold first_element.
  destruct (elements s) as [|x l] eqn:Hl.
  - by apply elements_empty_inv, leibniz_equiv in Hl.
  - simpl. apply elem_of_elements. rewrite Hl. by left.
Qed.

(** *** Unit propagation *)

Lemma find_unit_clause_Some cls (a : gmap Z bool) unit_clause :
  SimpleDPLLSolver._find_unit_clause cls a = Some unit_clause →
  ∃ lit c, unit_clause = [lit] ∧ c ∈ cls ∧ lit ∈ c ∧ a !! Z.abs lit = None.
Proof.
  induction cls as [|c cls IH]; simpl; [done|].
  destruct (SimpleDPLLSolver._is_satisfied c a).
  { intros (lit & c' & ? & ? & ?)%IH. exists lit, c'. split; [done|].
    split; [by right|done]. }
  destruct (length (SimpleDPLLSolver.unassigned_literals c a) =? 1)%nat
    eqn:Hlen.
  - intros [= <-]. apply Nat.eqb_eq in Hlen.
    destruct (SimpleDPLLSolver.unassigned_literals c a) as [|lit [|? ?]]
      eqn:Hun; simpl in Hlen; try lia.
    assert (lit ∈ SimpleDPLLSolver.unassigned_literals c a) as Hin
      by (rewrite Hun; by left).
    unfold SimpleDPLLSolver.unassigned_literals in Hin.
    apply list_elem_of_filter in Hin as [Hopen Hin].
    exists lit, c. split; [done|]. split; [by left|done].
  - intros (lit & c' & ? & ? & ?)%IH. exists lit, c'. split; [done|].
    split; [by right|done].
Qed.

Lemma unit_propagation_ensures iters cls (a : gmap Z bool) st :
  (open_variables (variables_of cls) a < iters)%nat →
  ensures (SimpleDPLLSolver.unit_propagation iters cls a st)
    (fun r => dom a ⊆ dom r.1.2).
Proof.
  revert a st. induction iters as [|iters IH]; intros a st Hd; [lia|].
  simpl. destruct (SimpleDPLLSolver._find_unit_clause cls a) as [ul|] eqn:Hu;
    [|by apply ensures_done].
  apply find_unit_clause_Some in Hu as (lit & c & -> & Hc & Hl & Hopen).
  rewrite Hopen.
  assert (Z.abs lit ∈ variables_of cls) as HV
    by by eapply elem_of_variables_of_lit.
  pose proof (open_variables_insert _ a _ (0 <? lit) HV Hopen).
  destruct (IH (<[Z.abs lit := 0 <? lit]> a)
              (SimpleDPLLSolver.count_unit_propagation st))
    as (r & -> & Hr); [lia|].
  apply ensures_done. rewrite dom_insert_L in Hr. set_solver.
Qed.

(** *** The pure literal and the branching variable are open variables *)

Lemma polarity_step_open cls c (a : gmap Z bool) acc lit :
  c ∈ cls → lit ∈ c →
  (∀ v, v ∈ acc.1 ∪ acc.2 → open_in cls a v) →
  ∀ v, v ∈ (SimpleDPLLSolver.polarity_step a acc lit).1
         ∪ (SimpleDPLLSolver.polarity_step a acc lit).2 → open_in cls a v.
Proof.
  intros Hc Hl Hacc v. unfold SimpleDPLLSolver.polarity_step.
  destruct (a !! Z.abs lit) eqn:Hopen; [apply Hacc|].
  assert (open_in cls a (Z.abs lit)) as Hnew.
  { split; [lia|]. split; [by eapply elem_of_variables_of_lit|done]. }
  destruct (0 <? lit); simpl; intros Hv;
    (destruct (decide (v = Z.abs lit)) as [->|]; [done|apply Hacc; set_solver]).
Qed.

Lemma polarities_clause_open cls c (a : gmap Z bool) lits acc :
  c ∈ cls → lits ⊆ c →
  (∀ v, v ∈ acc.1 ∪ acc.2 → open_in cls a v) →
  ∀ v, v ∈ (fold_left (SimpleDPLLSolver.polarity_step a) lits acc).1
         ∪ (fold_left (SimpleDPLLSolver.polarity_step a) lits acc).2 →
       open_in cls a v.
Proof.
  intros Hc. revert acc. induction lits as [|lit lits IH]; intros acc Hsub Hacc;
    simpl; [done|].
  apply IH; [set_solver|].
  eapply polarity_step_open; [done| |done]. apply Hsub. by left.
Qed.

Lemma polarities_open cls (a : gmap Z bool) v :
  v ∈ (SimpleDPLLSolver.polarities cls a).1
      ∪ (SimpleDPLLSolver.polarities cls a).2 →
  open_in cls a v.
Proof.
  unfold SimpleDPLLSolver.polarities.
  assert (∀ rest acc,
    rest ⊆ cls →
    (∀ v, v ∈ acc.1 ∪ acc.2 → open_in cls a v) →
    ∀ v, v ∈ (fold_left
                (fun acc c => if SimpleDPLLSolver._is_satisfied c a then acc
                              else fold_left (SimpleDPLLSolver.polarity_step a)
                                     c acc) rest acc).1
           ∪ (fold_left
                (fun acc c => if SimpleDPLLSolver._is_satisfied c a then acc
                              else fold_left (SimpleDPLLSolver.polarity_step a)
                                     c acc) rest acc).2 →
         open_in cls a v) as Hfold.
  { induction rest as [|c rest IH]; intros acc Hsub Hacc; simpl; [done|].
    apply IH; [set_solver|].
    destruct (SimpleDPLLSolver._is_satisfied c a); [done|].
    apply (polarities_clause_open cls c); [apply Hsub; by left|done|done]. }
  apply Hfold; [done|]. simpl. set_solver.
Qed.

Lemma find_pure_literal_open set_next cls (a : gmap Z bool) pure_literal :
  yields_element set_next →
  SimpleDPLLSolver._find_pure_literal set_next cls a = Some pure_literal →
  Z.abs pure_literal ∈ variables_of cls ∧ a !! Z.abs pure_literal = None.
Proof.
  intros Hnext. unfold SimpleDPLLSolver._find_pure_literal.
  pose proof (polarities_open cls a) as Hopen.
  destruct (SimpleDPLLSolver.polarities cls a) as [pos neg]. simpl in Hopen.
  destruct (decide (pos ∖ neg = ∅)) as [|Hpos].
  - destruct (decide (neg ∖ pos = ∅)) as [|Hneg]; [done|].
    intros [= <-]. rewrite Z.abs_opp.
    destruct (Hopen (set_next (neg ∖ pos))) as (H0 & HV & Ha).
    { pose proof (Hnext _ Hneg). set_solver. }
    rewrite Z.abs_eq by done. done.
  - intros [= <-].
    destruct (Hopen (set_next (pos ∖ neg))) as (H0 & HV & Ha).
    { pose proof (Hnext _ Hpos). set_solver. }
    rewrite Z.abs_eq by done. done.
Qed.

Lemma count_up_keys var var_count k :
  k ∈ (SimpleDPLLSolver.count_up var var_count).*1 →
  k = var ∨ k ∈ var_count.*1.
Proof.
  induction var_count as [|[k' m] rest IH]; simpl.
  - intros ?%list_elem_of_singleton. by left.
  - destruct (decide (k' = var)) as [->|]; simpl.
    + intros [->|?]%elem_of_cons; [by left|]. right. by right.
    + intros [->|?]%elem_of_cons; [right; by left|].
      destruct IH as [|]; [done|by left|]. right. by right.
Qed.

Lemma variable_counts_open cls (a : gmap Z bool) k :
  k ∈ (SimpleDPLLSolver.variable_counts cls a).*1 → open_in cls a k.
Proof.
  unfold SimpleDPLLSolver.variable_counts.
  assert (∀ c lits acc,
    c ∈ cls → lits ⊆ c →
    (∀ k, k ∈ acc.*1 → open_in cls a k) →
    ∀ k, k ∈ (fold_left (SimpleDPLLSolver.count_step a) lits acc).*1 →
         open_in cls a k) as Hclause.
  { intros c lits. induction lits as [|lit lits IH]; intros acc Hc Hsub Hacc;
      simpl; [done|].
    apply IH; [done|set_solver|].
    intros k'. unfold SimpleDPLLSolver.count_step.
    destruct (a !! Z.abs lit) eqn:Hopen; [apply Hacc|].
    intros [->|?]%count_up_keys; [|by apply Hacc].
    split; [lia|]. split; [|done].
    eapply elem_of_variables_of_lit; [done|]. apply Hsub. by left. }
  assert (∀ rest acc,
    rest ⊆ cls →
    (∀ k, k ∈ acc.*1 → open_in cls a k) →
    ∀ k, k ∈ (fold_left
                (fun acc c => if SimpleDPLLSolver._is_satisfied c a then acc
                              else fold_left (SimpleDPLLSolver.count_step a)
                                     c acc) rest acc).*1 →
         open_in cls a k) as Hfold.
  { induction rest as [|c rest IH]; intros acc Hsub Hacc; simpl; [done|].
    apply IH; [set_solver|].
    destruct (SimpleDPLLSolver._is_satisfied c a); [done|].
    apply (Hclause c); [apply Hsub; by left|done|done]. }
  apply Hfold; [done|]. simpl. intros ? ?%elem_of_nil. done.
Qed.

Lemma max_by_count_elem best items :
  SimpleDPLLSolver.max_by_count best items ∈ best :: items.
Proof.
  revert best. induction items as [|x items IH]; intros best; simpl.
  - by left.
  - destruct (best.2 <? x.2)%nat.
    + right. apply IH.
    + specialize (IH best). apply elem_of_cons in IH as [->|?];
        [by left|right; by right].
Qed.

Lemma choose_variable_open cls (a : gmap Z bool) var :
  SimpleDPLLSolver._choose_variable cls a = Some var →
  var ∈ variables_of cls ∧ a !! var = None.
Proof.
  unfold SimpleDPLLSolver._choose_variable.
  destruct (SimpleDPLLSolver.variable_counts cls a) as [|x rest] eqn:Hc; [done|].
  intros [= <-].
  destruct (variable_counts_open cls a (SimpleDPLLSolver.max_by_count x rest).1)
    as (_ & ? & ?); [|done].
  rewrite Hc. apply list_elem_of_fmap. eexists. split; [done|].
  apply max_by_count_elem.
Qed.

(** *** Termination *)

Lemma dpll_returns set_next depth iters cls (a : gmap Z bool) st :
  yields_element set_next →
  (open_variables (variables_of cls) a < depth)%nat →
  (open_variables (variables_of cls) a < iters)%nat →
  returns (SimpleDPLLSolver._dpll set_next depth iters cls a st).
Proof.
  intros Hnext. revert a st.
  induction depth as [|depth IH]; intros a st Hd Hi; [lia|].
  simpl.
  destruct (unit_propagation_ensures iters cls a st Hi)
    as ([[how a'] st'] & -> & Hdom). simpl in Hdom. simpl.
  pose proof (open_variables_mono (variables_of cls) a a' Hdom) as Hle.
  destruct how; [|apply returns_done].
  destruct (SimpleDPLLSolver._has_conflict cls a'); [apply returns_done|].
  destruct (SimpleDPLLSolver._all_satisfied cls a'); [apply returns_done|].
  destruct (SimpleDPLLSolver._find_pure_literal set_next cls a')
    as [pl|] eqn:Hpure.
  { apply (find_pure_literal_open _ _ _ _ Hnext) in Hpure as [HV Hopen].
    pose proof (open_variables_insert _ a' _ (0 <? pl) HV Hopen).
    apply IH; lia. }
  destruct (SimpleDPLLSolver._choose_variable cls a') as [var|] eqn:Hvar;
    [|apply returns_done].
  apply choose_variable_open in Hvar as [HV Hopen].
  pose proof (open_variables_insert _ a' _ true HV Hopen).
  assert (open_variables (variables_of cls)
            (<[var := false]> (<[var := true]> a'))
          < open_variables (variables_of cls) a')%nat as Hfalse.
  { rewrite insert_insert_eq. by apply open_variables_insert. }
  apply returns_bind; [apply IH; lia|].
  intros [[[] ?] st1] _; [apply returns_done|].
  apply returns_bind; [apply IH; lia|].
  intros [[[] ?] st2] _; [apply returns_done|].
  rewrite lookup_insert_eq. apply returns_done.
Qed.

Lemma dpll_solve_returns set_next depth iters cnf :
  yields_element set_next →
  (get_variable_count cnf < depth)%nat →
  (get_variable_count cnf < iters)%nat →
  returns (SimpleDPLLSolver.solve set_next depth iters cnf).
Proof.
  intros Hnext Hd Hi. unfold SimpleDPLLSolver.solve.
  apply returns_bind.
  - apply dpll_returns; [done| |]; by rewrite open_variables_empty.
  - intros [[r a] st] _. apply returns_done.
Qed.

(** ** Termination *)

Lemma in_range_domain n cls :
  in_range n cls → variable_domain n cls = list_to_set (seqZ 1 n).
Proof.
  intros Hr. unfold variable_domain.
  assert (variables_of cls ⊆ list_to_set (seqZ 1 n)); [|set_solver].
  intros v Hv. apply elem_of_list_to_set, elem_of_seqZ.
  specialize (Hr v Hv). lia.
Qed.

Lemma size_range n : size (list_to_set (seqZ 1 n) : gset Z) = Z.to_nat n.
Proof.
  rewrite size_list_to_set by apply NoDup_seqZ. apply length_seqZ.
Qed.

(** C8. Each of the three top-level searches returns on every formula once
    the recursion may go deeper than the number of variables there are to
    assign: the variables the clauses name for the DPLL and the backward
    search, those and [1 .. num_variables] for the goal-oriented search
    (for the DPLL search the propagation loop gets as many rounds).  When
    every clause variable lies in [1 .. num_variables] that number is
    [num_variables]. *)
Theorem searches_terminate (set_next : gset Z → Z) (cnf : CNFInstance)
    (depth iters : nat) :
  (yields_element set_next →
   (get_variable_count cnf < depth)%nat →
   (get_variable_count cnf < iters)%nat →
   returns (SimpleDPLLSolver.solve set_next depth iters cnf)) ∧
  ((get_variable_count cnf < depth)%nat →
   returns (Backward.solve_3sat_backward depth (num_variables cnf)
              (clauses cnf))) ∧
  ((size (variable_domain (num_variables cnf) (clauses cnf)) < depth)%nat →
   returns (GoalOriented.solve_3sat_goal_oriented depth (num_variables cnf)
              (clauses cnf))) ∧
  (in_range (num_variables cnf) (clauses cnf) →
   size (variable_domain (num_variables cnf) (clauses cnf))
     = Z.to_nat (num_variables cnf) ∧
   (get_variable_count cnf ≤ Z.to_nat (num_variables cnf))%nat).
Proof.
  split; [|split; [|split]].
  - apply dpll_solve_returns.
  - apply solve_3sat_backward_returns.
  - apply solve_3sat_goal_oriented_returns.
  - intros Hr. split.
    + by rewrite (in_range_domain _ _ Hr), size_range.
    + unfold get_variable_count.
      rewrite <- (size_range (num_variables cnf)), <- (in_range_domain _ _ Hr).
      apply subseteq_size, variables_of_in_domain.
Qed.

Lemma searches_terminate_witness :
  returns (SimpleDPLLSolver.solve first_element 4 4 example_cnf) ∧
  returns (Backward.solve_3sat_backward 4 3 (clauses example_cnf)) ∧
  returns (GoalOriented.solve_3sat_goal_oriented 4 3 (clauses example_cnf)).
Proof.
  destruct (searches_terminate first_element example_cnf 4 4)
    as (Hdpll & Hback & Hgoal & _).
  split; [|split].
  - apply Hdpll; [apply first_element_yields| |]; vm_compute; lia.
  - apply Hback. vm_compute. lia.
  - apply Hgoal. vm_compute. lia.
Defined.

(** ** The unsatisfied-index invariant *)



(** ** The completed assignment *)

(** A check of [in_range] that computes. *)
Lemma in_range_check n cls :
  forallb (forallb (fun lit => (1 <=? Z.abs lit) && (Z.abs lit <=? n))) cls
    = true →
  in_range n cls.
Proof.
  intros Hall v Hv. apply elem_of_variables_of in Hv as (c & Hc & Hv).
  unfold clause_variables in Hv. apply elem_of_list_to_set in Hv.
  apply list_elem_of_fmap in Hv as (lit & -> & Hlit).
  rewrite forallb_forall in Hall. apply list_elem_of_In in Hc.
  specialize (Hall c Hc). rewrite forallb_forall in Hall.
  apply list_elem_of_In in Hlit. specialize (Hall lit Hlit).
  apply andb_true_iff in Hall as [?%Z.leb_le ?%Z.leb_le]. lia.
Qed.

Lemma complete_lookup vars (sol acc : gmap Z bool) d cs d' v :
  Backward.complete vars sol acc d = (cs, d') →
  cs !! v = if decide (v ∈ vars) then Some (default false (sol !! v))
            else acc !! v.
Proof.
  revert acc d. induction vars as [|u vars IH]; intros acc d; simpl.
  - intros [= <- _]. destruct (decide (v ∈ [])) as [Hin|]; [|done].
    by apply elem_of_nil in Hin.
  - destruct (sol !! u) as [b|] eqn:Hu; intros Hc; apply IH in Hc;
      rewrite Hc; clear Hc.
    + destruct (decide (v ∈ vars)) as [Hin|Hnin].
      * rewrite decide_True; [done|by right].
      * destruct (decide (v = u)) as [->|Hne].
        -- rewrite decide_True by by left. by rewrite lookup_insert_eq, Hu.
        -- rewrite decide_False by (intros [?|?]%elem_of_cons; done).
           by rewrite lookup_insert_ne.
    + destruct (decide (v ∈ vars)) as [Hin|Hnin].
      * rewrite decide_True; [done|by right].
      * destruct (decide (v = u)) as [->|Hne].
        -- rewrite decide_True by by left. by rewrite lookup_insert_eq, Hu.
        -- rewrite decide_False by (intros [?|?]%elem_of_cons; done).
           by rewrite lookup_insert_ne.
Qed.

(** The completion loop of the goal-oriented solver keeps every value of
    the dictionary it is given and writes [false] for the listed variables
    that have none. *)
Lemma fill_defaults_lookup vars (sol : gmap Z bool) types st sol' types' st'
    v :
  GoalOriented.fill_defaults vars sol types st = (sol', types', st') →
  sol' !! v = match sol !! v with
              | Some b => Some b
              | None => if decide (v ∈ vars) then Some false else None
              end.
Proof.
  revert sol types st. induction vars as [|u vars IH]; intros sol types st;
    cbn [GoalOriented.fill_defaults].
  - intros [= <- _ _]. destruct (sol !! v); [done|].
    destruct (decide (v ∈ [])) as [Hin|]; [by apply elem_of_nil in Hin|done].
  - destruct (sol !! u) as [b|] eqn:Hu; intros Hf; apply IH in Hf;
      rewrite Hf; clear Hf.
    + destruct (sol !! v) eqn:Hv; [done|].
      destruct (decide (v ∈ vars)) as [Hin|Hnin].
      * rewrite decide_True; [done|by right].
      * rewrite decide_False; [done|].
        intros [->|?]%elem_of_cons; [congruence|done].
    + destruct (decide (v = u)) as [->|Hne].
      * rewrite lookup_insert_eq, Hu. rewrite decide_True; [done|by left].
      * rewrite lookup_insert_ne by done. destruct (sol !! v); [done|].
        destruct (decide (v ∈ vars)) as [Hin|Hnin].
        -- rewrite decide_True; [done|by right].
        -- rewrite decide_False; [done|].
           intros [?|?]%elem_of_cons; done.
Qed.

(** Counterexample to C3 as stated: with [num_variables = 1] and the
    single clause [[2]], the goal-oriented search assigns variable 2, the
    completion adds variable 1, and the reported solution has the keys 1
    and 2. *)
Lemma default_fill_counterexample :
  ∃ r, GoalOriented.solve_3sat_goal_oriented 3 1 [[2]] = Done (tt, r) ∧
       GoalOriented.report_status r = SATISFIABLE ∧
       GoalOriented.report_solution r = <[1 := false]> (<[2 := true]> ∅) ∧
       dom (GoalOriented.report_solution r) ≠ list_to_set (seqZ 1 1).
Proof.
  eexists. split; [vm_compute; reflexivity|]. split; [reflexivity|].
  split; [by vm_compute|].
  intros Heq. assert (2 ∈ (list_to_set (seqZ 1 1) : gset Z)) as Hin.
  { rewrite <- Heq. apply elem_of_dom. exists true. by vm_compute. }
  apply elem_of_list_to_set, elem_of_seqZ in Hin. lia.
Qed.

(** C3, amended. When the backward search reports SATISFIABLE, the
    completed assignment it returns has exactly the keys
    [1 .. num_variables], each with the value the search found or [false];
    a value found for a variable outside that range is left out.  When the
    goal-oriented search reports SATISFIABLE, the defaults are written into
    the dictionary the search returned: the reported solution keeps every
    value the search found, gives [false] to every variable of
    [1 .. num_variables] the search left untouched, and has no other key;
    so its keys are [1 .. num_variables] together with the keys of the
    search, which is exactly [1 .. num_variables] when every clause variable
    lies in that range. *)
Theorem default_fill_coverage (depth : nat) (n : Z) (cls : list clause) :
  ((size (variables_of cls) < depth)%nat →
   ∃ r st,
     Backward.solve_3sat_backward depth n cls = Done (r, st) ∧
     ∀ sol, r = Some sol →
       dom sol = list_to_set (seqZ 1 n) ∧
       ∃ found st',
         Backward._find_solution_recursive depth ∅ cls (seq 0 (length cls))
           (Backward.fresh_stats n cls) = Done (Some found, st') ∧
         ∀ v, v ∈ seqZ 1 n → sol !! v = Some (default false (found !! v))) ∧
  ((size (variable_domain n cls) < depth)%nat →
   ∃ r,
     GoalOriented.solve_3sat_goal_oriented depth n cls = Done (tt, r) ∧
     (GoalOriented.report_status r = SATISFIABLE →
      ∃ found types st',
        GoalOriented._recursive_solve_with_heuristic depth ∅ ∅ cls
          (seq 0 (length cls)) GoalOriented.fresh_stats n
          = Done (Some (found, types), st') ∧
        found ⊆ GoalOriented.report_solution r ∧
        (∀ v, GoalOriented.report_solution r !! v
              = match found !! v with
                | Some b => Some b
                | None => if decide (v ∈ seqZ 1 n) then Some false else None
                end) ∧
        dom (GoalOriented.report_solution r)
          = dom found ∪ list_to_set (seqZ 1 n) ∧
        dom found ⊆ variable_domain n cls ∧
        (in_range n cls →
         dom (GoalOriented.report_solution r) = list_to_set (seqZ 1 n)))).
Proof.
  split.
  - intros Hd. unfold Backward.solve_3sat_backward.
    destruct (find_solution_recursive_returns depth cls ∅
                (seq 0 (length cls)) (Backward.fresh_stats n cls))
      as [[[found|] st'] Hrun];
      [apply valid_indices_seq|by rewrite open_variables_empty| |].
    + rewrite Hrun. simpl.
      destruct (Backward.complete (seqZ 1 n) found ∅
                  (Backward.defaulted_variables st')) as [cs d] eqn:Hc.
      eexists _, _. split; [done|]. intros sol [= <-]. split.
      * apply complete_dom in Hc. rewrite Hc, dom_empty_L. set_solver.
      * exists found, st'. split; [done|]. intros v Hv.
        rewrite (complete_lookup _ _ _ _ _ _ v Hc). by rewrite decide_True.
    + rewrite Hrun. simpl. eexists _, _. split; [done|]. done.
  - intros Hd. unfold GoalOriented.solve_3sat_goal_oriented.
    destruct (recursive_solve_ensures depth n cls (variable_domain n cls) ∅ ∅
                (seq 0 (length cls)) GoalOriented.fresh_stats)
      as ([[[found types]|] st'] & Hrun & Hwithin);
      [apply valid_indices_seq|done|set_solver
      |by rewrite open_variables_empty| |].
    + rewrite Hrun. simpl.
      destruct (GoalOriented.fill_defaults (seqZ 1 n) found types st')
        as [[sol' types'] st''] eqn:Hf.
      eexists. split; [done|]. intros _. simpl.
      pose proof (fun v => fill_defaults_lookup _ _ _ _ _ _ _ v Hf) as Hlook.
      apply fill_defaults_dom in Hf as [Hdom Hsub].
      exists found, types, st'. split; [done|]. split; [done|].
      split; [exact Hlook|]. split; [done|]. unfold solution_within in Hwithin. simpl in Hwithin.
      split; [done|]. intros Hr. rewrite Hdom.
      rewrite (in_range_domain _ _ Hr) in Hwithin. set_solver.
    + rewrite Hrun. simpl. eexists. split; [done|]. done.
Qed.

Lemma default_fill_coverage_witness :
  (∃ r st,
     Backward.solve_3sat_backward 3 1 [[2]] = Done (r, st) ∧
     ∀ sol, r = Some sol → dom sol = list_to_set (seqZ 1 1)) ∧
  (∃ r, GoalOriented.solve_3sat_goal_oriented 6 5 original_5_var
          = Done (tt, r) ∧
        (GoalOriented.report_status r = SATISFIABLE →
         dom (GoalOriented.report_solution r) = list_to_set (seqZ 1 5) ∧
         ∃ found : gmap Z bool,
           ∀ v, GoalOriented.report_solution r !! v
                = match found !! v with
                  | Some b => Some b
                  | None => if decide (v ∈ seqZ 1 5) then Some false else None
                  end)).
Proof.
  split.
  - destruct (default_fill_coverage 3 1 [[2]]) as [Hback _].
    destruct Hback as (r & st & Hrun & Hsol); [vm_compute; lia|].
    exists r, st. split; [exact Hrun|].
    intros sol Hr. destruct (Hsol sol Hr) as [Hdom _]. exact Hdom.
  - destruct (default_fill_coverage 6 5 original_5_var) as [_ Hgoal].
    destruct Hgoal as (r & Hrun & Hsat); [vm_compute; lia|].
    exists r. split; [exact Hrun|].
    intros Hs.
    destruct (Hsat Hs) as (found & types & st' & _ & _ & Hval & _ & _ & Hin).
    split; [apply Hin, in_range_check; reflexivity|].
    exists found. exact Hval.
Defined.

(** ** What the entry points return *)

(** Counterexample to C4 as stated: on the five-variable test formula the
    goal-oriented entry point returns [None], and on the example formula
    the DPLL entry point returns a triple; neither is a pair of an
    assignment and the statistics. *)
Lemma solve_contract_counterexample :
  goal_oriented_returned <$>
    GoalOriented.solve_3sat_goal_oriented 6 5 original_5_var = Done PyNone ∧
  is_solve_pair PyNone = false ∧
  ∃ a st,
    dpll_returned <$> SimpleDPLLSolver.solve first_element 4 4 example_cnf
      = Done (PyTuple [PyBool true; PyAssignment a; PyDpllStatistics st]) ∧
    is_solve_pair (PyTuple [PyBool true; PyAssignment a; PyDpllStatistics st])
      = false.
Proof.
  split; [by vm_compute|]. split; [reflexivity|].
  eexists _, _. split; [vm_compute; reflexivity|reflexivity].
Qed.

(** C4, amended. With recursion allowed deeper than the number of
    variables, none of the three entry points raises.  The backward
    [solve_3sat_backward] returns a pair of the assignment, or [None] for
    unsatisfiable, and the statistics, in either outcome.  The DPLL [solve]
    returns a triple of the verdict, the assignment or [None], and the
    statistics, in either outcome.  The goal-oriented
    [solve_3sat_goal_oriented] returns [None] in either outcome and hands
    the verdict, the solution (empty when unsatisfiable) and the statistics
    to the report writer. *)
Theorem solve_result_contract (set_next : gset Z → Z) (cnf : CNFInstance)
    (depth iters : nat) :
  yields_element set_next →
  (size (variable_domain (num_variables cnf) (clauses cnf)) < depth)%nat →
  (get_variable_count cnf < iters)%nat →
  (∃ sol st,
     backward_returned <$>
       Backward.solve_3sat_backward depth (num_variables cnf) (clauses cnf)
     = Done (PyTuple [py_optional sol; PyBackwardStats st]) ∧
     is_solve_pair (PyTuple [py_optional sol; PyBackwardStats st]) = true ∧
     (sol = None ↔ Backward.status st = Some UNSATISFIABLE)) ∧
  (∃ verdict sol st,
     dpll_returned <$> SimpleDPLLSolver.solve set_next depth iters cnf
     = Done (PyTuple [PyBool verdict; py_optional sol; PyDpllStatistics st]) ∧
     (sol = None ↔ verdict = false)) ∧
  (∃ r,
     GoalOriented.solve_3sat_goal_oriented depth (num_variables cnf)
       (clauses cnf) = Done (tt, r) ∧
     goal_oriented_returned (tt, r) = PyNone ∧
     (GoalOriented.report_status r = UNSATISFIABLE →
      GoalOriented.report_solution r = ∅)).
Proof.
  intros Hnext Hd Hi.
  assert (get_variable_count cnf < depth)%nat as Hd'.
  { eapply Nat.le_lt_trans; [|exact Hd]. unfold get_variable_count.
    apply subseteq_size, variables_of_in_domain. }
  split; [|split].
  - unfold Backward.solve_3sat_backward.
    destruct (find_solution_recursive_returns depth (clauses cnf) ∅
                (seq 0 (length (clauses cnf)))
                (Backward.fresh_stats (num_variables cnf) (clauses cnf)))
      as [[[found|] st'] ->];
      [apply valid_indices_seq|by rewrite open_variables_empty| |]; simpl.
    + destruct (Backward.complete _ _ _ _) as [cs d]. simpl.
      eexists (Some cs), _. split; [reflexivity|]. split; [reflexivity|].
      simpl. split; intros; discriminate.
    + eexists None, _. split; [reflexivity|]. split; [reflexivity|]. done.
  - unfold SimpleDPLLSolver.solve.
    destruct (dpll_returns set_next depth iters (clauses cnf) ∅
                SimpleDPLLSolver.fresh_statistics Hnext)
      as [[[[] a] st] ->]; [by rewrite open_variables_empty
                           |by rewrite open_variables_empty| |]; simpl.
    + eexists true, (Some a), st. split; [reflexivity|].
      split; intros; discriminate.
    + eexists false, None, st. split; [reflexivity|]. done.
  - unfold GoalOriented.solve_3sat_goal_oriented.
    destruct (recursive_solve_ensures depth (num_variables cnf) (clauses cnf)
                (variable_domain (num_variables cnf) (clauses cnf)) ∅ ∅
                (seq 0 (length (clauses cnf))) GoalOriented.fresh_stats)
      as ([[[found types]|] st'] & -> & _);
      [apply valid_indices_seq|done|set_solver
      |by rewrite open_variables_empty| |]; simpl.
    + destruct (GoalOriented.fill_defaults _ _ _ _) as [[sol' types'] st''].
      eexists. split; [reflexivity|]. split; [reflexivity|]. simpl.
      intros; discriminate.
    + eexists. split; [reflexivity|]. split; [reflexivity|]. done.
Qed.

Lemma solve_result_contract_witness :
  ∃ sol st,
    backward_returned <$>
      Backward.solve_3sat_backward 4 3 (clauses example_cnf)
    = Done (PyTuple [py_optional sol; PyBackwardStats st]).
Proof.
  destruct (solve_result_contract first_element example_cnf 4 4)
    as [(sol & st & Hrun & _) _].
  - apply first_element_yields.
  - vm_compute. lia.
  - vm_compute. lia.
  - exists sol, st. exact Hrun.
Defined.

(** ** The forced-choice rule *)

Lemma heuristic_scan_skip recur pre post (a : gmap Z bool) types cls unsat st
    n f :
  (∀ u, u ∈ pre → forced_choice u a cls unsat f = Done None) →
  GoalOriented.heuristic_scan recur (pre ++ post) a types cls unsat st n f
  = GoalOriented.heuristic_scan recur post a types cls unsat st n f.
Proof.
  induction pre as [|u pre IH]; intros Hpre; simpl; [done|].
  rewrite apply_heuristic_forced_choice, (Hpre u) by by left. simpl.
  apply IH. intros u' Hu'. apply Hpre. by right.
Qed.

Lemma first_forced_choice_skip pre post (a : gmap Z bool) cls unsat f :
  (∀ u, u ∈ pre → forced_choice u a cls unsat f = Done None) →
  first_forced_choice (pre ++ post) a cls unsat f
  = first_forced_choice post a cls unsat f.
Proof.
  induction pre as [|u pre IH]; intros Hpre; simpl; [done|].
  rewrite (Hpre u) by by left. simpl.
  apply IH. intros u' Hu'. apply Hpre. by right.
Qed.

(** Counterexample to C7 as stated: on [misleading_margin] with six
    variables the first forced choice of the top-level round is variable 1
    set to [true]; the search under it finds nothing, the round goes on
    through the remaining variables and the branching step, and it returns
    a solution in which variable 1 is [false]. *)
Lemma forced_choice_counterexample :
  first_forced_choice (seqZ 1 6) ∅ misleading_margin (seq 0 6) 1
    = Done (Some (1, true, [0; 1]%nat)) ∧
  (∃ st,
     GoalOriented._recursive_solve_with_heuristic 6 (<[1 := true]> ∅)
       (<[1 := GoalOriented.HeuristicSet]> ∅) misleading_margin [0; 1]%nat
       (GoalOriented.count_heuristic_choice
          (GoalOriented.count_call GoalOriented.fresh_stats)) 6
     = Done (None, st)) ∧
  (∃ sol types st,
     GoalOriented._recursive_solve_with_heuristic 7 ∅ ∅ misleading_margin
       (seq 0 6) GoalOriented.fresh_stats 6
     = Done (Some (sol, types), st) ∧
     sol !! 1 = Some false).
Proof.
  split; [by vm_compute|]. split.
  - eexists. vm_compute. reflexivity.
  - eexists _, _, _. split; [vm_compute; reflexivity|]. by vm_compute.
Qed.

(** C7, amended. The heuristic forces a value for a variable (a) when
    exactly one polarity causes a contradiction, the other polarity being
    forced, and (b) when neither does and one polarity satisfies more
    clauses than the other by more than the margin 1, the higher-scoring
    polarity being forced; in no other case.  In each recursive step the
    variables are scanned in increasing order and the first one that yields
    a forced choice is tried first: when the search under it finds a
    solution, that solution is returned and no further variable is
    evaluated; when it finds none, the scan goes on with the variables
    after it. *)
Theorem forced_choice_rule :
  (∀ v tc fc ts fs value,
     GoalOriented._make_heuristic_decision v tc fc ts fs 1 = Some (v, value) ↔
     (tc = negb value ∧ fc = value) ∨
     (tc = false ∧ fc = false ∧
      if value then fs + 1 < ts else ts + 1 < fs)) ∧
  (∀ depth (a : gmap Z bool) types cls unsat st n pre v post value remaining,
     unsat ≠ [] →
     seqZ 1 n = pre ++ v :: post →
     (∀ u, u ∈ pre → forced_choice u a cls unsat 1 = Done None) →
     forced_choice v a cls unsat 1 = Done (Some (value, remaining)) →
     first_forced_choice (seqZ 1 n) a cls unsat 1
       = Done (Some (v, value, remaining)) ∧
     GoalOriented._recursive_solve_with_heuristic (S depth) a types cls unsat
       st n
     = '(result, st') ←
         GoalOriented._recursive_solve_with_heuristic depth (<[v := value]> a)
           (<[v := GoalOriented.HeuristicSet]> types) cls remaining
           (GoalOriented.count_heuristic_choice (GoalOriented.count_call st))
           n;
       match result with
       | Some r => Done (Some r, st')
       | None =>
           GoalOriented.heuristic_scan
             (GoalOriented._recursive_solve_with_heuristic depth) post a types
             cls unsat st' n 1
       end).
Proof.
  split.
  - intros v tc fc ts fs value.
    unfold GoalOriented._make_heuristic_decision.
    destruct tc, fc, value; simpl;
      repeat (case_match; try rewrite Z.ltb_lt in *;
              try rewrite Z.ltb_ge in *);
      split; intros; simplify_eq; try tauto; try lia;
      try (right; repeat split; done || lia);
      try (left; done);
      repeat match goal with
             | H : _ ∨ _ |- _ => destruct H
             | H : _ ∧ _ |- _ => destruct H
             end; try discriminate; try lia.
  - intros depth a types cls unsat st n pre v post value remaining
      Hne Hscan Hpre Hv.
    split.
    + rewrite Hscan, first_forced_choice_skip by done. simpl. by rewrite Hv.
    + simpl. destruct unsat as [|t rest]; [done|].
      rewrite Hscan, heuristic_scan_skip by done. simpl.
      rewrite apply_heuristic_forced_choice, Hv. simpl.
      destruct (GoalOriented._recursive_solve_with_heuristic depth _ _ _ _ _ _)
        as [[[r|] st']| |]; done.
Qed.

Lemma forced_choice_rule_witness :
  GoalOriented._recursive_solve_with_heuristic 7 ∅ ∅ misleading_margin
    (seq 0 6) GoalOriented.fresh_stats 6
  = '(result, st') ←
      GoalOriented._recursive_solve_with_heuristic 6 (<[1 := true]> ∅)
        (<[1 := GoalOriented.HeuristicSet]> ∅) misleading_margin [0; 1]%nat
        (GoalOriented.count_heuristic_choice
           (GoalOriented.count_call GoalOriented.fresh_stats)) 6;
    match result with
    | Some r => Done (Some r, st')
    | None =>
        GoalOriented.heuristic_scan
          (GoalOriented._recursive_solve_with_heuristic 6) [2; 3; 4; 5; 6] ∅ ∅
          misleading_margin (seq 0 6) st' 6 1
    end.
Proof.
  destruct forced_choice_rule as [_ Hscan].
  apply (Hscan 6%nat ∅ ∅ misleading_margin (seq 0 6) GoalOriented.fresh_stats
           6 [] 1 [2; 3; 4; 5; 6] true [0; 1]%nat).
  - discriminate.
  - reflexivity.
  - intros u Hu. by apply elem_of_nil in Hu.
  - vm_compute. reflexivity.
Defined.

(** ** Soundness of the two clause-targeted searches *)

Lemma is_clause_satisfied_mono c (a a' : gmap Z bool) :
  a ⊆ a' → is_clause_satisfied c a = true → is_clause_satisfied c a' = true.
Proof.
  intros Hsub. rewrite !is_clause_satisfied_iff.
  intros (lit & Hl & Ht). exists lit. split; [done|].
  destruct Ht as [[? Ht]|[? Ht]]; [left|right];
    (split; [done|by eapply lookup_weaken]).
Qed.

Lemma satisfied_outside_entry cls :
  satisfied_outside cls ∅ (seq 0 (length cls)).
Proof.
  intros i c Hc Hi. exfalso. apply Hi, elem_of_seq.
  apply lookup_lt_Some in Hc. lia.
Qed.

Lemma satisfied_outside_step cls (a : gmap Z bool) unsat v b new_unsat :
  satisfied_outside cls a unsat → a !! v = None →
  _get_unsatisfied_clause_indices cls (<[v := b]> a) unsat = Done new_unsat →
  satisfied_outside cls (<[v := b]> a) new_unsat.
Proof.
  intros Hout Hv Hnew i c Hc Hi.
  destruct (decide (i ∈ unsat)) as [Hin|Hnin].
  - destruct (is_clause_satisfied c (<[v := b]> a)) eqn:Hs; [done|].
    exfalso. apply Hi. apply (get_unsatisfied_elem _ _ _ _ _ Hnew). eauto.
  - eapply is_clause_satisfied_mono; [by apply insert_subseteq|].
    by eapply Hout.
Qed.

Lemma satisfied_outside_nil cls (a : gmap Z bool) :
  satisfied_outside cls a [] → satisfies_all cls a.
Proof.
  intros Hout. apply Forall_forall. intros c Hc.
  apply list_elem_of_lookup in Hc as [i Hi].
  eapply Hout; [done|]. apply not_elem_of_nil.
Qed.

Lemma try_literals_sound recur lits (a : gmap Z bool) cls unsat st sol st'
    (Q : gmap Z bool → Prop) :
  (∀ lit nu st0 sol st1,
     lit ∈ lits → a !! Z.abs lit = None →
     _get_unsatisfied_clause_indices cls (<[Z.abs lit := 0 <? lit]> a) unsat
       = Done nu →
     recur (<[Z.abs lit := 0 <? lit]> a) cls nu st0 = Done (Some sol, st1) →
     Q sol) →
  Backward.try_literals recur lits a cls unsat st = Done (Some sol, st') →
  Q sol.
Proof.
  revert st. induction lits as [|lit lits IH]; intros st Hrec; simpl; [done|].
  assert (∀ st, Backward.try_literals recur lits a cls unsat st
                = Done (Some sol, st') → Q sol) as IH'.
  { intros st0. apply IH. intros l nu st1 s st2 Hl. apply Hrec. by right. }
  destruct (Backward.consistency_check a (Z.abs lit) (0 <? lit)) eqn:Hcc;
    [apply IH'|].
  apply consistency_check_None in Hcc.
  destruct (_get_unsatisfied_clause_indices cls (<[Z.abs lit := 0 <? lit]> a)
              unsat) as [nu| |] eqn:Hnu; simpl; [|done|done].
  destruct (recur _ cls nu st) as [[[r|] st1]| |] eqn:Hr; simpl;
    [|apply IH'|done|done].
  intros [= <- _]. eapply Hrec; [by left|done|done|done].
Qed.

Lemma find_solution_recursive_sound depth cls (a : gmap Z bool) unsat st sol
    st' :
  satisfied_outside cls a unsat →
  Backward._find_solution_recursive depth a cls unsat st = Done (Some sol, st') →
  satisfies_all cls sol.
Proof.
  revert a unsat st sol st'.
  induction depth as [|depth IH]; intros a unsat st sol st' Hout; simpl;
    [done|].
  destruct unsat as [|t rest] eqn:Hu.
  { intros [= <- _]. by apply satisfied_outside_nil. }
  destruct (list_getitem cls t) as [target| |]; simpl; [|done|done].
  rewrite <- Hu in *. apply (try_literals_sound _ _ _ _ _ _ _ _ (satisfies_all cls)).
  intros lit nu st0 s st1 _ Hopen Hnu. apply IH.
  by eapply satisfied_outside_step.
Qed.

Lemma branch_literals_sound recur lits cls (a : gmap Z bool) types unsat st n
    r st' (Q : gmap Z bool → Prop) :
  (∀ lit nu types0 st0 r st1,
     lit ∈ lits → a !! Z.abs lit = None →
     _get_unsatisfied_clause_indices cls (<[Z.abs lit := 0 <? lit]> a) unsat
       = Done nu →
     recur (<[Z.abs lit := 0 <? lit]> a) types0 cls nu st0 n
       = Done (Some r, st1) →
     Q r.1) →
  GoalOriented.branch_literals recur lits cls a types unsat st n
    = Done (Some r, st') →
  Q r.1.
Proof.
  revert st. induction lits as [|lit lits IH]; intros st Hrec; simpl; [done|].
  assert (∀ st, GoalOriented.branch_literals recur lits cls a types unsat st n
                = Done (Some r, st') → Q r.1) as IH'.
  { intros st0. apply IH. intros l nu ty st1 s st2 Hl. apply Hrec. by right. }
  destruct (a !! Z.abs lit) eqn:Hopen; [apply IH'|].
  destruct (_get_unsatisfied_clause_indices cls (<[Z.abs lit := 0 <? lit]> a)
              unsat) as [nu| |] eqn:Hnu; simpl; [|done|done].
  destruct (GoalOriented._check_for_contradiction _ _); [apply IH'|].
  destruct (recur _ _ cls nu st n) as [[[r0|] st1]| |] eqn:Hr; simpl;
    [|apply IH'|done|done].
  intros [= <- _]. eapply Hrec; [by left|done|done|done].
Qed.

Lemma heuristic_scan_sound recur vars (a : gmap Z bool) types cls unsat st n f
    r st' (Q : gmap Z bool → Prop) :
  unsat ≠ [] →
  (∀ v b rem types0 st0 r st1,
     a !! v = None →
     _get_unsatisfied_clause_indices cls (<[v := b]> a) unsat = Done rem →
     recur (<[v := b]> a) types0 cls rem st0 n = Done (Some r, st1) →
     Q r.1) →
  GoalOriented.heuristic_scan recur vars a types cls unsat st n f
    = Done (Some r, st') →
  Q r.1.
Proof.
  intros Hne Hrec. revert st.
  induction vars as [|v vars IH]; intros st; simpl.
  - destruct unsat as [|t rest] eqn:Hu; [done|]. rewrite <- Hu in *.
    unfold GoalOriented._try_branch_on_target_clause.
    destruct (list_getitem cls t) as [target| |]; simpl; [|done|done].
    apply branch_literals_sound.
    intros lit nu ty st0 s st1 _ Hopen Hnu. by apply Hrec.
  - rewrite apply_heuristic_forced_choice.
    destruct (forced_choice v a cls unsat f) as [[[value rem]|]| |] eqn:Hc;
      simpl; [| |done|done].
    + apply forced_choice_Some in Hc as [Hopen Hrem].
      destruct (recur _ _ cls rem _ n) as [[[r0|] st1]| |] eqn:Hr; simpl;
        [|apply IH|done|done].
      intros [= <- _]. by eapply Hrec.
    + apply IH.
Qed.

Lemma recursive_solve_sound depth cls (a : gmap Z bool) types unsat st n r st' :
  satisfied_outside cls a unsat →
  GoalOriented._recursive_solve_with_heuristic depth a types cls unsat st n
    = Done (Some r, st') →
  satisfies_all cls r.1.
Proof.
  revert a types unsat st r st'. induction depth as [|depth IH];
    intros a types unsat st r st' Hout; simpl; [done|].
  destruct unsat as [|t rest] eqn:Hu.
  { intros [= <- _]. by apply satisfied_outside_nil. }
  rewrite <- Hu in *.
  apply (heuristic_scan_sound _ _ _ _ _ _ _ _ _ _ _ (satisfies_all cls));
    [by rewrite Hu|].
  intros v b rem ty st0 s st1 Hopen Hrem. apply IH.
  by eapply satisfied_outside_step.
Qed.

(** What holds of the soundness property away from the DPLL search: every
    solution the goal-oriented search reports satisfies every clause, and so
    does every assignment the backward search returns when the clause
    variables lie in [1 .. num_variables]. *)
Lemma clause_targeted_searches_sound depth n cls :
  (in_range n cls →
   ∀ sol st, Backward.solve_3sat_backward depth n cls = Done (Some sol, st) →
             satisfies_all cls sol) ∧
  (∀ r, GoalOriented.solve_3sat_goal_oriented depth n cls = Done (tt, r) →
        GoalOriented.report_status r = SATISFIABLE →
        satisfies_all cls (GoalOriented.report_solution r)).
Proof.
  split.
  - intros Hr sol st. unfold Backward.solve_3sat_backward.
    destruct (Backward._find_solution_recursive depth ∅ cls _ _)
      as [[[found|] st']| |] eqn:Hrun; simpl; [|done|done|done].
    destruct (Backward.complete (seqZ 1 n) found ∅ _) as [cs d] eqn:Hc.
    intros [= <- _].
    apply find_solution_recursive_sound in Hrun;
      [|apply satisfied_outside_entry].
    unfold satisfies_all in *. rewrite Forall_forall in *.
    intros c Hin. specialize (Hrun c Hin).
    apply is_clause_satisfied_iff in Hrun as (lit & Hl & Ht).
    apply is_clause_satisfied_iff. exists lit. split; [done|].
    assert (Z.abs lit ∈ seqZ 1 n) as Hrange.
    { apply elem_of_seqZ.
      specialize (Hr (Z.abs lit) (elem_of_variables_of_lit cls c lit Hin Hl)).
      lia. }
    unfold makes_true in *.
    rewrite (complete_lookup _ _ _ _ _ _ (Z.abs lit) Hc), decide_True by done.
    destruct Ht as [[? ->]|[? ->]]; [by left|by right].
  - intros r. unfold GoalOriented.solve_3sat_goal_oriented.
    destruct (GoalOriented._recursive_solve_with_heuristic depth ∅ ∅ cls _ _ n)
      as [[[[found types]|] st']| |] eqn:Hrun; simpl; [| |done|done].
    + destruct (GoalOriented.fill_defaults (seqZ 1 n) found types st')
        as [[sol' types'] st''] eqn:Hf.
      intros [= <-] _. simpl.
      apply recursive_solve_sound in Hrun; [|apply satisfied_outside_entry].
      apply fill_defaults_dom in Hf as [_ Hsub].
      unfold satisfies_all in *. rewrite Forall_forall in *.
      intros c Hin. eapply is_clause_satisfied_mono; [exact Hsub|].
      by apply Hrun.
    + intros [= <-]. done.
Qed.

(** ** Satisfied, contradicted and open clauses *)

Lemma dpll_is_satisfied_eq c (a : gmap Z bool) :
  SimpleDPLLSolver._is_satisfied c a = is_clause_satisfied c a.
Proof.
  induction c as [|lit rest IH]; [reflexivity|].
  simpl. rewrite IH. unfold literal_holds.
  destruct (a !! Z.abs lit) as [v|] eqn:Hv.
  - rewrite bool_decide_eq_true_2 by (apply elem_of_dom; eauto). reflexivity.
  - rewrite bool_decide_eq_false_2; [reflexivity|]. by rewrite not_elem_of_dom.
Qed.

Lemma is_clause_contradiction_iff c (a : gmap Z bool) :
  GoalOriented._is_clause_contradiction c a = true ↔ falsified c a.
Proof.
  unfold falsified. induction c as [|lit c IH]; simpl.
  - split; [|done]. intros _ lit Hl. by apply elem_of_nil in Hl.
  - destruct (a !! Z.abs lit) as [v|] eqn:Hv.
    + fold (literal_holds lit v). destruct (literal_holds lit v) eqn:Hh.
      * split; [done|]. intros Hall. destruct (Hall lit) as (v' & Hv' & Hf);
          [by left|]. congruence.
      * rewrite IH. split.
        -- intros Hall l [->|Hl]%elem_of_cons; [eauto|by apply Hall].
        -- intros Hall l Hl. apply Hall. by right.
    + split; [done|]. intros Hall. destruct (Hall lit) as (v' & Hv' & _);
        [by left|]. congruence.
Qed.

Lemma falsified_not_satisfied c (a σ : gmap Z bool) :
  falsified c a → a ⊆ σ → is_clause_satisfied c σ = false.
Proof.
  intros Hf Hsub. apply not_true_is_false. rewrite is_clause_satisfied_iff.
  intros (lit & Hl & Ht). destruct (Hf lit Hl) as (v & Hv & Hh).
  pose proof (lookup_weaken _ _ _ _ Hv Hsub) as Hσ.
  assert (literal_holds lit v = true); [|congruence].
  apply literal_holds_spec. unfold makes_true in Ht. rewrite Hσ in Ht.
  destruct Ht as [[? [= ->]]|[? [= ->]]]; auto.
Qed.

Lemma unsatisfied_literal_false c (a : gmap Z bool) lit v :
  is_clause_satisfied c a = false → lit ∈ c → a !! Z.abs lit = Some v →
  literal_holds lit v = false.
Proof.
  intros Hc Hl Hv. apply not_true_is_false. intros Hh.
  assert (is_clause_satisfied c a = true); [|congruence].
  apply is_clause_satisfied_iff. exists lit. split; [done|].
  apply literal_holds_spec in Hh. unfold makes_true. rewrite Hv.
  destruct Hh as [[? ->]|[? ->]]; auto.
Qed.

(** X1. Extending an assignment never unsatisfies a clause: a clause that
    [is_clause_satisfied] accepts under an assignment is accepted under
    every assignment that agrees with it on its keys. *)
Theorem satisfaction_monotone (c : clause) (a a' : gmap Z bool) :
  a ⊆ a' → is_clause_satisfied c a = true → is_clause_satisfied c a' = true.
Proof. apply is_clause_satisfied_mono. Qed.

Lemma satisfaction_monotone_witness :
  is_clause_satisfied [1; -2] (<[3 := false]> (<[1 := true]> ∅)) = true.
Proof.
  apply (satisfaction_monotone [1; -2] (<[1 := true]> ∅)).
  - apply insert_subseteq. reflexivity.
  - reflexivity.
Defined.

(** X2. [_is_clause_contradiction] answers [true] exactly when every
    literal of the clause is assigned the value that makes it false; such
    a clause is unsatisfied, and stays unsatisfied under every extension of
    the assignment.  A clause that is neither satisfied nor contradicted
    has a literal whose variable is unassigned. *)
Theorem contradiction_semantics (c : clause) (a : gmap Z bool) :
  (GoalOriented._is_clause_contradiction c a = true ↔ falsified c a) ∧
  (GoalOriented._is_clause_contradiction c a = true →
   ∀ σ, a ⊆ σ → is_clause_satisfied c σ = false) ∧
  (is_clause_satisfied c a = false →
   GoalOriented._is_clause_contradiction c a = false →
   ∃ lit, lit ∈ c ∧ a !! Z.abs lit = None).
Proof.
  split; [apply is_clause_contradiction_iff|]. split.
  - intros Hc σ Hsub. apply is_clause_contradiction_iff in Hc.
    by eapply falsified_not_satisfied.
  - intros Hs Hc. induction c as [|lit c IH]; simpl in *; [done|].
    destruct (a !! Z.abs lit) as [v|] eqn:Hv.
    + destruct (((0 <? lit) && v) || ((lit <? 0) && negb v)); [done|].
      destruct (IH Hs Hc) as (l & Hl & Hopen). exists l. split; [by right|done].
    + exists lit. split; [by left|done].
Qed.

Lemma contradiction_semantics_witness :
  is_clause_satisfied [1; -2] (<[3 := true]> (<[2 := true]> (<[1 := false]> ∅)))
    = false.
Proof.
  destruct (contradiction_semantics [1; -2] (<[2 := true]> (<[1 := false]> ∅)))
    as (_ & Hext & _).
  apply Hext; [reflexivity|]. apply insert_subseteq. reflexivity.
Defined.

Lemma scan_clause_contradiction c (a : gmap Z bool) :
  (let '(all_false, has_unassigned) := SimpleDPLLSolver.scan_clause c a in
   all_false && negb has_unassigned)
  = GoalOriented._is_clause_contradiction c a.
Proof.
  induction c as [|lit c IH]; simpl; [done|].
  destruct (a !! Z.abs lit) as [v|]; [|done].
  fold (literal_holds lit v). destruct (literal_holds lit v); [done|exact IH].
Qed.

Lemma has_conflict_check cls (a : gmap Z bool) :
  SimpleDPLLSolver._has_conflict cls a
  = GoalOriented._check_for_contradiction cls a.
Proof.
  induction cls as [|c cls IH]; simpl; [done|].
  rewrite <- scan_clause_contradiction, IH.
  by destruct (SimpleDPLLSolver.scan_clause c a).
Qed.

Lemma check_for_contradiction_true cls (a : gmap Z bool) :
  GoalOriented._check_for_contradiction cls a = true →
  ∃ c, c ∈ cls ∧ falsified c a.
Proof.
  induction cls as [|c cls IH]; simpl; [done|].
  destruct (GoalOriented._is_clause_contradiction c a) eqn:Hc.
  - intros _. exists c. split; [by left|by apply is_clause_contradiction_iff].
  - intros (c' & ? & ?)%IH. exists c'. split; [by right|done].
Qed.

Lemma check_for_contradiction_false cls (a : gmap Z bool) c :
  GoalOriented._check_for_contradiction cls a = false → c ∈ cls →
  GoalOriented._is_clause_contradiction c a = false.
Proof.
  induction cls as [|c' cls IH]; simpl; [by intros _ ?%elem_of_nil|].
  destruct (GoalOriented._is_clause_contradiction c' a) eqn:Hc; [done|].
  intros Hrest [->|Hin]%elem_of_cons; [done|by apply IH].
Qed.

Lemma contradiction_unsatisfiable cls (a σ : gmap Z bool) :
  GoalOriented._check_for_contradiction cls a = true → a ⊆ σ →
  ¬ satisfies_all cls σ.
Proof.
  intros (c & Hc & Hf)%check_for_contradiction_true Hsub Hall.
  unfold satisfies_all in Hall. rewrite Forall_forall in Hall.
  specialize (Hall c Hc).
  rewrite (falsified_not_satisfied c a σ Hf Hsub) in Hall. done.
Qed.

Lemma open_literal_exists c (a : gmap Z bool) :
  is_clause_satisfied c a = false →
  GoalOriented._is_clause_contradiction c a = false →
  ∃ lit, lit ∈ c ∧ a !! Z.abs lit = None.
Proof.
  intros Hs Hc. induction c as [|lit c IH]; simpl in *; [done|].
  destruct (a !! Z.abs lit) as [v|] eqn:Hv.
  - destruct (((0 <? lit) && v) || ((lit <? 0) && negb v)); [done|].
    destruct (IH Hs Hc) as (l & Hl & Hopen). exists l. split; [by right|done].
  - exists lit. split; [by left|done].
Qed.

(** X3. The conflict check of the DPLL search and the contradiction check
    of the goal-oriented search agree on every clause list and every
    assignment. *)
Theorem conflict_checks_agree (cls : list clause) (a : gmap Z bool) :
  SimpleDPLLSolver._has_conflict cls a
  = GoalOriented._check_for_contradiction cls a.
Proof. apply has_conflict_check. Qed.

(** ** The verdict of the DPLL search *)

Lemma all_satisfied_iff cls (a : gmap Z bool) :
  SimpleDPLLSolver._all_satisfied cls a = true ↔ satisfies_all cls a.
Proof.
  unfold satisfies_all. induction cls as [|c cls IH]; simpl.
  - split; [constructor|done].
  - rewrite dpll_is_satisfied_eq.
    destruct (is_clause_satisfied c a) eqn:Hc; simpl.
    + rewrite IH. split; [by constructor|]. by intros ?%Forall_inv_tail.
    + split; [done|]. intros ?%Forall_inv. congruence.
Qed.

Lemma all_satisfied_false cls (a : gmap Z bool) :
  SimpleDPLLSolver._all_satisfied cls a = false →
  ∃ c, c ∈ cls ∧ is_clause_satisfied c a = false.
Proof.
  induction cls as [|c cls IH]; simpl; [done|].
  rewrite dpll_is_satisfied_eq.
  destruct (is_clause_satisfied c a) eqn:Hc; simpl.
  - intros (c' & ? & ?)%IH. exists c'. split; [by right|done].
  - intros _. exists c. split; [by left|done].
Qed.

(** *** Unit propagation assigns forced values only *)

Lemma find_unit_clause_forced cls (a : gmap Z bool) unit_clause :
  SimpleDPLLSolver._find_unit_clause cls a = Some unit_clause →
  ∃ lit c, unit_clause = [lit] ∧ c ∈ cls ∧ lit ∈ c ∧ a !! Z.abs lit = None ∧
           is_clause_satisfied c a = false ∧
           ∀ l, l ∈ c → a !! Z.abs l = None → l = lit.
Proof.
  induction cls as [|c cls IH]; simpl; [done|].
  rewrite dpll_is_satisfied_eq.
  destruct (is_clause_satisfied c a) eqn:Hsat.
  { intros (lit & c' & ? & ? & ?)%IH. exists lit, c'. split; [done|].
    split; [by right|done]. }
  destruct (length (SimpleDPLLSolver.unassigned_literals c a) =? 1)%nat
    eqn:Hlen.
  - intros [= <-]. apply Nat.eqb_eq in Hlen.
    destruct (SimpleDPLLSolver.unassigned_literals c a) as [|lit [|? ?]]
      eqn:Hun; simpl in Hlen; try lia.
    assert (∀ l, l ∈ c → a !! Z.abs l = None → l = lit) as Honly.
    { intros l Hl Hopen.
      assert (l ∈ SimpleDPLLSolver.unassigned_literals c a) as Hin.
      { unfold SimpleDPLLSolver.unassigned_literals.
        apply list_elem_of_filter. done. }
      rewrite Hun in Hin. by apply list_elem_of_singleton in Hin. }
    assert (lit ∈ SimpleDPLLSolver.unassigned_literals c a) as Hin
      by (rewrite Hun; by left).
    unfold SimpleDPLLSolver.unassigned_literals in Hin.
    apply list_elem_of_filter in Hin as [Hopen Hin].
    exists lit, c. split; [done|]. split; [by left|done].
  - intros (lit & c' & ? & ? & ?)%IH. exists lit, c'. split; [done|].
    split; [by right|done].
Qed.

Lemma makes_true_lookup (σ : gmap Z bool) lit :
  makes_true σ lit → σ !! Z.abs lit = Some (0 <? lit).
Proof.
  intros [[Hpos ->]|[Hneg ->]]; f_equal; symmetry.
  - by apply Z.ltb_lt.
  - apply Z.ltb_ge. lia.
Qed.

Lemma lookup_makes_true (σ : gmap Z bool) lit :
  lit ≠ 0 → σ !! Z.abs lit = Some (0 <? lit) → makes_true σ lit.
Proof.
  intros Hnz Hσ. unfold makes_true. rewrite Hσ.
  destruct (0 <? lit) eqn:Hpos; [left|right].
  - by apply Z.ltb_lt in Hpos.
  - apply Z.ltb_ge in Hpos. split; [lia|done].
Qed.

(** A clause that [a] leaves unsatisfied can only be satisfied, by an
    extension of [a], through a literal whose variable [a] leaves open. *)
Lemma satisfying_literal_open c (a σ : gmap Z bool) :
  is_clause_satisfied c a = false → a ⊆ σ → is_clause_satisfied c σ = true →
  ∃ lit, lit ∈ c ∧ a !! Z.abs lit = None ∧ makes_true σ lit.
Proof.
  intros Hun Hsub (lit & Hl & Ht)%is_clause_satisfied_iff.
  exists lit. split; [done|]. split; [|done].
  destruct (a !! Z.abs lit) as [v|] eqn:Hv; [|done]. exfalso.
  pose proof (unsatisfied_literal_false c a lit v Hun Hl Hv) as Hfalse.
  pose proof (lookup_weaken _ _ _ _ Hv Hsub) as Hσ.
  assert (literal_holds lit v = true); [|congruence].
  apply literal_holds_spec. unfold makes_true in Ht. rewrite Hσ in Ht.
  destruct Ht as [[? [= ->]]|[? [= ->]]]; auto.
Qed.

Lemma unit_propagation_forced iters cls (a : gmap Z bool) st how a' st' :
  SimpleDPLLSolver.unit_propagation iters cls a st = Done (how, a', st') →
  how = SimpleDPLLSolver.Break ∧ a ⊆ a' ∧
  SimpleDPLLSolver.conflicts st' = SimpleDPLLSolver.conflicts st ∧
  SimpleDPLLSolver._find_unit_clause cls a' = None ∧
  ∀ σ, a ⊆ σ → satisfies_all cls σ → a' ⊆ σ.
Proof.
  revert a st. induction iters as [|iters IH]; intros a st; simpl; [done|].
  destruct (SimpleDPLLSolver._find_unit_clause cls a) as [ul|] eqn:Hu.
  - apply find_unit_clause_forced in Hu
      as (lit & c & -> & Hc & Hl & Hopen & Hunsat & Honly).
    rewrite Hopen. intros Hrun.
    apply IH in Hrun as (-> & Hsub & Hconf & Hnone & Hforced).
    split; [done|]. split.
    { etrans; [|exact Hsub]. by apply insert_subseteq. }
    split; [done|]. split; [done|].
    intros σ Hσ Hall. apply Hforced; [|done].
    unfold satisfies_all in Hall. rewrite Forall_forall in Hall.
    destruct (satisfying_literal_open c a σ Hunsat Hσ (Hall c Hc))
      as (l & Hlc & Hlopen & Ht).
    rewrite (Honly l Hlc Hlopen) in Ht.
    apply insert_subseteq_l; [|done]. by apply makes_true_lookup.
  - intros [= <- <- <-]. done.
Qed.

(** *** The pure literal keeps satisfiability *)

Lemma polarity_step_mono (a : gmap Z bool) acc lit :
  acc.1 ⊆ (SimpleDPLLSolver.polarity_step a acc lit).1 ∧
  acc.2 ⊆ (SimpleDPLLSolver.polarity_step a acc lit).2.
Proof.
  unfold SimpleDPLLSolver.polarity_step.
  destruct (a !! Z.abs lit); [done|]. destruct (0 <? lit); simpl; set_solver.
Qed.

Lemma polarity_fold_mono (a : gmap Z bool) lits acc :
  acc.1 ⊆ (fold_left (SimpleDPLLSolver.polarity_step a) lits acc).1 ∧
  acc.2 ⊆ (fold_left (SimpleDPLLSolver.polarity_step a) lits acc).2.
Proof.
  revert acc. induction lits as [|lit lits IH]; intros acc; simpl; [done|].
  destruct (IH (SimpleDPLLSolver.polarity_step a acc lit)) as [H1 H2].
  destruct (polarity_step_mono a acc lit) as [H3 H4]. set_solver.
Qed.

Lemma polarity_fold_elem (a : gmap Z bool) lits acc lit :
  lit ∈ lits → a !! Z.abs lit = None →
  if 0 <? lit
  then Z.abs lit ∈ (fold_left (SimpleDPLLSolver.polarity_step a) lits acc).1
  else Z.abs lit ∈ (fold_left (SimpleDPLLSolver.polarity_step a) lits acc).2.
Proof.
  intros Hl Hopen. revert acc.
  induction lits as [|l lits IH]; intros acc; [by apply elem_of_nil in Hl|].
  simpl. apply elem_of_cons in Hl as [<-|Hl]; [|by apply IH].
  destruct (polarity_fold_mono a lits (SimpleDPLLSolver.polarity_step a acc lit))
    as [H1 H2].
  unfold SimpleDPLLSolver.polarity_step in *. rewrite Hopen in *.
  destruct (0 <? lit); simpl in *; set_solver.
Qed.

Lemma polarities_elem cls (a : gmap Z bool) c lit :
  c ∈ cls → is_clause_satisfied c a = false → lit ∈ c →
  a !! Z.abs lit = None →
  if 0 <? lit then Z.abs lit ∈ (SimpleDPLLSolver.polarities cls a).1
  else Z.abs lit ∈ (SimpleDPLLSolver.polarities cls a).2.
Proof.
  intros Hc Hunsat Hl Hopen. unfold SimpleDPLLSolver.polarities.
  set (step := fun acc c =>
         if SimpleDPLLSolver._is_satisfied c a then acc
         else fold_left (SimpleDPLLSolver.polarity_step a) c acc).
  assert (∀ rest acc, acc.1 ⊆ (fold_left step rest acc).1 ∧
                      acc.2 ⊆ (fold_left step rest acc).2) as Hmono.
  { induction rest as [|c' rest IH]; intros acc; simpl; [done|].
    destruct (IH (step acc c')) as [H1 H2].
    assert (acc.1 ⊆ (step acc c').1 ∧ acc.2 ⊆ (step acc c').2) as [H3 H4].
    { unfold step. destruct (SimpleDPLLSolver._is_satisfied c' a); [done|].
      apply polarity_fold_mono. }
    set_solver. }
  generalize (∅ : gset Z, ∅ : gset Z). revert Hc.
  induction cls as [|c' cls IH]; intros Hc acc; [by apply elem_of_nil in Hc|].
  simpl. apply elem_of_cons in Hc as [<-|Hc]; [|by apply IH].
  destruct (Hmono cls (step acc c)) as [H1 H2].
  pose proof (polarity_fold_elem a c acc lit Hl Hopen) as Hin.
  assert (step acc c = fold_left (SimpleDPLLSolver.polarity_step a) c acc)
    as Hstep by (unfold step; by rewrite dpll_is_satisfied_eq, Hunsat).
  rewrite Hstep in H1, H2 |- *.
  destruct (0 <? lit); [by apply H1|by apply H2].
Qed.

(** The pure literal found is open, and in every clause not yet satisfied
    each literal of its variable has its sign. *)
Lemma find_pure_literal_pure set_next cls (a : gmap Z bool) pure_literal :
  yields_element set_next →
  SimpleDPLLSolver._find_pure_literal set_next cls a = Some pure_literal →
  a !! Z.abs pure_literal = None ∧
  ∀ c lit, c ∈ cls → is_clause_satisfied c a = false → lit ∈ c →
           Z.abs lit = Z.abs pure_literal → (0 <? lit) = (0 <? pure_literal).
Proof.
  intros Hnext Hfind.
  destruct (find_pure_literal_open _ _ _ _ Hnext Hfind) as [_ Hopen].
  split; [done|]. intros c lit Hc Hunsat Hl Habs.
  assert (a !! Z.abs lit = None) as Hlopen by by rewrite Habs.
  pose proof (polarities_elem cls a c lit Hc Hunsat Hl Hlopen) as Hin.
  pose proof (polarities_open cls a) as Hvars.
  revert Hfind. unfold SimpleDPLLSolver._find_pure_literal.
  destruct (SimpleDPLLSolver.polarities cls a) as [pos neg]. simpl in *.
  destruct (decide (pos ∖ neg = ∅)) as [|Hpos].
  - destruct (decide (neg ∖ pos = ∅)) as [|Hneg]; [done|].
    intros [= <-]. pose proof (Hnext _ Hneg) as Hv.
    destruct (Hvars (set_next (neg ∖ pos))) as (H0 & _); [set_solver|].
    rewrite Z.abs_opp, (Z.abs_eq (set_next _)) in Habs by done.
    destruct (0 <? lit) eqn:Hsign.
    + exfalso. rewrite Habs in Hin. set_solver.
    + symmetry. apply Z.ltb_ge. lia.
  - intros [= <-]. pose proof (Hnext _ Hpos) as Hv.
    destruct (Hvars (set_next (pos ∖ neg))) as (H0 & _); [set_solver|].
    rewrite (Z.abs_eq (set_next _)) in Habs by done.
    destruct (0 <? lit) eqn:Hsign.
    + symmetry. apply Z.ltb_lt. apply Z.ltb_lt in Hsign. lia.
    + exfalso. rewrite Habs in Hin. set_solver.
Qed.

Lemma pure_literal_keeps_model cls (a σ : gmap Z bool) v b :
  a !! v = None →
  (∀ c lit, c ∈ cls → is_clause_satisfied c a = false → lit ∈ c →
            Z.abs lit = v → (0 <? lit) = b) →
  a ⊆ σ → satisfies_all cls σ →
  <[v := b]> a ⊆ <[v := b]> σ ∧ satisfies_all cls (<[v := b]> σ).
Proof.
  intros Hopen Hsign Hsub Hall. split; [by apply insert_mono|].
  unfold satisfies_all in *. rewrite Forall_forall in *. intros c Hc.
  destruct (is_clause_satisfied c a) eqn:Hca.
  - eapply is_clause_satisfied_mono; [|exact Hca].
    etrans; [|by apply insert_mono]. by apply insert_subseteq.
  - destruct (satisfying_literal_open c a σ Hca Hsub (Hall c Hc))
      as (lit & Hl & Hlopen & Ht).
    apply is_clause_satisfied_iff. exists lit. split; [done|].
    assert (lit ≠ 0) as Hnz by (destruct Ht as [[? _]|[? _]]; lia).
    apply lookup_makes_true; [done|].
    destruct (decide (Z.abs lit = v)) as [Hv|Hv].
    + rewrite Hv, lookup_insert_eq. f_equal. symmetry. by eapply Hsign.
    + rewrite lookup_insert_ne by done. by apply makes_true_lookup.
Qed.

(** *** The branching variable exists *)

Lemma count_up_nonempty var var_count :
  SimpleDPLLSolver.count_up var var_count ≠ [].
Proof.
  destruct var_count as [|[k n] rest]; simpl; [done|].
  by destruct (decide (k = var)).
Qed.

Lemma count_fold_nonempty (a : gmap Z bool) lits acc :
  acc ≠ [] → fold_left (SimpleDPLLSolver.count_step a) lits acc ≠ [].
Proof.
  revert acc. induction lits as [|lit lits IH]; intros acc Hacc; simpl; [done|].
  apply IH. unfold SimpleDPLLSolver.count_step.
  destruct (a !! Z.abs lit); [done|apply count_up_nonempty].
Qed.

Lemma count_fold_open (a : gmap Z bool) lits acc lit :
  lit ∈ lits → a !! Z.abs lit = None →
  fold_left (SimpleDPLLSolver.count_step a) lits acc ≠ [].
Proof.
  intros Hl Hopen. revert acc.
  induction lits as [|l lits IH]; intros acc; [by apply elem_of_nil in Hl|].
  simpl. apply elem_of_cons in Hl as [<-|Hl]; [|by apply IH].
  apply count_fold_nonempty. unfold SimpleDPLLSolver.count_step.
  rewrite Hopen. apply count_up_nonempty.
Qed.

Lemma variable_counts_nonempty cls (a : gmap Z bool) c lit :
  c ∈ cls → is_clause_satisfied c a = false → lit ∈ c →
  a !! Z.abs lit = None →
  SimpleDPLLSolver.variable_counts cls a ≠ [].
Proof.
  intros Hc Hunsat Hl Hopen. unfold SimpleDPLLSolver.variable_counts.
  set (step := fun acc c =>
         if SimpleDPLLSolver._is_satisfied c a then acc
         else fold_left (SimpleDPLLSolver.count_step a) c acc).
  assert (∀ rest acc, acc ≠ [] → fold_left step rest acc ≠ []) as Hkeep.
  { induction rest as [|c' rest IH]; intros acc Hacc; simpl; [done|].
    apply IH. unfold step. destruct (SimpleDPLLSolver._is_satisfied c' a);
      [done|by apply count_fold_nonempty]. }
  assert (∀ acc, fold_left step cls acc ≠ []) as Hall; [|apply Hall].
  revert Hc.
  induction cls as [|c' cls IH]; intros Hc acc; [by apply elem_of_nil in Hc|].
  simpl. apply elem_of_cons in Hc as [<-|Hc]; [|by apply IH].
  apply Hkeep. unfold step. rewrite dpll_is_satisfied_eq, Hunsat.
  by eapply count_fold_open.
Qed.

Lemma choose_variable_exists cls (a : gmap Z bool) :
  SimpleDPLLSolver._has_conflict cls a = false →
  SimpleDPLLSolver._all_satisfied cls a = false →
  SimpleDPLLSolver._choose_variable cls a ≠ None.
Proof.
  rewrite has_conflict_check. intros Hconf (c & Hc & Hunsat)%all_satisfied_false.
  pose proof (check_for_contradiction_false cls a c Hconf Hc) as Hnot.
  destruct (open_literal_exists c a Hunsat Hnot) as (lit & Hl & Hopen).
  pose proof (variable_counts_nonempty cls a c lit Hc Hunsat Hl Hopen) as Hne.
  unfold SimpleDPLLSolver._choose_variable.
  by destruct (SimpleDPLLSolver.variable_counts cls a).
Qed.

(** *** Both verdicts are right *)

Lemma dpll_true_satisfiable set_next depth iters cls (a : gmap Z bool) st
    a_out st' :
  yields_element set_next →
  SimpleDPLLSolver._dpll set_next depth iters cls a st
    = Done (true, a_out, st') →
  ∃ σ, a ⊆ σ ∧ satisfies_all cls σ.
Proof.
  intros Hnext. revert a st a_out st'.
  induction depth as [|depth IH]; intros a st a_out st'; simpl; [done|].
  destruct (SimpleDPLLSolver.unit_propagation iters cls a st)
    as [[[how a1] st1]| |] eqn:Hup; simpl; [|done|done].
  apply unit_propagation_forced in Hup as (-> & Hsub & _ & _ & _).
  destruct (SimpleDPLLSolver._has_conflict cls a1) eqn:Hconf; [done|].
  destruct (SimpleDPLLSolver._all_satisfied cls a1) eqn:Hall.
  { intros _. exists a1. split; [done|by apply all_satisfied_iff]. }
  destruct (SimpleDPLLSolver._find_pure_literal set_next cls a1)
    as [pl|] eqn:Hpure.
  { intros (σ & Hσ & Hsat)%IH. exists σ. split; [|done].
    destruct (find_pure_literal_open _ _ _ _ Hnext Hpure) as [_ Hopen].
    etrans; [exact Hsub|]. etrans; [|exact Hσ]. by apply insert_subseteq. }
  pose proof (choose_variable_exists cls a1 Hconf Hall) as Hsome.
  destruct (SimpleDPLLSolver._choose_variable cls a1) as [var|] eqn:Hvar;
    [|done].
  apply choose_variable_open in Hvar as [_ Hopen].
  destruct (SimpleDPLLSolver._dpll set_next depth iters cls
              (<[var := true]> a1) _) as [[[[] a2] st2]| |] eqn:Htrue; simpl;
    [| |done|done].
  { intros _. apply IH in Htrue as (σ & Hσ & Hsat). exists σ. split; [|done].
    etrans; [exact Hsub|]. etrans; [|exact Hσ]. by apply insert_subseteq. }
  destruct (SimpleDPLLSolver._dpll set_next depth iters cls
              (<[var := false]> (<[var := true]> a1)) _)
    as [[[[] a3] st3]| |] eqn:Hfalse; simpl; [| |done|done].
  - intros _. apply IH in Hfalse as (σ & Hσ & Hsat). exists σ. split; [|done].
    rewrite insert_insert_eq in Hσ.
    etrans; [exact Hsub|]. etrans; [|exact Hσ]. by apply insert_subseteq.
  - by rewrite lookup_insert_eq.
Qed.

Lemma dpll_false_unsatisfiable set_next depth iters cls (a : gmap Z bool) st
    a_out st' :
  yields_element set_next →
  SimpleDPLLSolver._dpll set_next depth iters cls a st
    = Done (false, a_out, st') →
  ∀ σ, a ⊆ σ → ¬ satisfies_all cls σ.
Proof.
  intros Hnext. revert a st a_out st'.
  induction depth as [|depth IH]; intros a st a_out st'; simpl; [done|].
  destruct (SimpleDPLLSolver.unit_propagation iters cls a st)
    as [[[how a1] st1]| |] eqn:Hup; simpl; [|done|done].
  apply unit_propagation_forced in Hup as (-> & _ & _ & _ & Hforced).
  intros Hrun σ Hσ Hsat. specialize (Hforced σ Hσ Hsat). revert Hrun.
  destruct (SimpleDPLLSolver._has_conflict cls a1) eqn:Hconf.
  { intros _. rewrite has_conflict_check in Hconf.
    by eapply contradiction_unsatisfiable. }
  destruct (SimpleDPLLSolver._all_satisfied cls a1) eqn:Hall; [done|].
  destruct (SimpleDPLLSolver._find_pure_literal set_next cls a1)
    as [pl|] eqn:Hpure.
  { intros Hrun.
    destruct (find_pure_literal_pure _ _ _ _ Hnext Hpure) as [Hopen Hsign].
    destruct (pure_literal_keeps_model cls a1 σ (Z.abs pl) (0 <? pl) Hopen)
      as [Hsub' Hsat']; [|done|done|].
    { intros c lit Hc Hun Hl Habs. by eapply Hsign. }
    by eapply IH. }
  destruct (SimpleDPLLSolver._choose_variable cls a1) as [var|] eqn:Hvar;
    [|done].
  apply choose_variable_open in Hvar as [_ Hopen].
  destruct (SimpleDPLLSolver._dpll set_next depth iters cls
              (<[var := true]> a1) _) as [[[[] a2] st2]| |] eqn:Htrue; simpl;
    [done| |done|done].
  destruct (SimpleDPLLSolver._dpll set_next depth iters cls
              (<[var := false]> (<[var := true]> a1)) _)
    as [[[[] a3] st3]| |] eqn:Hfalse; simpl; [done| |done|done].
  intros _. rewrite insert_insert_eq in Hfalse.
  destruct (σ !! var) as [[]|] eqn:Hv.
  - eapply (IH _ _ _ _ Htrue σ); [|done]. by apply insert_subseteq_l.
  - eapply (IH _ _ _ _ Hfalse σ); [|done]. by apply insert_subseteq_l.
  - eapply (IH _ _ _ _ Htrue (<[var := true]> σ)); [by apply insert_mono|].
    unfold satisfies_all in *. rewrite Forall_forall in *. intros c Hc.
    eapply is_clause_satisfied_mono; [|by apply Hsat].
    by apply insert_subseteq.
Qed.

(** X4. In [_dpll] two exits are never taken: the unit-propagation loop
    never ends in the conflict return (the literal it propagates always
    belongs to an unassigned variable, and the conflict counter is left
    as it was), and after the conflict and all-satisfied checks have both
    failed [_choose_variable] always finds a variable, so the return under
    [if var is None] is not reached. *)
Theorem dpll_unreachable_exits (iters : nat) (cls : list clause)
    (a : gmap Z bool) (st : SimpleDPLLSolver.statistics) :
  (∀ how a' st',
     SimpleDPLLSolver.unit_propagation iters cls a st = Done (how, a', st') →
     how = SimpleDPLLSolver.Break ∧
     SimpleDPLLSolver.conflicts st' = SimpleDPLLSolver.conflicts st) ∧
  (SimpleDPLLSolver._has_conflict cls a = false →
   SimpleDPLLSolver._all_satisfied cls a = false →
   ∃ var, SimpleDPLLSolver._choose_variable cls a = Some var ∧
          a !! var = None ∧ var ∈ variables_of cls).
Proof.
  split.
  - intros how a' st' Hrun.
    by apply unit_propagation_forced in Hrun as (? & _ & ? & _).
  - intros Hconf Hall.
    pose proof (choose_variable_exists cls a Hconf Hall) as Hsome.
    destruct (SimpleDPLLSolver._choose_variable cls a) as [var|] eqn:Hvar;
      [|done].
    exists var. split; [done|]. by apply choose_variable_open in Hvar as [? ?].
Qed.

Lemma dpll_unreachable_exits_witness :
  ∃ var, SimpleDPLLSolver._choose_variable (clauses example_cnf) ∅ = Some var ∧
         (∅ : gmap Z bool) !! var = None ∧
         var ∈ variables_of (clauses example_cnf).
Proof.
  destruct (dpll_unreachable_exits 1 (clauses example_cnf) ∅
              SimpleDPLLSolver.fresh_statistics) as [_ Hchoose].
  apply Hchoose; reflexivity.
Defined.

(** X5. When [SimpleDPLLSolver.solve] answers satisfiable, the formula is
    satisfiable: some assignment satisfies every clause (even where the
    dictionary handed back does not). *)
Theorem dpll_verdict_sound (set_next : gset Z → Z) (depth iters : nat)
    (cnf : CNFInstance) (a : option (gmap Z bool))
    (st : SimpleDPLLSolver.statistics) :
  yields_element set_next →
  SimpleDPLLSolver.solve set_next depth iters cnf = Done (true, a, st) →
  satisfiable (clauses cnf).
Proof.
  intros Hnext. unfold SimpleDPLLSolver.solve.
  destruct (SimpleDPLLSolver._dpll set_next depth iters (clauses cnf) ∅ _)
    as [[[[] a'] st']| |] eqn:Hrun; simpl; [|done|done|done].
  intros _. apply (dpll_true_satisfiable _ _ _ _ _ _ _ _ Hnext) in Hrun
    as (σ & _ & Hσ). by exists σ.
Qed.

Lemma dpll_verdict_sound_witness : satisfiable (clauses example_cnf).
Proof.
  apply (dpll_verdict_sound first_element 4 4 example_cnf
           (Some (<[1 := true]> ∅))
           {| SimpleDPLLSolver.decisions := 1;
              SimpleDPLLSolver.unit_propagations := 2;
              SimpleDPLLSolver.conflicts := 0;
              SimpleDPLLSolver.backtracks := 0 |}).
  - apply first_element_yields.
  - vm_compute. reflexivity.
Defined.

(** X6. When [SimpleDPLLSolver.solve] answers unsatisfiable, no assignment
    satisfies every clause. *)
Theorem dpll_verdict_complete (set_next : gset Z → Z) (depth iters : nat)
    (cnf : CNFInstance) (a : option (gmap Z bool))
    (st : SimpleDPLLSolver.statistics) :
  yields_element set_next →
  SimpleDPLLSolver.solve set_next depth iters cnf = Done (false, a, st) →
  ¬ satisfiable (clauses cnf).
Proof.
  intros Hnext. unfold SimpleDPLLSolver.solve.
  destruct (SimpleDPLLSolver._dpll set_next depth iters (clauses cnf) ∅ _)
    as [[[[] a'] st']| |] eqn:Hrun; simpl; [done| |done|done].
  intros _ [σ Hσ].
  eapply (dpll_false_unsatisfiable _ _ _ _ _ _ _ _ Hnext Hrun σ); [|done].
  apply map_empty_subseteq.
Qed.

Lemma dpll_verdict_complete_witness : ¬ satisfiable (clauses small_unsat_cnf).
Proof.
  eapply (dpll_verdict_complete first_element 4 4 small_unsat_cnf None).
  - apply first_element_yields.
  - vm_compute. reflexivity.
Defined.

(** ** The verdicts of the two clause-targeted searches *)

Lemma all_unsatisfied_head cls (a : gmap Z bool) unsat t target :
  all_unsatisfied cls a unsat → head unsat = Some t → cls !! t = Some target →
  target ∈ cls ∧ is_clause_satisfied target a = false.
Proof.
  intros Hall Hhead Htarget. split; [by eapply list_elem_of_lookup_2|].
  destruct (Hall t) as (c & Hc & Hun).
  { destruct unsat; simplify_eq/=. by left. }
  congruence.
Qed.

(** An extension of [a] that satisfies the target clause makes one of its
    open literals true, and so extends the assignment one branch tries. *)
Lemma satisfying_branch cls (a σ : gmap Z bool) target :
  target ∈ cls → is_clause_satisfied target a = false → a ⊆ σ →
  satisfies_all cls σ →
  ∃ lit, lit ∈ target ∧ a !! Z.abs lit = None ∧
         <[Z.abs lit := 0 <? lit]> a ⊆ σ.
Proof.
  intros Hin Hun Hsub Hall.
  unfold satisfies_all in Hall. rewrite Forall_forall in Hall.
  destruct (satisfying_literal_open target a σ Hun Hsub (Hall _ Hin))
    as (lit & Hl & Hopen & Ht).
  exists lit. split; [done|]. split; [done|].
  apply insert_subseteq_l; [|done]. by apply makes_true_lookup.
Qed.

Lemma try_literals_None recur lits (a : gmap Z bool) cls unsat st st' lit :
  Backward.try_literals recur lits a cls unsat st = Done (None, st') →
  lit ∈ lits → a !! Z.abs lit = None →
  ∃ nu st0 st1,
    _get_unsatisfied_clause_indices cls (<[Z.abs lit := 0 <? lit]> a) unsat
      = Done nu ∧
    recur (<[Z.abs lit := 0 <? lit]> a) cls nu st0 = Done (None, st1).
Proof.
  revert st. induction lits as [|l lits IH]; intros st Hrun Hl Hopen;
    [by apply elem_of_nil in Hl|].
  simpl in Hrun.
  destruct (Backward.consistency_check a (Z.abs l) (0 <? l)) eqn:Hcc.
  { apply elem_of_cons in Hl as [->|Hl]; [|by eapply IH].
    rewrite (proj2 (consistency_check_None a (Z.abs l) (0 <? l)) Hopen) in Hcc.
    done. }
  destruct (_get_unsatisfied_clause_indices cls (<[Z.abs l := 0 <? l]> a)
              unsat) as [nu| |] eqn:Hnu; simpl in Hrun; [|done|done].
  destruct (recur _ cls nu st) as [[[r|] st1]| |] eqn:Hr; simpl in Hrun;
    [done| |done|done].
  apply elem_of_cons in Hl as [->|Hl]; [eauto|by eapply IH].
Qed.

Lemma find_solution_recursive_complete depth cls (a : gmap Z bool) unsat st
    st' :
  all_unsatisfied cls a unsat →
  Backward._find_solution_recursive depth a cls unsat st = Done (None, st') →
  ∀ σ, a ⊆ σ → ¬ satisfies_all cls σ.
Proof.
  revert a unsat st st'.
  induction depth as [|depth IH]; intros a unsat st st' Hall; simpl; [done|].
  destruct unsat as [|t rest] eqn:Hu; [done|]. rewrite <- Hu in *.
  destruct (list_getitem cls t) as [target| |] eqn:Ht; simpl; [|done|done].
  apply list_getitem_Done in Ht. intros Hrun σ Hσ Hsat.
  destruct (all_unsatisfied_head cls a unsat t target Hall) as [Hin Hun];
    [by rewrite Hu|done|].
  destruct (satisfying_branch cls a σ target Hin Hun Hσ Hsat)
    as (lit & Hl & Hopen & Hext).
  destruct (try_literals_None _ _ _ _ _ _ _ lit Hrun Hl Hopen)
    as (nu & st0 & st1 & Hnu & Hrec).
  eapply (IH _ _ _ _ (get_unsatisfied_all_unsatisfied _ _ _ _ Hnu) Hrec σ);
    done.
Qed.

Lemma branch_literals_None recur lits cls (a : gmap Z bool) types unsat st n
    st' lit :
  GoalOriented.branch_literals recur lits cls a types unsat st n
    = Done (None, st') →
  lit ∈ lits → a !! Z.abs lit = None →
  GoalOriented._check_for_contradiction cls (<[Z.abs lit := 0 <? lit]> a)
    = true ∨
  ∃ nu types0 st0 st1,
    _get_unsatisfied_clause_indices cls (<[Z.abs lit := 0 <? lit]> a) unsat
      = Done nu ∧
    recur (<[Z.abs lit := 0 <? lit]> a) types0 cls nu st0 n = Done (None, st1).
Proof.
  revert st. induction lits as [|l lits IH]; intros st Hrun Hl Hopen;
    [by apply elem_of_nil in Hl|].
  simpl in Hrun. destruct (a !! Z.abs l) eqn:Hlo.
  { apply elem_of_cons in Hl as [->|Hl]; [congruence|by eapply IH]. }
  destruct (_get_unsatisfied_clause_indices cls (<[Z.abs l := 0 <? l]> a)
              unsat) as [nu| |] eqn:Hnu; simpl in Hrun; [|done|done].
  destruct (GoalOriented._check_for_contradiction cls
              (<[Z.abs l := 0 <? l]> a)) eqn:Hcontra.
  { apply elem_of_cons in Hl as [->|Hl]; [by left|by eapply IH]. }
  destruct (recur _ _ cls nu st n) as [[[r|] st1]| |] eqn:Hr; simpl in Hrun;
    [done| |done|done].
  apply elem_of_cons in Hl as [->|Hl]; [right; eauto 10|by eapply IH].
Qed.

Lemma heuristic_scan_None recur vars (a : gmap Z bool) types cls unsat st n f
    st' :
  GoalOriented.heuristic_scan recur vars a types cls unsat st n f
    = Done (None, st') →
  ∃ t target st0,
    head unsat = Some t ∧ cls !! t = Some target ∧
    GoalOriented.branch_literals recur target cls a types unsat st0 n
      = Done (None, st').
Proof.
  revert st. induction vars as [|v vars IH]; intros st; simpl.
  - destruct unsat as [|t rest] eqn:Hu; [done|]. rewrite <- Hu.
    unfold GoalOriented._try_branch_on_target_clause.
    destruct (list_getitem cls t) as [target| |] eqn:Ht; simpl; [|done|done].
    apply list_getitem_Done in Ht. intros Hrun.
    exists t, target, (GoalOriented.count_branch_choice st).
    split; [by rewrite Hu|done].
  - destruct (GoalOriented._apply_heuristic_for_variable _ _ _ _ _ _ _ _ _)
      as [[[r|] st1]| |]; simpl; [done|apply IH|done|done].
Qed.

Lemma recursive_solve_complete depth cls (a : gmap Z bool) types unsat st n
    st' :
  all_unsatisfied cls a unsat →
  GoalOriented._recursive_solve_with_heuristic depth a types cls unsat st n
    = Done (None, st') →
  ∀ σ, a ⊆ σ → ¬ satisfies_all cls σ.
Proof.
  revert a types unsat st st'.
  induction depth as [|depth IH]; intros a types unsat st st' Hall; simpl;
    [done|].
  destruct unsat as [|t0 rest] eqn:Hu; [done|]. rewrite <- Hu in *.
  intros (t & target & st0 & Hhead & Htarget & Hrun)%heuristic_scan_None
    σ Hσ Hsat.
  destruct (all_unsatisfied_head cls a unsat t target Hall Hhead Htarget)
    as [Hin Hun].
  destruct (satisfying_branch cls a σ target Hin Hun Hσ Hsat)
    as (lit & Hl & Hopen & Hext).
  destruct (branch_literals_None _ _ _ _ _ _ _ _ _ lit Hrun Hl Hopen)
    as [Hcontra|(nu & ty & st1 & st2 & Hnu & Hrec)].
  - by eapply contradiction_unsatisfiable.
  - eapply (IH _ _ _ _ _ (get_unsatisfied_all_unsatisfied _ _ _ _ Hnu) Hrec σ);
      done.
Qed.

(** X7. When the clause variables lie in [1 .. num_variables], every
    assignment [solve_3sat_backward] returns satisfies every clause. *)
Theorem backward_assignment_sound (depth : nat) (n : Z) (cls : list clause)
    (sol : gmap Z bool) (st : Backward.stats) :
  in_range n cls →
  Backward.solve_3sat_backward depth n cls = Done (Some sol, st) →
  satisfies_all cls sol.
Proof.
  intros Hr Hrun.
  destruct (clause_targeted_searches_sound depth n cls) as [Hback _].
  by eapply Hback.
Qed.

Lemma backward_assignment_sound_witness :
  ∃ sol st, Backward.solve_3sat_backward 6 5 original_5_var
              = Done (Some sol, st) ∧ satisfies_all original_5_var sol.
Proof.
  eexists _, _. split; [vm_compute; reflexivity|].
  eapply (backward_assignment_sound 6 5 original_5_var).
  - apply in_range_check. reflexivity.
  - vm_compute. reflexivity.
Defined.

(** X8. The verdict of [solve_3sat_backward] is right on every formula:
    it returns an assignment exactly when the clauses are satisfiable, and
    [None] exactly when they are not. *)
Theorem backward_verdict_correct (depth : nat) (n : Z) (cls : list clause)
    (r : option (gmap Z bool)) (st : Backward.stats) :
  Backward.solve_3sat_backward depth n cls = Done (r, st) →
  (is_Some r ↔ satisfiable cls) ∧ (r = None ↔ ¬ satisfiable cls).
Proof.
  unfold Backward.solve_3sat_backward.
  destruct (Backward._find_solution_recursive depth ∅ cls _ _)
    as [[[found|] st0]| |] eqn:Hrun; simpl; [| |done|done].
  - destruct (Backward.complete _ _ _ _) as [cs d]. intros [= <- _].
    apply find_solution_recursive_sound in Hrun;
      [|apply satisfied_outside_entry].
    assert (satisfiable cls) as Hsat by by exists found.
    split; split; intros H; try done; eauto.
  - intros [= <- _].
    assert (¬ satisfiable cls) as Hunsat.
    { intros [σ Hσ].
      eapply (find_solution_recursive_complete _ _ _ _ _ _
                (all_unsatisfied_entry cls) Hrun σ); [|done].
      apply map_empty_subseteq. }
    split; split; intros H; try done; try (by destruct H).
Qed.

Lemma backward_verdict_correct_witness : ¬ satisfiable small_unsat.
Proof.
  eapply (backward_verdict_correct 4 3 small_unsat None);
    [vm_compute; reflexivity|reflexivity].
Defined.

(** X9. Every solution [solve_3sat_goal_oriented] reports satisfies every
    clause, whatever the declared number of variables. *)
Theorem goal_oriented_solution_sound (depth : nat) (n : Z)
    (cls : list clause) (r : GoalOriented.report) :
  GoalOriented.solve_3sat_goal_oriented depth n cls = Done (tt, r) →
  GoalOriented.report_status r = SATISFIABLE →
  satisfies_all cls (GoalOriented.report_solution r).
Proof.
  destruct (clause_targeted_searches_sound depth n cls) as [_ Hgoal].
  apply Hgoal.
Qed.

Lemma goal_oriented_solution_sound_witness :
  ∃ r, GoalOriented.solve_3sat_goal_oriented 3 1 [[2]] = Done (tt, r) ∧
       satisfies_all [[2]] (GoalOriented.report_solution r).
Proof.
  eexists. split; [vm_compute; reflexivity|].
  eapply (goal_oriented_solution_sound 3 1 [[2]]);
    [vm_compute; reflexivity|reflexivity].
Defined.

(** X10. The status [solve_3sat_goal_oriented] reports is right on every
    formula: SATISFIABLE exactly when the clauses are satisfiable. *)
Theorem goal_oriented_verdict_correct (depth : nat) (n : Z)
    (cls : list clause) (r : GoalOriented.report) :
  GoalOriented.solve_3sat_goal_oriented depth n cls = Done (tt, r) →
  (GoalOriented.report_status r = SATISFIABLE ↔ satisfiable cls) ∧
  (GoalOriented.report_status r = UNSATISFIABLE ↔ ¬ satisfiable cls).
Proof.
  unfold GoalOriented.solve_3sat_goal_oriented.
  destruct (GoalOriented._recursive_solve_with_heuristic depth ∅ ∅ cls _ _ n)
    as [[[[found types]|] st0]| |] eqn:Hrun; simpl; [| |done|done].
  - destruct (GoalOriented.fill_defaults _ _ _ _) as [[sol' types'] st'].
    intros [= <-]. simpl.
    apply recursive_solve_sound in Hrun; [|apply satisfied_outside_entry].
    assert (satisfiable cls) as Hsat by by exists found.
    split; split; done.
  - intros [= <-]. simpl.
    assert (¬ satisfiable cls) as Hunsat.
    { intros [σ Hσ].
      eapply (recursive_solve_complete _ _ _ _ _ _ _ _
                (all_unsatisfied_entry cls) Hrun σ); [|done].
      apply map_empty_subseteq. }
    split; split; done.
Qed.

Lemma goal_oriented_verdict_correct_witness : ¬ satisfiable small_unsat.
Proof.
  eapply (goal_oriented_verdict_correct 4 3 small_unsat);
    [vm_compute; reflexivity|reflexivity].
Defined.

(** ** Bookkeeping of the backward search *)

Lemma try_literals_accounting recur lits (a : gmap Z bool) cls unsat st r st' :
  (∀ lit nu st0 r1 st1,
     a !! Z.abs lit = None →
     recur (<[Z.abs lit := 0 <? lit]> a) cls nu st0 = Done (r1, st1) →
     call_accounting (<[Z.abs lit := 0 <? lit]> a) st0 st1 r1) →
  Backward.try_literals recur lits a cls unsat st = Done (r, st') →
  loop_accounting a st st' r.
Proof.
  intros Hrec. revert st.
  induction lits as [|lit lits IH]; intros st; simpl.
  - intros [= <- <-]. unfold loop_accounting. simpl. split; [done|]. lia.
  - destruct (Backward.consistency_check a (Z.abs lit) (0 <? lit)) eqn:Hcc;
      [apply IH|].
    apply consistency_check_None in Hcc.
    destruct (_get_unsatisfied_clause_indices cls _ unsat) as [nu| |];
      simpl; [|done|done].
    destruct (recur _ cls nu st) as [[[sol|] st1]| |] eqn:Hr; simpl;
      [| |done|done].
    + intros [= <- <-]. apply (Hrec _ _ _ _ _ Hcc) in Hr.
      destruct Hr as (Hd & Hcalls & Hsize & Hsub).
      unfold loop_accounting. simpl. split; [done|].
      rewrite map_size_insert_None in Hsize by done.
      split; [lia|]. split; [lia|].
      etrans; [|exact Hsub]. by apply insert_subseteq.
    + intros Hrest. apply (Hrec _ _ _ _ _ Hcc) in Hr.
      destruct Hr as (Hd & Hcalls & Hbc).
      apply IH in Hrest. destruct Hrest as [Hd' Hrest].
      unfold loop_accounting. split; [congruence|].
      destruct r as [sol|]; [|lia].
      destruct Hrest as (? & ? & ?). split; [lia|]. split; [lia|done].
Qed.

Lemma find_solution_recursive_accounting depth (a : gmap Z bool) cls unsat st
    r st' :
  Backward._find_solution_recursive depth a cls unsat st = Done (r, st') →
  call_accounting a st st' r.
Proof.
  revert a unsat st r st'.
  induction depth as [|depth IH]; intros a unsat st r st'; simpl; [done|].
  destruct unsat as [|t rest] eqn:Hu.
  { intros [= <- <-]. unfold call_accounting. simpl. split; [done|].
    split; [lia|]. split; [lia|done]. }
  destruct (list_getitem cls t) as [target| |]; simpl; [|done|done].
  intros Hloop. apply try_literals_accounting in Hloop.
  - destruct Hloop as [Hd Hloop]. split; [done|]. simpl in Hloop.
    destruct r as [sol|]; [|lia].
    destruct Hloop as (? & ? & ?). split; [lia|]. split; [lia|done].
  - intros lit nu st0 r1 st1 _. apply IH.
Qed.

Lemma complete_defaulted vars (sol acc : gmap Z bool) d cs d' :
  Backward.complete vars sol acc d = (cs, d') →
  d' = d ++ filter (fun v => sol !! v = None) vars.
Proof.
  revert acc d. induction vars as [|v vars IH]; intros acc d; simpl.
  - intros [= _ <-]. by rewrite app_nil_r.
  - destruct (sol !! v) as [b|] eqn:Hv; intros Hc; apply IH in Hc as ->.
    + rewrite filter_cons_False; [done|]. by rewrite Hv.
    + rewrite filter_cons_True by done. by rewrite <- app_assoc.
Qed.

(** X11. The counters [solve_3sat_backward] returns add up: when it finds
    an assignment, [recursive_calls = backtracks + branch_choices_count + 1]
    and [branch_choices_count] is the number of variables the search
    assigned; when it finds none, every call was backtracked,
    [recursive_calls = backtracks], and no branch choice is counted. *)
Theorem backward_statistics_accounting (depth : nat) (n : Z)
    (cls : list clause) (r : option (gmap Z bool)) (st : Backward.stats) :
  Backward.solve_3sat_backward depth n cls = Done (r, st) →
  match r with
  | Some _ =>
      Backward.recursive_calls st
        = (Backward.backtracks st + Backward.branch_choices_count st + 1)%nat ∧
      ∃ found st0,
        Backward._find_solution_recursive depth ∅ cls (seq 0 (length cls))
          (Backward.fresh_stats n cls) = Done (Some found, st0) ∧
        Backward.branch_choices_count st = size found
  | None =>
      Backward.recursive_calls st = Backward.backtracks st ∧
      Backward.branch_choices_count st = 0%nat
  end.
Proof.
  unfold Backward.solve_3sat_backward.
  destruct (Backward._find_solution_recursive depth ∅ cls _ _)
    as [[[found|] st0]| |] eqn:Hrun; simpl; [| |done|done];
    apply find_solution_recursive_accounting in Hrun as [_ Hacc];
    simpl in Hacc.
  - destruct (Backward.complete _ _ _ _) as [cs d]. intros [= <- <-]. simpl.
    destruct Hacc as (Hcalls & Hsize & _). rewrite map_size_empty in Hsize.
    split; [lia|]. exists found, st0. split; [done|lia].
  - intros [= <- <-]. simpl. lia.
Qed.

Lemma backward_statistics_accounting_witness :
  ∃ st, Backward.solve_3sat_backward 4 3 small_unsat = Done (None, st) ∧
        Backward.recursive_calls st = Backward.backtracks st.
Proof.
  eexists. split; [vm_compute; reflexivity|].
  eapply (backward_statistics_accounting 4 3 small_unsat None).
  vm_compute. reflexivity.
Defined.

(** X12. When [solve_3sat_backward] returns an assignment, the statistics
    carry that assignment with the status SATISFIABLE, and
    [defaulted_variables] lists, in increasing order, exactly the
    variables of [1 .. num_variables] that the search left unassigned;
    each of them is [false] in the returned assignment. *)
Theorem backward_defaulted_variables (depth : nat) (n : Z)
    (cls : list clause) (sol : gmap Z bool) (st : Backward.stats) :
  Backward.solve_3sat_backward depth n cls = Done (Some sol, st) →
  Backward.status st = Some SATISFIABLE ∧
  Backward.solution st = Some sol ∧
  ∃ found st0,
    Backward._find_solution_recursive depth ∅ cls (seq 0 (length cls))
      (Backward.fresh_stats n cls) = Done (Some found, st0) ∧
    Backward.defaulted_variables st
      = filter (fun v => found !! v = None) (seqZ 1 n) ∧
    ∀ v, v ∈ Backward.defaulted_variables st → sol !! v = Some false.
Proof.
  unfold Backward.solve_3sat_backward.
  destruct (Backward._find_solution_recursive depth ∅ cls _ _)
    as [[[found|] st0]| |] eqn:Hrun; simpl; [|done|done|done].
  pose proof (find_solution_recursive_accounting _ _ _ _ _ _ _ Hrun)
    as [Hd _]. simpl in Hd.
  destruct (Backward.complete _ _ _ _) as [cs d] eqn:Hc.
  intros [= <- <-]. simpl. split; [done|]. split; [done|].
  exists found, st0. split; [done|].
  pose proof (complete_defaulted _ _ _ _ _ _ Hc) as ->. rewrite Hd. simpl.
  split; [done|]. intros v [Hopen Hv]%list_elem_of_filter.
  rewrite (complete_lookup _ _ _ _ _ _ v Hc), decide_True by done.
  by rewrite Hopen.
Qed.

Lemma backward_defaulted_variables_witness :
  ∃ sol st,
    Backward.solve_3sat_backward 6 5 original_5_var = Done (Some sol, st) ∧
    Backward.status st = Some SATISFIABLE.
Proof.
  eexists _, _. split; [vm_compute; reflexivity|].
  eapply (backward_defaulted_variables 6 5 original_5_var).
  vm_compute. reflexivity.
Defined.

(** ** Bookkeeping of the goal-oriented search *)

Lemma labelled_insert (a : gmap Z bool) types v b ty :
  labelled a types → ty ≠ GoalOriented.Defaulted →
  labelled (<[v := b]> a) (<[v := ty]> types).
Proof.
  intros [Hdom Hno] Hty. split.
  - rewrite !dom_insert_L. by rewrite Hdom.
  - intros u. destruct (decide (u = v)) as [->|Hne].
    + rewrite lookup_insert_eq. congruence.
    + rewrite lookup_insert_ne by done. apply Hno.
Qed.

Lemma branch_literals_bookkeeping recur lits cls (a : gmap Z bool) types unsat
    st n r :
  (∀ lit nu st0 r1,
     recur (<[Z.abs lit := 0 <? lit]> a)
       (<[Z.abs lit := GoalOriented.BranchSet]> types) cls nu st0 n = Done r1 →
     search_bookkeeping st0 r1) →
  GoalOriented.branch_literals recur lits cls a types unsat st n = Done r →
  search_bookkeeping st r.
Proof.
  intros Hrec. revert st.
  induction lits as [|lit lits IH]; intros st; simpl.
  - intros [= <-]. split; [done|]. intros ? ? [=].
  - destruct (a !! Z.abs lit); [apply IH|].
    destruct (_get_unsatisfied_clause_indices cls _ unsat) as [nu| |];
      simpl; [|done|done].
    destruct (GoalOriented._check_for_contradiction cls _).
    { intros [Hd Hl]%IH. split; [done|done]. }
    destruct (recur _ _ cls nu st n) as [[[r1|] st1]| |] eqn:Hr; simpl;
      [| |done|done].
    + intros [= <-]. by apply Hrec in Hr.
    + apply Hrec in Hr as [Hd _]. simpl in Hd.
      intros [Hd' Hl]%IH. split; [congruence|done].
Qed.

Lemma heuristic_scan_bookkeeping recur vars (a : gmap Z bool) types cls unsat
    st n f r :
  labelled a types →
  (∀ v b ty rem st0 r1,
     ty ≠ GoalOriented.Defaulted →
     recur (<[v := b]> a) (<[v := ty]> types) cls rem st0 n = Done r1 →
     search_bookkeeping st0 r1) →
  GoalOriented.heuristic_scan recur vars a types cls unsat st n f = Done r →
  search_bookkeeping st r.
Proof.
  intros Hlab Hrec. revert st.
  induction vars as [|v vars IH]; intros st; simpl.
  - destruct unsat as [|t rest] eqn:Hu.
    { intros [= <-]. split; [done|]. by intros ? ? [= <- <-]. }
    rewrite <- Hu. unfold GoalOriented._try_branch_on_target_clause.
    destruct (list_getitem cls t) as [target| |]; simpl; [|done|done].
    intros Hrun. apply branch_literals_bookkeeping in Hrun; [done|].
    intros lit nu st0 r1. by apply Hrec.
  - rewrite apply_heuristic_forced_choice.
    destruct (forced_choice v a cls unsat f) as [[[value rem]|]| |];
      simpl; [| |done|done].
    + destruct (recur _ _ cls rem _ n) as [[[r1|] st1]| |] eqn:Hr; simpl;
        [| |done|done].
      * intros [= <-]. by apply Hrec in Hr.
      * apply Hrec in Hr as [Hd _]; [|done]. simpl in Hd.
        intros [Hd' Hl]%IH. split; [congruence|done].
    + apply IH.
Qed.

Lemma recursive_solve_bookkeeping depth (a : gmap Z bool) types cls unsat st n
    r :
  labelled a types →
  GoalOriented._recursive_solve_with_heuristic depth a types cls unsat st n
    = Done r →
  search_bookkeeping st r.
Proof.
  revert a types unsat st r.
  induction depth as [|depth IH]; intros a types unsat st r Hlab; simpl;
    [done|].
  destruct unsat as [|t rest] eqn:Hu.
  { intros [= <-]. split; [done|]. by intros ? ? [= <- <-]. }
  rewrite <- Hu. intros Hrun.
  apply heuristic_scan_bookkeeping in Hrun; [done|done|].
  intros v b ty rem st0 r1 Hty. apply IH. by apply labelled_insert.
Qed.

Lemma filter_agree {A} (P Q : A → Prop) `{!∀ x, Decision (P x)}
    `{!∀ x, Decision (Q x)} (l : list A) :
  (∀ x, x ∈ l → P x ↔ Q x) → filter P l = filter Q l.
Proof.
  induction l as [|x l IH]; intros Hagree; [done|].
  assert (filter P l = filter Q l) as Hrest.
  { apply IH. intros y Hy. apply Hagree. by right. }
  destruct (decide (P x)) as [HP|HP].
  - rewrite !filter_cons_True; [by rewrite Hrest| |done].
    apply Hagree; [by left|done].
  - rewrite !filter_cons_False; [done| |done].
    intros HQ. apply HP. apply Hagree; [by left|done].
Qed.

Lemma fill_defaults_bookkeeping vars (sol : gmap Z bool) types st sol' types'
    st' :
  NoDup vars → dom types = dom sol →
  GoalOriented.fill_defaults vars sol types st = (sol', types', st') →
  dom types' = dom sol' ∧
  GoalOriented.defaulted_variables st'
    = GoalOriented.defaulted_variables st
      ++ filter (fun v => sol !! v = None) vars ∧
  (∀ v, types' !! v = if decide (v ∈ vars ∧ sol !! v = None)
                      then Some GoalOriented.Defaulted else types !! v) ∧
  (∀ v, v ∈ vars → sol !! v = None → sol' !! v = Some false).
Proof.
  intros Hnd. revert sol types st.
  induction Hnd as [|u vars Hu Hnd IH]; intros sol types st Hdom;
    cbn [GoalOriented.fill_defaults].
  - intros [= <- <- <-]. split; [done|]. split; [by rewrite app_nil_r|].
    split.
    + intros v. rewrite decide_False; [done|]. by intros [?%elem_of_nil _].
    + by intros v ?%elem_of_nil.
  - destruct (sol !! u) as [b|] eqn:Hsol.
    + intros (Hd & Hdef & Hty & Hval)%IH; [|done].
      split; [done|]. split.
      { rewrite filter_cons_False; [done|]. by rewrite Hsol. }
      split.
      * intros v. rewrite Hty.
        destruct (decide (v ∈ vars ∧ sol !! v = None)) as [[? ?]|Hn].
        -- rewrite decide_True; [done|]. split; [by right|done].
        -- rewrite decide_False; [done|].
           intros [[->|?]%elem_of_cons ?]; [congruence|by apply Hn].
      * intros v [->|Hv]%elem_of_cons ?; [congruence|by apply Hval].
    + intros Hrun.
      pose proof (fill_defaults_dom _ _ _ _ _ _ _ Hrun) as [_ Hsub].
      apply IH in Hrun as (Hd & Hdef & Hty & Hval);
        [|by rewrite !dom_insert_L, Hdom].
      assert (∀ v, v ∈ vars → <[u := false]> sol !! v = sol !! v) as Hsame.
      { intros v Hv. apply lookup_insert_ne. by intros ->. }
      split; [done|]. split.
      { rewrite Hdef. simpl. rewrite filter_cons_True by done.
        rewrite <- app_assoc. simpl. do 2 f_equal.
        apply filter_agree. intros v Hv. by rewrite Hsame. }
      split.
      * intros v. rewrite Hty.
        destruct (decide (v = u)) as [->|Hne].
        -- rewrite decide_False by (by intros [? _]).
           rewrite decide_True; [|split; [by left|done]].
           by rewrite lookup_insert_eq.
        -- rewrite !lookup_insert_ne by done.
           destruct (decide (v ∈ vars ∧ sol !! v = None)) as [[Hv Ho]|Hn].
           ++ rewrite decide_True; [done|]. split; [by right|done].
           ++ rewrite decide_False; [done|].
              intros [[->|Hv]%elem_of_cons Ho]; [done|]. by apply Hn.
      * intros v [->|Hv]%elem_of_cons Ho.
        -- eapply lookup_weaken; [|exact Hsub]. apply lookup_insert_eq.
        -- apply Hval; [done|]. by rewrite Hsame.
Qed.

(** X13. When [solve_3sat_goal_oriented] reports SATISFIABLE, every
    variable of the reported solution has an assignment type and no other
    key does; the variables labelled as defaulted are exactly those listed
    in [defaulted_variables]; and these are, in increasing order, the
    variables of [1 .. num_variables] that the search left unassigned, each
    reported [false]. *)
Theorem goal_oriented_defaults_recorded (depth : nat) (n : Z)
    (cls : list clause) (r : GoalOriented.report) :
  GoalOriented.solve_3sat_goal_oriented depth n cls = Done (tt, r) →
  GoalOriented.report_status r = SATISFIABLE →
  dom (GoalOriented.report_assignment_types r)
    = dom (GoalOriented.report_solution r) ∧
  (∀ v, GoalOriented.report_assignment_types r !! v
          = Some GoalOriented.Defaulted ↔
        v ∈ GoalOriented.defaulted_variables (GoalOriented.report_stats r)) ∧
  (∀ v, v ∈ GoalOriented.defaulted_variables (GoalOriented.report_stats r) →
        GoalOriented.report_solution r !! v = Some false) ∧
  ∃ found types st0,
    GoalOriented._recursive_solve_with_heuristic depth ∅ ∅ cls
      (seq 0 (length cls)) GoalOriented.fresh_stats n
      = Done (Some (found, types), st0) ∧
    GoalOriented.defaulted_variables (GoalOriented.report_stats r)
      = filter (fun v => found !! v = None) (seqZ 1 n).
Proof.
  unfold GoalOriented.solve_3sat_goal_oriented.
  destruct (GoalOriented._recursive_solve_with_heuristic depth ∅ ∅ cls _ _ n)
    as [[[[found types]|] st0]| |] eqn:Hrun; simpl; [| |done|done].
  - destruct (GoalOriented.fill_defaults _ _ _ _) as [[sol' types'] st']
      eqn:Hf.
    intros [= <-] _. simpl.
    apply recursive_solve_bookkeeping in Hrun as [Hd Hlab];
      [|split; [by rewrite !dom_empty_L|intros v; by rewrite lookup_empty]].
    simpl in Hd. destruct (Hlab found types eq_refl) as [Hdom Hno].
    apply fill_defaults_bookkeeping in Hf as (Hd' & Hdef & Hty & Hval);
      [|apply NoDup_seqZ|done].
    rewrite Hd in Hdef. simpl in Hdef.
    split; [done|]. split; [|split].
    + intros v. rewrite Hty, Hdef, list_elem_of_filter.
      destruct (decide (v ∈ seqZ 1 n ∧ found !! v = None)) as [[? ?]|Hn].
      * split; done.
      * split; [by intros ?%Hno|]. intros [? ?]. exfalso. by apply Hn.
    + intros v. rewrite Hdef. intros [? ?]%list_elem_of_filter.
      by apply Hval.
    + exists found, types, st0. done.
  - intros [= <-]. done.
Qed.

Lemma goal_oriented_defaults_recorded_witness :
  ∃ r, GoalOriented.solve_3sat_goal_oriented 6 5 original_5_var
         = Done (tt, r) ∧
       dom (GoalOriented.report_assignment_types r)
         = dom (GoalOriented.report_solution r).
Proof.
  eexists. split; [vm_compute; reflexivity|].
  eapply (goal_oriented_defaults_recorded 6 5 original_5_var);
    [vm_compute; reflexivity|reflexivity].
Defined.

(** ** The implication graph *)

Lemma ensure_key_lookup key (m : gmap Z (list Z)) j :
  default [] (CNFTransformer.ensure_key key m !! j) = default [] (m !! j) ∧
  (is_Some (CNFTransformer.ensure_key key m !! j) ↔
   is_Some (m !! j) ∨ key = j).
Proof.
  unfold CNFTransformer.ensure_key. destruct (m !! key) as [x|] eqn:Hx.
  - split; [done|]. split; [by left|]. intros [?|<-]; [done|by rewrite Hx].
  - destruct (decide (key = j)) as [<-|Hne].
    + rewrite lookup_insert_eq, Hx. split; [done|]. split; [by right|eauto].
    + rewrite lookup_insert_ne by done. split; [done|].
      split; [by left|]. by intros [?|?].
Qed.

Lemma append_lookup key x (m : gmap Z (list Z)) j :
  default [] (alter (fun implied => implied ++ [x]) key m !! j)
    = default [] (m !! j)
      ++ (if decide (key = j)
          then match m !! key with Some _ => [x] | None => [] end
          else []) ∧
  (is_Some (alter (fun implied => implied ++ [x]) key m !! j) ↔
   is_Some (m !! j)).
Proof.
  destruct (decide (key = j)) as [<-|Hne].
  - rewrite lookup_alter_eq. destruct (m !! key) as [l|]; simpl.
    + split; [done|]. split; eauto.
    + split; [done|]. done.
  - rewrite lookup_alter_ne by done. by rewrite app_nil_r.
Qed.

Lemma add_implications_lookup (m : gmap Z (list Z)) c k :
  default [] (CNFTransformer.add_implications m c !! k)
    = default [] (m !! k) ++ clause_edges k c ∧
  (is_Some (CNFTransformer.add_implications m c !! k) ↔
   is_Some (m !! k) ∨ clause_edges k c ≠ []).
Proof.
  unfold CNFTransformer.add_implications, clause_edges.
  destruct c as [|l1 [|l2 [|? ?]]];
    try (rewrite app_nil_r; split; [done|]; split; [by left|];
         by intros [?|?]).
  set (m1 := CNFTransformer.ensure_key (- l1) m).
  set (m2 := CNFTransformer.ensure_key (- l2) m1).
  set (m3 := alter (fun implied => implied ++ [l2]) (- l1) m2).
  assert (is_Some (m2 !! (- l1))) as [x1 H1].
  { apply ensure_key_lookup. left. apply ensure_key_lookup. by right. }
  assert (is_Some (m3 !! (- l2))) as [x2 H2].
  { apply append_lookup. apply ensure_key_lookup. by right. }
  destruct (append_lookup (- l2) l1 m3 k) as [E4 S4].
  destruct (append_lookup (- l1) l2 m2 k) as [E3 S3]. fold m3 in E3, S3.
  destruct (ensure_key_lookup (- l2) m1 k) as [E2 S2]. fold m2 in E2, S2.
  destruct (ensure_key_lookup (- l1) m k) as [E1 S1]. fold m1 in E1, S1.
  rewrite E4, E3, E2, E1, S4, S3, S2, S1, H1, H2, <- app_assoc.
  split; [done|].
  destruct (decide (- l1 = k)), (decide (- l2 = k)); simpl; split;
    intros; try tauto; try (by right); destruct_or?; tauto || done.
Qed.

Lemma fold_add_implications_lookup cls (m : gmap Z (list Z)) k :
  default [] (fold_left CNFTransformer.add_implications cls m !! k)
    = default [] (m !! k) ++ edges_of cls k ∧
  (is_Some (fold_left CNFTransformer.add_implications cls m !! k) ↔
   is_Some (m !! k) ∨ edges_of cls k ≠ []).
Proof.
  revert m. induction cls as [|c cls IH]; intros m; simpl.
  - unfold edges_of. simpl. rewrite app_nil_r. split; [done|].
    split; [by left|]. by intros [?|?].
  - destruct (IH (CNFTransformer.add_implications m c)) as [Hl Hk].
    destruct (add_implications_lookup m c k) as [Hl' Hk'].
    unfold edges_of in *. simpl. split.
    + by rewrite Hl, Hl', <- app_assoc.
    + rewrite Hk, Hk'. split.
      * intros [[?|?]|?]; [by left|right|right].
        -- by destruct (clause_edges k c).
        -- intros [? ?]%app_eq_nil. done.
      * intros [?|Hne]; [by left; left|].
        destruct (clause_edges k c) eqn:Hc; [by right|left; right; done].
Qed.

Lemma elem_of_edges_of cls k m :
  m ∈ edges_of cls k ↔
  ∃ lit1 lit2, [lit1; lit2] ∈ cls ∧
               ((k = - lit1 ∧ m = lit2) ∨ (k = - lit2 ∧ m = lit1)).
Proof.
  unfold edges_of. rewrite list_elem_of_join. split.
  - intros (es & Hm & (c & -> & Hc)%list_elem_of_fmap).
    unfold clause_edges in Hm. destruct c as [|l1 [|l2 [|? ?]]];
      try by apply elem_of_nil in Hm.
    exists l1, l2. split; [done|].
    apply elem_of_app in Hm as [Hm|Hm]; [left|right];
      (destruct (decide _) as [<-|]; [|by apply elem_of_nil in Hm]);
      by apply list_elem_of_singleton in Hm.
  - intros (l1 & l2 & Hc & Hcase).
    exists (clause_edges k [l1; l2]). split; [|apply list_elem_of_fmap; eauto].
    unfold clause_edges. apply elem_of_app.
    destruct Hcase as [[-> ->]|[-> ->]]; [left|right];
      rewrite decide_True by done; by left.
Qed.

(** X14. In the implication graph the list stored under a literal [k]
    holds [m] exactly when some clause of exactly two literals is
    [[-k, m]] or [[m, -k]]; clauses of any other length add nothing.  The
    graph is closed under contraposition ([k -> m] is there exactly when
    [-m -> -k] is), and no key is stored with an empty list. *)
Theorem implication_graph_edges (cnf : CNFInstance) (k m : Z) :
  let implied l := default [] (CNFTransformer.to_implication_graph cnf !! l) in
  (m ∈ implied k ↔
   ∃ lit1 lit2, [lit1; lit2] ∈ clauses cnf ∧
                ((k = - lit1 ∧ m = lit2) ∨ (k = - lit2 ∧ m = lit1))) ∧
  (m ∈ implied k ↔ - k ∈ implied (- m)) ∧
  (is_Some (CNFTransformer.to_implication_graph cnf !! k) ↔ implied k ≠ []).
Proof.
  intros implied. unfold implied, CNFTransformer.to_implication_graph.
  assert (∀ l, default [] (fold_left CNFTransformer.add_implications
                             (clauses cnf) ∅ !! l)
               = edges_of (clauses cnf) l) as Hl.
  { intros l. destruct (fold_add_implications_lookup (clauses cnf) ∅ l)
      as [-> _]. by rewrite lookup_empty. }
  rewrite !Hl. split; [apply elem_of_edges_of|]. split.
  - rewrite !elem_of_edges_of. split.
    + intros (l1 & l2 & Hc & [[-> ->]|[-> ->]]); exists l1, l2;
        (split; [done|]); rewrite ?Z.opp_involutive; [right|left]; done.
    + intros (l1 & l2 & Hc & [[Hm Hk]|[Hm Hk]]); exists l1, l2;
        (split; [done|]); [right|left]; split; lia.
  - destruct (fold_add_implications_lookup (clauses cnf) ∅ k) as [_ ->].
    rewrite lookup_empty. split; [intros [[? ?]|?]; done|by right].
Qed.

(** ** The backbone *)

Lemma fold_backbone_elem cls (acc : gset Z) l :
  l ∈ fold_left
        (fun backbone c =>
           match c with
           | [lit] => {[lit]} ∪ backbone
           | _ => backbone
           end) cls acc ↔
  l ∈ acc ∨ [l] ∈ cls.
Proof.
  revert acc. induction cls as [|c cls IH]; intros acc; simpl.
  - split; [by left|]. intros [?|?%elem_of_nil]; done.
  - rewrite IH. destruct c as [|lit [|? ?]].
    + split; [intros [?|?]; [by left|right; by right]|].
      intros [?|[?|?]%elem_of_cons]; [by left|done|by right].
    + rewrite elem_of_union, elem_of_singleton. split.
      * intros [[->|?]|?]; [right; by left|by left|right; by right].
      * intros [?|[[= ->]|?]%elem_of_cons];
          [left; by right|left; by left|by right].
    + split; [intros [?|?]; [by left|right; by right]|].
      intros [?|[?|?]%elem_of_cons]; [by left|done|by right].
Qed.

Lemma satisfied_singleton l (σ : gmap Z bool) :
  is_clause_satisfied [l] σ = true ↔ makes_true σ l.
Proof.
  rewrite is_clause_satisfied_iff. split.
  - intros (lit & ->%list_elem_of_singleton & Ht). done.
  - intros Ht. exists l. split; [by left|done].
Qed.

Lemma makes_true_opposite (σ : gmap Z bool) l :
  makes_true σ l → makes_true σ (- l) → False.
Proof.
  unfold makes_true. rewrite Z.abs_opp.
  intros [[? H1]|[? H1]] [[? H2]|[? H2]]; try lia; congruence.
Qed.

(** X15. A literal is in the backbone exactly when it is the only literal
    of some clause.  Every assignment that satisfies the formula makes
    each backbone literal true, so a backbone that holds a literal together
    with its negation belongs to an unsatisfiable formula. *)
Theorem backbone_forced (cnf : CNFInstance) (l : Z) :
  (l ∈ CNFTransformer.extract_backbone cnf ↔ [l] ∈ clauses cnf) ∧
  (l ∈ CNFTransformer.extract_backbone cnf →
   ∀ σ, satisfies_all (clauses cnf) σ → makes_true σ l) ∧
  (l ∈ CNFTransformer.extract_backbone cnf →
   - l ∈ CNFTransformer.extract_backbone cnf →
   ¬ satisfiable (clauses cnf)).
Proof.
  assert (∀ l, l ∈ CNFTransformer.extract_backbone cnf ↔ [l] ∈ clauses cnf)
    as Hiff.
  { intros l0. unfold CNFTransformer.extract_backbone.
    rewrite fold_backbone_elem. split; [|by right].
    intros [?%elem_of_empty|?]; done. }
  assert (∀ l σ, l ∈ CNFTransformer.extract_backbone cnf →
                 satisfies_all (clauses cnf) σ → makes_true σ l) as Hforced.
  { intros l0 σ Hl Hall. apply Hiff in Hl.
    unfold satisfies_all in Hall. rewrite Forall_forall in Hall.
    by apply satisfied_singleton, Hall. }
  split; [apply Hiff|]. split; [intros Hl σ; by apply Hforced|].
  intros Hl Hopp [σ Hσ].
  apply (makes_true_opposite σ l); by apply Hforced.
Qed.

Lemma backbone_forced_witness :
  ¬ satisfiable [[5]; [-5]; [1; 2]].
Proof.
  destruct (backbone_forced
              {| filename := "backbone.cnf"; num_variables := 5;
                 num_clauses := 3; clauses := [[5]; [-5]; [1; 2]];
                 comments := [] |} 5) as (Hiff & _ & Hunsat).
  apply Hunsat.
  - apply Hiff. simpl. by left.
  - apply (proj2 (proj1 (backbone_forced
              {| filename := "backbone.cnf"; num_variables := 5;
                 num_clauses := 3; clauses := [[5]; [-5]; [1; 2]];
                 comments := [] |} (-5)))).
    simpl. right. by left.
Defined.

(** ** Pure literals *)

Lemma sign_step_elem acc lit v :
  (v ∈ (CNFTransformer.sign_step acc lit).1 ↔
   v ∈ acc.1 ∨ (0 < lit ∧ v = lit)) ∧
  (v ∈ (CNFTransformer.sign_step acc lit).2 ↔
   v ∈ acc.2 ∨ (lit ≤ 0 ∧ v = - lit)).
Proof.
  unfold CNFTransformer.sign_step. destruct (0 <? lit) eqn:Hs; simpl.
  - apply Z.ltb_lt in Hs. split; [set_solver|]. split; [by left|].
    intros [?|[? _]]; [done|lia].
  - apply Z.ltb_ge in Hs. split.
    + split; [by left|]. intros [?|[? _]]; [done|lia].
    + rewrite elem_of_union, elem_of_singleton. split.
      * intros [->|?]; [right|by left]. split; [done|lia].
      * intros [?|[_ ->]]; [by right|left]. lia.
Qed.

Lemma sign_fold_elem lits acc v :
  (v ∈ (fold_left CNFTransformer.sign_step lits acc).1 ↔
   v ∈ acc.1 ∨ (0 < v ∧ v ∈ lits)) ∧
  (v ∈ (fold_left CNFTransformer.sign_step lits acc).2 ↔
   v ∈ acc.2 ∨ (0 ≤ v ∧ - v ∈ lits)).
Proof.
  revert acc. induction lits as [|lit lits IH]; intros acc; simpl.
  - split; (split; [by left|]); intros [?|[_ ?%elem_of_nil]]; done.
  - destruct (IH (CNFTransformer.sign_step acc lit)) as [-> ->].
    destruct (sign_step_elem acc lit v) as [-> ->].
    split; split.
    + intros [[?|[? ->]]|[? ?]]; [by left|right|right];
        (split; [done|]); [by left|by right].
    + intros [?|[? [->|?]%elem_of_cons]];
        [by left; left|left; right; done|by right].
    + intros [[?|[? ->]]|[? ?]]; [by left|right|right].
      * split; [lia|]. rewrite Z.opp_involutive. by left.
      * split; [done|by right].
    + intros [?|[? [Heq|?]%elem_of_cons]];
        [by left; left|left; right|by right].
      split; lia.
Qed.

Lemma signed_variables_elem cls v :
  (v ∈ (CNFTransformer.signed_variables cls).1 ↔
   0 < v ∧ occurs_literal cls v) ∧
  (v ∈ (CNFTransformer.signed_variables cls).2 ↔
   0 ≤ v ∧ occurs_literal cls (- v)).
Proof.
  unfold CNFTransformer.signed_variables, occurs_literal.
  assert (∀ acc,
    (v ∈ (fold_left (fun acc c => fold_left CNFTransformer.sign_step c acc)
            cls acc).1 ↔
     v ∈ acc.1 ∨ (0 < v ∧ ∃ c, c ∈ cls ∧ v ∈ c)) ∧
    (v ∈ (fold_left (fun acc c => fold_left CNFTransformer.sign_step c acc)
            cls acc).2 ↔
     v ∈ acc.2 ∨ (0 ≤ v ∧ ∃ c, c ∈ cls ∧ - v ∈ c))) as Hfold.
  { induction cls as [|c cls IH]; intros acc; simpl.
    - split; (split; [by left|]);
        intros [?|(_ & ? & ?%elem_of_nil & _)]; done.
    - destruct (IH (fold_left CNFTransformer.sign_step c acc)) as [-> ->].
      destruct (sign_fold_elem c acc v) as [-> ->].
      split; split.
      + intros [[?|[? ?]]|(? & c' & ? & ?)]; [by left|right|right];
          (split; [done|]); [exists c|exists c']; split; try done;
          [by left|by right].
      + intros [?|(? & c' & [->|?]%elem_of_cons & ?)];
          [by left; left|left; right; done|right].
        split; [done|]. by exists c'.
      + intros [[?|[? ?]]|(? & c' & ? & ?)]; [by left|right|right];
          (split; [done|]); [exists c|exists c']; split; try done;
          [by left|by right].
      + intros [?|(? & c' & [->|?]%elem_of_cons & ?)];
          [by left; left|left; right; done|right].
        split; [done|]. by exists c'. }
  destruct (Hfold (∅, ∅)) as [-> ->]. simpl.
  split; (split; [intros [?%elem_of_empty|?]; done|by right]).
Qed.

Lemma pure_literals_elem cnf l :
  l ∈ CNFTransformer.get_pure_literals cnf ↔
  occurs_literal (clauses cnf) l ∧
  (l ≠ 0 → ¬ occurs_literal (clauses cnf) (- l)).
Proof.
  unfold CNFTransformer.get_pure_literals.
  pose proof (signed_variables_elem (clauses cnf)) as Hsv.
  destruct (CNFTransformer.signed_variables (clauses cnf)) as [pos neg].
  simpl in Hsv.
  rewrite elem_of_union, elem_of_difference, elem_of_map.
  split.
  - intros [[Hp Hn]|(v & -> & [Hn Hp]%elem_of_difference)].
    + apply Hsv in Hp as [Hpos Hocc]. split; [done|]. intros _ Hopp.
      apply Hn. apply Hsv. split; [lia|done].
    + apply Hsv in Hn as [Hnn Hocc]. split; [done|]. intros Hnz Hopp.
      apply Hp. apply Hsv. rewrite Z.opp_involutive in Hopp. split; [lia|done].
  - intros [Hocc Hopp]. destruct (decide (0 < l)) as [Hpos|Hnpos].
    + left. split; [by apply Hsv|]. intros [_ Hn]%Hsv. apply Hopp; [lia|done].
    + right. exists (- l). split; [lia|]. apply elem_of_difference. split.
      * apply Hsv. rewrite Z.opp_involutive. split; [lia|done].
      * intros [Hp Hoccn]%Hsv. apply Hopp; [lia|done].
Qed.

(** X16. A literal is returned by [get_pure_literals] exactly when it
    occurs in some clause and, unless it is 0, its negation occurs in
    none; so the result never holds a nonzero literal together with its
    negation. *)
Theorem pure_literals_characterised (cnf : CNFInstance) (l : Z) :
  (l ∈ CNFTransformer.get_pure_literals cnf ↔
   occurs_literal (clauses cnf) l ∧
   (l ≠ 0 → ¬ occurs_literal (clauses cnf) (- l))) ∧
  (l ≠ 0 → l ∈ CNFTransformer.get_pure_literals cnf →
   - l ∉ CNFTransformer.get_pure_literals cnf).
Proof.
  split; [apply pure_literals_elem|].
  intros Hnz [_ Hopp]%pure_literals_elem [Hocc _]%pure_literals_elem.
  by apply Hopp.
Qed.

Lemma pure_literals_characterised_witness :
  -3 ∉ CNFTransformer.get_pure_literals
         {| filename := "pure.cnf"; num_variables := 4; num_clauses := 3;
            clauses := [[1; 2]; [1; -2]; [3; 4]]; comments := [] |}.
Proof.
  apply (pure_literals_characterised
           {| filename := "pure.cnf"; num_variables := 4; num_clauses := 3;
              clauses := [[1; 2]; [1; -2]; [3; 4]]; comments := [] |} 3).
  - lia.
  - apply (bool_decide_unpack _). by vm_compute.
Defined.

(** X17. Making a pure literal true keeps every satisfying assignment
    satisfying: if an assignment satisfies all clauses, so does the one
    obtained by setting the variable of a nonzero pure literal to the
    value that makes the literal true. *)
Theorem pure_literal_safe (cnf : CNFInstance) (l : Z) (σ : gmap Z bool) :
  l ≠ 0 → l ∈ CNFTransformer.get_pure_literals cnf →
  satisfies_all (clauses cnf) σ →
  satisfies_all (clauses cnf) (<[Z.abs l := 0 <? l]> σ).
Proof.
  intros Hnz [_ Hopp]%pure_literals_elem Hall.
  unfold satisfies_all in *. rewrite Forall_forall in *. intros c Hc.
  specialize (Hall c Hc). apply is_clause_satisfied_iff in Hall
    as (lit & Hl & Ht).
  apply is_clause_satisfied_iff. exists lit. split; [done|].
  assert (lit ≠ 0) as Hlnz by (destruct Ht as [[? _]|[? _]]; lia).
  apply lookup_makes_true; [done|].
  destruct (decide (Z.abs lit = Z.abs l)) as [Habs|Habs].
  - rewrite Habs, lookup_insert_eq. f_equal.
    assert (lit = l ∨ lit = - l) as [->| ->] by lia; [done|].
    exfalso. apply Hopp; [done|]. by exists c.
  - rewrite lookup_insert_ne by done. by apply makes_true_lookup.
Qed.

Lemma pure_literal_safe_witness :
  satisfies_all [[1; 2]; [1; -2]; [3; 4]]
    (<[Z.abs 1 := 0 <? 1]> (<[2 := true]> (<[1 := true]> (<[3 := true]> ∅)))).
Proof.
  apply (pure_literal_safe
           {| filename := "pure.cnf"; num_variables := 4; num_clauses := 3;
              clauses := [[1; 2]; [1; -2]; [3; 4]]; comments := [] |} 1).
  - lia.
  - apply (bool_decide_unpack _). by vm_compute.
  - repeat constructor.
Defined.

(** ** The clause-length histogram *)

Lemma fold_distribution_lookup cls (m : gmap nat nat) k :
  fold_left
    (fun distribution c =>
       let len := length c in
       <[len := (default 0 (distribution !! len) + 1)%nat]> distribution)
    cls m !! k
  = if decide (clauses_of_length cls k = 0%nat) then m !! k
    else Some (default 0 (m !! k) + clauses_of_length cls k)%nat.
Proof.
  unfold clauses_of_length. revert m.
  induction cls as [|c cls IH]; intros m; simpl; [done|].
  rewrite IH. destruct (decide (length c = k)) as [Heq|Hne].
  - rewrite filter_cons_True by done. simpl. rewrite Heq, lookup_insert_eq.
    simpl. unfold clause in *. repeat case_decide; try lia; f_equal; lia.
  - rewrite filter_cons_False by done.
    by rewrite lookup_insert_ne.
Qed.

(** X18. [get_clause_length_distribution] maps a length [k] to the number
    of clauses with [k] literals, and has no entry for a length that no
    clause has: an entry is never 0. *)
Theorem clause_length_distribution (cnf : CNFInstance) (k : nat) :
  get_clause_length_distribution cnf !! k
  = if decide (clauses_of_length (clauses cnf) k = 0%nat) then None
    else Some (clauses_of_length (clauses cnf) k).
Proof.
  unfold get_clause_length_distribution.
  rewrite fold_distribution_lookup, lookup_empty. simpl.
  by destruct (decide _).
Qed.

(** ** The matrix encoding, where it succeeds *)

Lemma set_column max_var (row : list Z) lit :
  0 ≤ max_var → length row = Z.to_nat (2 * max_var) →
  (if 0 <? lit then list_setitem row (lit - 1) 1
   else list_setitem row (max_var + Z.abs lit - 1) 1)
  = if decide (fits max_var lit)
    then Done (<[Z.to_nat (column max_var lit) := 1]> row)
    else Raise IndexError.
Proof.
  intros Hmv Hlen.
  assert (∀ i, 0 ≤ i < 2 * max_var →
               list_setitem row i 1 = Done (<[Z.to_nat i := 1]> row)) as Hin.
  { intros i Hi. unfold list_setitem. rewrite Hlen.
    rewrite (proj2 (Z.ltb_ge i 0)) by lia.
    rewrite (proj2 (Z.leb_le 0 i)), (proj2 (Z.ltb_lt _ _)) by lia. done. }
  assert (∀ i, (i < 0 → i + 2 * max_var < 0) → ¬ 0 ≤ i < 2 * max_var →
               list_setitem row i 1 = Raise IndexError) as Hout.
  { intros i Hlow Hi. unfold list_setitem. rewrite Hlen.
    destruct (i <? 0) eqn:Hneg.
    - apply Z.ltb_lt in Hneg.
      rewrite (proj2 (Z.leb_gt 0 _)) by lia. done.
    - apply Z.ltb_ge in Hneg.
      rewrite (proj2 (Z.leb_le 0 i)) by lia.
      rewrite (proj2 (Z.ltb_ge _ _)) by lia. done. }
  destruct (decide (fits max_var lit)) as [Hf|Hf]; unfold fits, column in *;
    destruct (0 <? lit) eqn:Hs;
    [apply Z.ltb_lt in Hs|apply Z.ltb_ge in Hs
    |apply Z.ltb_lt in Hs|apply Z.ltb_ge in Hs];
    [by apply Hin|by apply Hin|apply Hout; [lia|done]|apply Hout; [lia|done]].
Qed.

Lemma fill_row_spec max_var c (row : list Z) :
  0 ≤ max_var → length row = Z.to_nat (2 * max_var) →
  (Forall (fits max_var) c →
   ∃ row', CNFTransformer.fill_row max_var c row = Done row' ∧
           length row' = length row ∧
           ∀ j, (j < length row)%nat →
                row' !! j
                = if decide (Exists
                               (fun lit => Z.to_nat (column max_var lit) = j) c)
                  then Some 1 else row !! j) ∧
  (¬ Forall (fits max_var) c →
   CNFTransformer.fill_row max_var c row = Raise IndexError).
Proof.
  intros Hmv. revert row.
  induction c as [|lit c IH]; intros row Hlen; cbn [CNFTransformer.fill_row].
  - split; [|by intros []]. intros _. exists row. split; [done|].
    split; [done|]. intros j Hj. rewrite decide_False; [done|].
    by intros ?%Exists_nil.
  - rewrite set_column by done.
    destruct (decide (fits max_var lit)) as [Hf|Hf]; cbn [mbind res_bind].
    + destruct (IH (<[Z.to_nat (column max_var lit) := 1]> row)) as [Hok Hbad];
        [by rewrite length_insert|].
      split.
      * intros Hall. apply Forall_cons in Hall as [_ Hall].
        destruct (Hok Hall) as (row' & -> & Hlen' & Hcells).
        exists row'. split; [done|]. rewrite length_insert in Hlen', Hcells.
        split; [done|]. intros j Hj. rewrite (Hcells j Hj).
        destruct (decide (Exists _ c)) as [He|He].
        -- rewrite decide_True; [done|]. by apply Exists_cons_tl.
        -- destruct (decide (Z.to_nat (column max_var lit) = j)) as [Heq|Hne].
           ++ rewrite decide_True by by apply Exists_cons_hd.
              rewrite Heq. by apply list_lookup_insert_eq.
           ++ rewrite decide_False.
              ** by apply list_lookup_insert_ne.
              ** intros [?|?]%Exists_cons; done.
      * intros Hnall. apply Hbad. intros Hall. apply Hnall. by constructor.
    + split; [|done]. intros Hall. by apply Forall_cons in Hall as [? _].
Qed.

Lemma build_rows_spec max_var cls matrix :
  0 ≤ max_var →
  (Forall (Forall (fits max_var)) cls →
   ∃ rows, CNFTransformer.build_rows max_var cls matrix = Done (matrix ++ rows)
           ∧ Forall2 (encoded_row max_var) cls rows) ∧
  (¬ Forall (Forall (fits max_var)) cls →
   CNFTransformer.build_rows max_var cls matrix = Raise IndexError).
Proof.
  intros Hmv. revert matrix.
  induction cls as [|c cls IH]; intros matrix; simpl.
  - split; [|by intros []]. intros _. exists []. by rewrite app_nil_r.
  - destruct (fill_row_spec max_var c
                (replicate (Z.to_nat (2 * max_var)) 0) Hmv)
      as [Hok Hbad]; [by rewrite length_replicate|].
    destruct (decide (Forall (fits max_var) c)) as [Hc|Hc].
    + destruct (Hok Hc) as (row & -> & Hlen & Hcells). simpl.
      rewrite length_replicate in Hlen, Hcells.
      destruct (IH (matrix ++ [row])) as [Hok' Hbad'].
      split.
      * intros Hall. apply Forall_cons in Hall as [_ Hall].
        destruct (Hok' Hall) as (rows & -> & Hrows).
        exists (row :: rows). rewrite <- app_assoc. split; [done|].
        constructor; [|done]. split; [done|].
        rewrite Hlen. intros j Hj. rewrite (Hcells j Hj).
        destruct (decide _); [done|]. by apply lookup_replicate_2.
      * intros Hnall. apply Hbad'. intros Hall. apply Hnall. by constructor.
    + rewrite (Hbad Hc). simpl. split; [|done].
      intros Hall. by apply Forall_cons in Hall as [? _].
Qed.

(** X19. With [max_var] the number of distinct variables, the matrix
    encoding returns exactly when every positive literal is at most
    [2 * max_var] and every other literal has absolute value at most
    [max_var] (each literal's column exists); in every other case it
    raises [IndexError].  When it returns, the matrix has one row per
    clause, every row has [2 * max_var] cells, and a cell is 1 exactly when
    it is the column of a literal of the clause, and 0 otherwise. *)
Theorem matrix_encoding_shape (cnf : CNFInstance) :
  let max_var := Z.of_nat (get_variable_count cnf) in
  (Forall (Forall (fits max_var)) (clauses cnf) →
   ∃ matrix,
     CNFTransformer.to_matrix_representation cnf
       = Done (matrix, length (clauses cnf), 2 * max_var) ∧
     Forall2 (encoded_row max_var) (clauses cnf) matrix) ∧
  (¬ Forall (Forall (fits max_var)) (clauses cnf) →
   CNFTransformer.to_matrix_representation cnf = Raise IndexError).
Proof.
  intros max_var. unfold CNFTransformer.to_matrix_representation.
  fold max_var.
  destruct (build_rows_spec max_var (clauses cnf) []) as [Hok Hbad];
    [unfold max_var; lia|].
  split.
  - intros Hall. destruct (Hok Hall) as (rows & -> & Hrows). simpl.
    by exists rows.
  - intros Hnall. by rewrite (Hbad Hnall).
Qed.

Lemma matrix_encoding_shape_witness :
  ∃ matrix,
    CNFTransformer.to_matrix_representation example_cnf
      = Done (matrix, 3%nat, 6) ∧
    Forall2 (encoded_row 3) (clauses example_cnf) matrix.
Proof.
  destruct (matrix_encoding_shape example_cnf) as [Hok _].
  apply Hok. apply (bool_decide_unpack _). by vm_compute.
Defined.

(** ** More on the adjacency transform *)

Lemma adjacency_lookup cnf v :
  CNFTransformer.to_adjacency_list cnf !! v
  = if decide (v ∈ variables_of (clauses cnf))
    then Some (neighbours (clauses cnf) v) else None.
Proof.
  unfold CNFTransformer.to_adjacency_list.
  rewrite fold_add_clause_lookup, lookup_empty. simpl.
  destruct (decide _); [|done]. f_equal. set_solver.
Qed.

(** X20. The adjacency mapping is symmetric and has no loops: when [w] is
    a neighbour of [v], then [w] differs from [v], [w] is a key as well,
    and [v] is among the neighbours of [w]. *)
Theorem adjacency_symmetric (cnf : CNFInstance) (v w : Z) (s : gset Z) :
  CNFTransformer.to_adjacency_list cnf !! v = Some s → w ∈ s →
  w ≠ v ∧
  ∃ s', CNFTransformer.to_adjacency_list cnf !! w = Some s' ∧ v ∈ s'.
Proof.
  rewrite !adjacency_lookup.
  destruct (decide (v ∈ variables_of (clauses cnf))) as [Hv|]; [|done].
  intros [= <-] (Hne & c & Hc & Hvc & Hwc)%elem_of_neighbours.
  split; [done|]. exists (neighbours (clauses cnf) w). split.
  - rewrite decide_True; [done|]. apply elem_of_variables_of. by exists c.
  - apply elem_of_neighbours. split; [done|]. by exists c.
Qed.

Lemma adjacency_symmetric_witness :
  ∃ s', CNFTransformer.to_adjacency_list example_cnf !! 2 = Some s' ∧ 1 ∈ s'.
Proof.
  destruct (adjacency_symmetric example_cnf 1 2
              (neighbours (clauses example_cnf) 1)) as [_ Hsym].
  - by vm_compute.
  - apply (bool_decide_unpack _). by vm_compute.
  - exact Hsym.
Defined.

(** X21. The adjacency mapping has one key per variable the clauses name:
    its size is [get_variable_count]. *)
Theorem adjacency_size (cnf : CNFInstance) :
  size (CNFTransformer.to_adjacency_list cnf) = get_variable_count cnf.
Proof.
  unfold get_variable_count. rewrite <- size_dom. f_equal.
  apply set_eq. intros v. rewrite elem_of_dom, adjacency_lookup.
  destruct (decide (v ∈ variables_of (clauses cnf))); split; intros H;
    try done; eauto; by destruct H.
Qed.

(** ** The all-true check *)

Lemma all_true_lookup n v :
  Fixed.all_true n !! v = if decide (1 ≤ v ≤ n) then Some true else None.
Proof.
  unfold Fixed.all_true.
  assert (∀ vars (m : gmap Z bool),
            fold_left (fun solution var => <[var := true]> solution) vars m !! v
            = if decide (v ∈ vars) then Some true else m !! v) as Hfold.
  { induction vars as [|u vars IH]; intros m; simpl.
    - destruct (decide (v ∈ [])) as [Hin|]; [by apply elem_of_nil in Hin|done].
    - rewrite IH. destruct (decide (v ∈ vars)) as [Hin|Hnin].
      + rewrite decide_True; [done|by right].
      + destruct (decide (v = u)) as [->|Hne].
        * rewrite decide_True by by left. apply lookup_insert_eq.
        * rewrite decide_False by (intros [?|?]%elem_of_cons; done).
          by apply lookup_insert_ne. }
  rewrite Hfold, lookup_empty.
  destruct (decide (v ∈ seqZ 1 n)) as [Hin|Hnin];
    rewrite elem_of_seqZ in *.
  - rewrite decide_True; [done|lia].
  - rewrite decide_False; [done|lia].
Qed.

Lemma check_all_iff cls (a : gmap Z bool) :
  Fixed.check_all cls a = true ↔ satisfies_all cls a.
Proof.
  unfold satisfies_all. induction cls as [|c cls IH]; simpl.
  - split; [constructor|done].
  - destruct (is_clause_satisfied c a) eqn:Hc; simpl.
    + rewrite IH. split; [by constructor|]. by intros ?%Forall_inv_tail.
    + split; [done|]. intros ?%Forall_inv. congruence.
Qed.

Lemma all_true_satisfies n c :
  is_clause_satisfied c (Fixed.all_true n) = true ↔
  ∃ lit, lit ∈ c ∧ 1 ≤ lit ≤ n.
Proof.
  rewrite is_clause_satisfied_iff. split.
  - intros (lit & Hl & Ht). exists lit. split; [done|].
    unfold makes_true in Ht. rewrite all_true_lookup in Ht.
    destruct (decide (1 ≤ Z.abs lit ≤ n)); [|by destruct Ht as [[_ ?]|[_ ?]]].
    destruct Ht as [[? _]|[_ ?]]; [lia|done].
  - intros (lit & Hl & Hr). exists lit. split; [done|]. left.
    split; [lia|]. rewrite all_true_lookup, decide_True; [done|lia].
Qed.

(** X22. [solve_3sat_fixed] answers with the all-true assignment over
    [1 .. num_variables] exactly when every clause has a positive literal
    whose variable is in that range, and with [None] and the status
    UNSATISFIABLE as soon as one clause has none, whether or not the
    formula is satisfiable.  An assignment it returns satisfies every
    clause. *)
Theorem fixed_solver_answer (n : Z) (cls : list clause) :
  (Forall (fun c => ∃ lit, lit ∈ c ∧ 1 ≤ lit ≤ n) cls →
   Fixed.solve_3sat_fixed n cls = (Some (Fixed.all_true n), SATISFIABLE) ∧
   satisfies_all cls (Fixed.all_true n)) ∧
  (¬ Forall (fun c => ∃ lit, lit ∈ c ∧ 1 ≤ lit ≤ n) cls →
   Fixed.solve_3sat_fixed n cls = (None, UNSATISFIABLE)) ∧
  (∀ v, Fixed.all_true n !! v
        = if decide (1 ≤ v ≤ n) then Some true else None).
Proof.
  assert (Forall (fun c => ∃ lit, lit ∈ c ∧ 1 ≤ lit ≤ n) cls ↔
          satisfies_all cls (Fixed.all_true n)) as Hiff.
  { unfold satisfies_all. rewrite !Forall_forall.
    split; intros H c Hc; apply all_true_satisfies; by apply H. }
  unfold Fixed.solve_3sat_fixed. split; [|split; [|apply all_true_lookup]].
  - intros Hall. apply Hiff in Hall. split; [|done].
    apply check_all_iff in Hall. by rewrite Hall.
  - intros Hnall.
    destruct (Fixed.check_all cls (Fixed.all_true n)) eqn:Hc; [|done].
    exfalso. apply Hnall, Hiff. by apply check_all_iff.
Qed.

Lemma fixed_solver_answer_witness :
  Fixed.solve_3sat_fixed 5 original_5_var
    = (Some (Fixed.all_true 5), SATISFIABLE) ∧
  satisfies_all original_5_var (Fixed.all_true 5).
Proof.
  destruct (fixed_solver_answer 5 original_5_var) as [Hsat _].
  apply Hsat. unfold original_5_var. repeat constructor.
  - exists 1. split; [by left|lia].
  - exists 2. split; [right; by left|lia].
  - exists 2. split; [by left|lia].
  - exists 4. split; [right; by left|lia].
Defined.


(** ** What the heuristic evaluation reports *)

Lemma check_for_contradiction_iff cls (a : gmap Z bool) :
  GoalOriented._check_for_contradiction cls a = true ↔
  ∃ c, c ∈ cls ∧ falsified c a.
Proof.
  split; [apply check_for_contradiction_true|].
  intros (c & Hc & Hf).
  destruct (GoalOriented._check_for_contradiction cls a) eqn:Hcheck; [done|].
  pose proof (check_for_contradiction_false cls a c Hcheck Hc) as Hno.
  apply is_clause_contradiction_iff in Hf. congruence.
Qed.

(** X23. When every index handed in points into the clause list,
    [_evaluate_variable_assignment] returns: the remaining indices are those
    of the indices handed in whose clause the extended assignment leaves
    unsatisfied, in the same order; the count of newly satisfied clauses is
    what is missing from them, so it lies between 0 and the number of
    indices handed in; and the contradiction flag is set exactly when some
    clause of the formula has every literal assigned and false under the
    extended assignment. *)
Theorem evaluation_report (v : Z) (b : bool) (a : gmap Z bool)
    (cls : list clause) (unsat : list nat) :
  valid_indices cls unsat →
  ∃ contradiction count remaining,
    GoalOriented._evaluate_variable_assignment v b a cls unsat
      = Done (contradiction, count, remaining) ∧
    remaining
      = filter (fun i => still_unsatisfied cls (<[v := b]> a) i) unsat ∧
    count + Z.of_nat (length remaining) = Z.of_nat (length unsat) ∧
    0 ≤ count ≤ Z.of_nat (length unsat) ∧
    (contradiction = true ↔ ∃ c, c ∈ cls ∧ falsified c (<[v := b]> a)).
Proof.
  intros Hvalid. unfold GoalOriented._evaluate_variable_assignment.
  destruct (get_unsatisfied_returns cls (<[v := b]> a) unsat Hvalid)
    as [rem Hrem].
  rewrite Hrem. simpl. eexists _, _, _. split; [done|].
  apply get_unsatisfied_spec in Hrem as [-> _].
  pose proof (length_filter (fun i => still_unsatisfied cls (<[v := b]> a) i)
                unsat) as Hlen.
  repeat split; try lia.
  - apply check_for_contradiction_iff.
  - apply check_for_contradiction_iff.
Qed.

Lemma evaluation_report_witness :
  ∃ contradiction count remaining,
    GoalOriented._evaluate_variable_assignment 1 true ∅ original_5_var
      (seq 0 4) = Done (contradiction, count, remaining) ∧
    0 ≤ count ≤ 4.
Proof.
  destruct (evaluation_report 1 true ∅ original_5_var (seq 0 4))
    as (contradiction & count & remaining & Heval & _ & _ & Hcount & _).
  - apply (bool_decide_unpack _). by vm_compute.
  - exists contradiction, count, remaining. split; [exact Heval|exact Hcount].
Defined.

(** X24. A forced choice is taken only for a variable without a value, and
    the value it forces falsifies no clause: under the extended assignment
    no clause has all its literals assigned and false.  In particular no
    value is forced when both values contradict. *)
Theorem forced_choice_safe (v : Z) (a : gmap Z bool) (cls : list clause)
    (unsat : list nat) (f : Z) (value : bool) (remaining : list nat) :
  forced_choice v a cls unsat f = Done (Some (value, remaining)) →
  a !! v = None ∧
  GoalOriented._check_for_contradiction cls (<[v := value]> a) = false ∧
  ∀ c, c ∈ cls → ¬ falsified c (<[v := value]> a).
Proof.
  intros Hf.
  assert (a !! v = None ∧
          GoalOriented._check_for_contradiction cls (<[v := value]> a)
            = false) as [Hnone Hcheck].
  { revert Hf. unfold forced_choice,
      GoalOriented._evaluate_variable_assignment.
    destruct (a !! v); [done|]. intros Hf. split; [done|]. revert Hf.
    destruct (_get_unsatisfied_clause_indices cls (<[v := true]> a) unsat)
      as [rt| |]; simpl; [|done|done].
    destruct (_get_unsatisfied_clause_indices cls (<[v := false]> a) unsat)
      as [rf| |]; simpl; [|done|done].
    unfold GoalOriented._make_heuristic_decision.
    destruct (GoalOriented._check_for_contradiction cls (<[v := true]> a))
      eqn:Htrue;
      destruct (GoalOriented._check_for_contradiction cls (<[v := false]> a))
        eqn:Hfalse;
      simpl; repeat case_match; intros Hf; by simplify_eq. }
  repeat split; try done.
  intros c Hc Hfalse.
  assert (GoalOriented._check_for_contradiction cls (<[v := value]> a) = true)
    by (apply check_for_contradiction_iff; eauto).
  congruence.
Qed.

Lemma forced_choice_safe_witness :
  GoalOriented._check_for_contradiction [[1]; [2; 3]] (<[1 := true]> ∅)
    = false.
Proof.
  destruct (forced_choice_safe 1 ∅ [[1]; [2; 3]] [0%nat; 1%nat] 1 true
              [1%nat]) as (_ & Hcheck & _).
  - by vm_compute.
  - exact Hcheck.
Defined.
